(** * SHT45 live plotter: ingestion, validation, buffering and resampling

    A shallow embedding of the core of [SHT_plotter_live.py] and the
    properties its specification states about it.

    Modelling conventions

    - A Python [str] is a list of characters ([pystr]); characters are the
      8-bit code points of [ascii], so the text considered is Latin-1.
    - A Python [float] is modelled by [pyfloat]: an exact rational, or one
      of the three special values [inf], [-inf], [nan].  Binary rounding and
      overflow of IEEE doubles are not modelled; all decimal literals and
      all constants of the program denote their exact value.
    - Code that can raise is modelled in a small state-and-exception monad;
      [try/except] is [try_except].
    - The polling loops are modelled one iteration at a time: what the
      operating system answers ([os.path.getsize], the file content seen
      by [open]/[read]) is an argument of the iteration.  The content
      is the text [read] returns, and sizes and offsets count its
      characters, as they do for an ASCII log with "\n" line ends.  The
      interleaving of the tailer threads is the
      order in which their iterations, or the lines they parse, are
      applied to the one monitor state.
    - Not modelled: the widgets and the plotting of [LivePlotterApp], the
      reading of a file by [csv.DictReader] (the static overlay import
      takes the header and the rows it gives), the text of error events,
      and the limit of [int()] on the number of digits. *)

From Stdlib Require Import ZArith QArith Qround Qabs Ascii String List Lia Lqa Bool.
From stdpp Require Import base option list gmap.

Local Open Scope Z_scope.

(** ** Python strings *)

Module Str.

Definition pystr : Type := list ascii.

(** A string literal. *)
Definition lit (s : string) : pystr := list_ascii_of_string s.

Definition LF : ascii := "010"%char.
Definition CR : ascii := "013"%char.

Definition code (c : ascii) : Z := Z.of_N (N_of_ascii c).

(** [str.isspace] on one character, which is also the class [\s] of a
    [str] pattern: TAB..CR, FS..US, space, NEL, NBSP. *)
Definition isspace (c : ascii) : bool :=
  let n := code c in
  ((9 <=? n) && (n <=? 13)) || ((28 <=? n) && (n <=? 32))
  || (n =? 133) || (n =? 160).

(** [\d] on Latin-1 text. *)
Definition isdigit (c : ascii) : bool :=
  let n := code c in (48 <=? n) && (n <=? 57).

Definition digit_val (c : ascii) : Z := code c - 48.

Fixpoint lstrip (s : pystr) : pystr :=
  match s with
  | c :: s' => if isspace c then lstrip s' else s
  | [] => []
  end.

(** [s.strip()] *)
Definition strip (s : pystr) : pystr := rev (lstrip (rev (lstrip s))).

(** [s.split(sep)] for a one-character separator. *)
Fixpoint split (sep : ascii) (s : pystr) : list pystr :=
  match s with
  | [] => [[]]
  | c :: s' =>
      if Ascii.eqb c sep then [] :: split sep s'
      else match split sep s' with
           | p :: ps => (c :: p) :: ps
           | [] => [[c]]
           end
  end.

(** [c.lower()] on Latin-1. *)
Definition lower_char (c : ascii) : ascii :=
  let n := code c in
  if ((65 <=? n) && (n <=? 90))
     || ((192 <=? n) && (n <=? 222) && negb (n =? 215))
  then ascii_of_N (Z.to_N (n + 32)) else c.

Definition lower (s : pystr) : pystr := map lower_char s.

Fixpoint startswith (s p : pystr) : bool :=
  match p, s with
  | [], _ => true
  | a :: p', c :: s' => Ascii.eqb c a && startswith s' p'
  | _ :: _, [] => false
  end.

Definition endswith (s p : pystr) : bool := startswith (rev s) (rev p).

(** [p in s] *)
Fixpoint contains (p s : pystr) : bool :=
  startswith s p || match s with [] => false | _ :: s' => contains p s' end.

(** [s.replace(' ', '')]: every space removed *)
Definition remove_spaces (s : pystr) : pystr :=
  filter (fun c => Ascii.eqb c " "%char = false) s.

(** The characters at which [str.splitlines] breaks a line. *)
Definition islinebreak (c : ascii) : bool :=
  let n := code c in
  ((10 <=? n) && (n <=? 13)) || ((28 <=? n) && (n <=? 30)) || (n =? 133).

(** [s.splitlines(keepends=True)]; [cur] is the current line, reversed. *)
Fixpoint splitlines_from (cur : pystr) (s : pystr) : list pystr :=
  match s with
  | [] => match cur with [] => [] | _ => [rev cur] end
  | c :: s' =>
      if Ascii.eqb c CR then
        match s' with
        | d :: s'' =>
            if Ascii.eqb d LF then rev (d :: c :: cur) :: splitlines_from [] s''
            else rev (c :: cur) :: splitlines_from [] s'
        | [] => [rev (c :: cur)]
        end
      else if islinebreak c then rev (c :: cur) :: splitlines_from [] s'
      else splitlines_from (c :: cur) s'
  end.

Definition splitlines_keepends (s : pystr) : list pystr := splitlines_from [] s.

Definition eqb (a b : pystr) : bool := bool_decide (a = b).

End Str.
Import Str.

(** ** Python floats *)

Module Float.

Inductive pyfloat : Type :=
| Fin (q : Q)     (* a finite value *)
| PInf | NInf     (* float("inf"), float("-inf") *)
| NaN.

(** [a < b]; every comparison with [nan] is false. *)
Definition ltb (a b : pyfloat) : bool :=
  match a, b with
  | NaN, _ | _, NaN => false
  | Fin x, Fin y => negb (Qle_bool y x)
  | NInf, NInf => false
  | NInf, _ => true
  | _, NInf => false
  | PInf, _ => false
  | Fin _, PInf => true
  end.

(** [a <= b] *)
Definition leb (a b : pyfloat) : bool :=
  match a, b with
  | NaN, _ | _, NaN => false
  | Fin x, Fin y => Qle_bool x y
  | NInf, _ => true
  | _, NInf => false
  | _, PInf => true
  | PInf, Fin _ => false
  end.

(** [a > b] *)
Definition gtb (a b : pyfloat) : bool := ltb b a.

Definition neg (a : pyfloat) : pyfloat :=
  match a with
  | Fin x => Fin (Qred (- x))
  | PInf => NInf
  | NInf => PInf
  | NaN => NaN
  end.

(** [a - b] *)
Definition sub (a b : pyfloat) : pyfloat :=
  match a, b with
  | NaN, _ | _, NaN => NaN
  | Fin x, Fin y => Fin (Qred (x - y))
  | Fin _, PInf => NInf
  | Fin _, NInf => PInf
  | PInf, PInf => NaN
  | PInf, _ => PInf
  | NInf, NInf => NaN
  | NInf, _ => NInf
  end.

(** [a + b] *)
Definition add (a b : pyfloat) : pyfloat :=
  match a, b with
  | NaN, _ | _, NaN => NaN
  | Fin x, Fin y => Fin (Qred (x + y))
  | PInf, NInf | NInf, PInf => NaN
  | PInf, _ | _, PInf => PInf
  | NInf, _ | _, NInf => NInf
  end.

(** [abs(a)] *)
Definition abs (a : pyfloat) : pyfloat :=
  match a with
  | Fin x => Fin (Qabs x)
  | PInf | NInf => PInf
  | NaN => NaN
  end.

(** [a * b] *)
Definition mul (a b : pyfloat) : pyfloat :=
  let inf_times (positive : bool) (x : Q) : pyfloat :=
    match (x ?= 0)%Q with
    | Eq => NaN
    | Gt => if positive then PInf else NInf
    | Lt => if positive then NInf else PInf
    end in
  match a, b with
  | NaN, _ | _, NaN => NaN
  | Fin x, Fin y => Fin (Qred (x * y))
  | PInf, Fin y | Fin y, PInf => inf_times true y
  | NInf, Fin y | Fin y, NInf => inf_times false y
  | PInf, PInf | NInf, NInf => PInf
  | PInf, NInf | NInf, PInf => NInf
  end.

(** the built-in [max(a, b)] and [min(a, b)]: the first argument unless
    the second is strictly beyond it *)
Definition max2 (a b : pyfloat) : pyfloat := if gtb b a then b else a.
Definition min2 (a b : pyfloat) : pyfloat := if ltb b a then b else a.

(** [max(l)] and [min(l)] of a list; [None] for the empty list *)
Definition max_list (l : list pyfloat) : option pyfloat :=
  match l with
  | [] => None
  | x :: l' => Some (fold_left max2 l' x)
  end.
Definition min_list (l : list pyfloat) : option pyfloat :=
  match l with
  | [] => None
  | x :: l' => Some (fold_left min2 l' x)
  end.

(** [round(x)] of a finite value: to the nearest integer, ties to the
    even one *)
Definition round_half_even (x : Q) : Z :=
  let f := Qfloor x in
  match (x - inject_Z f ?= 1 # 2)%Q with
  | Lt => f
  | Gt => f + 1
  | Eq => if Z.even f then f else f + 1
  end.

(** [int(round(a))]; [None]: [round] raises on [inf] and [nan] *)
Definition round (a : pyfloat) : option Z :=
  match a with
  | Fin x => Some (round_half_even x)
  | _ => None
  end.

(** *** [float(s)]

    The literal grammar of the language reference:
    [[sign] (floatnumber | "inf" | "infinity" | "nan")], letters in any
    case, surrounded by optional white space, where
    [digitpart ::= digit (["_"] digit)*],
    [number ::= [digitpart] "." digitpart | digitpart ["."]] and
    [floatnumber ::= number [("e" | "E") [sign] digitpart]]. *)

(** the tail [(["_"] digit)*] of a [digitpart] *)
Fixpoint digits_tail (s : pystr) : list Z * pystr :=
  match s with
  | c :: s' =>
      if isdigit c then
        let '(ds, r) := digits_tail s' in (digit_val c :: ds, r)
      else if Ascii.eqb c "_"%char then
        match s' with
        | d :: s'' =>
            if isdigit d then
              let '(ds, r) := digits_tail s'' in (digit_val d :: ds, r)
            else ([], s)
        | [] => ([], s)
        end
      else ([], s)
  | [] => ([], [])
  end.

(** a [digitpart] at the head of [s], if there is one *)
Definition digitpart (s : pystr) : option (list Z * pystr) :=
  match s with
  | c :: s' =>
      if isdigit c then
        let '(ds, r) := digits_tail s' in Some (digit_val c :: ds, r)
      else None
  | [] => None
  end.

Definition digits_value (ds : list Z) : Z :=
  fold_left (fun acc d => 10 * acc + d) ds 0.

(** [number]: the digits before and after the point, and the rest *)
Definition number (s : pystr) : option (list Z * list Z * pystr) :=
  match digitpart s with
  | Some (ip, r) =>
      match r with
      | c :: r' =>
          if Ascii.eqb c "."%char then
            match digitpart r' with
            | Some (fp, r'') => Some (ip, fp, r'')
            | None => Some (ip, [], r')
            end
          else Some (ip, [], r)
      | [] => Some (ip, [], [])
      end
  | None =>
      match s with
      | c :: r' =>
          if Ascii.eqb c "."%char then
            match digitpart r' with
            | Some (fp, r'') => Some ([], fp, r'')
            | None => None
            end
          else None
      | [] => None
      end
  end.

(** the optional exponent; [None] when what follows is not one *)
Definition exponent (s : pystr) : option Z :=
  match s with
  | [] => Some 0
  | c :: r =>
      if Ascii.eqb c "e"%char || Ascii.eqb c "E"%char then
        let '(sgn, r') :=
          match r with
          | d :: r0 =>
              if Ascii.eqb d "-"%char then (-1, r0)
              else if Ascii.eqb d "+"%char then (1, r0)
              else (1, r)
          | [] => (1, r)
          end in
        match digitpart r' with
        | Some (ds, []) => Some (sgn * digits_value ds)
        | _ => None
        end
      else None
  end.

Definition scale10 (q : Q) (e : Z) : Q :=
  if 0 <=? e then (q * inject_Z (10 ^ e))%Q else (q / inject_Z (10 ^ (- e)))%Q.

Definition floatnumber (s : pystr) : option Q :=
  match number s with
  | Some (ip, fp, r) =>
      match exponent r with
      | Some e =>
          let mant := (digits_value (ip ++ fp) # 1)%Q in
          Some (Qred (scale10 mant (e - Z.of_nat (length fp))))
      | None => None
      end
  | None => None
  end.

(** [float(s)]; [None] is [ValueError]. *)
Definition float (s : pystr) : option pyfloat :=
  let s := strip s in
  let '(negative, body) :=
    match s with
    | c :: r =>
        if Ascii.eqb c "-"%char then (true, r)
        else if Ascii.eqb c "+"%char then (false, r)
        else (false, s)
    | [] => (false, s)
    end in
  let low := lower body in
  if Str.eqb low (lit "inf") || Str.eqb low (lit "infinity") then
    Some (if negative then NInf else PInf)
  else if Str.eqb low (lit "nan") then Some NaN
  else match floatnumber body with
       | Some q => Some (if negative then neg (Fin q) else Fin q)
       | None => None
       end.

(** [int(s)] for a string of decimal digits; [None] is [ValueError]. *)
Definition int (s : pystr) : option Z :=
  match s with
  | [] => None
  | _ => if forallb isdigit s then Some (digits_value (map digit_val s)) else None
  end.

End Float.
Import Float.

(** ** Regular expressions

    The fragment of [re] that [LINE_RE] is written in, matched as [re]
    does: by backtracking, greedy alternatives first.  Repetition is over
    a character class, which is all the pattern uses. *)

Module Re.

Inductive regex : Type :=
| Eps
| Cls (p : ascii -> bool)             (* one character of a class *)
| Seq (a b : regex)
| Star (p : ascii -> bool)            (* c*  *)
| Opt (a : regex)                     (* a?  *)
| Grp (name : string) (a : regex)     (* (?P<name>a) *)
| Eos.                                (* $ *)

Definition groups : Type := list (string * pystr).

Definition Chr (c : ascii) : regex := Cls (Ascii.eqb c).
Definition Plus (p : ascii -> bool) : regex := Seq (Cls p) (Star p).
Definition seqs (rs : list regex) : regex := foldr Seq Eps rs.
Definition Lit (s : string) : regex := seqs (map Chr (lit s)).

(** [exec r s g k]: match [r] at the head of [s], then continue with [k]
    on what is left; [None] makes the matcher backtrack. *)
Fixpoint exec (r : regex) (s : pystr) (g : groups)
    (k : pystr -> groups -> option groups) {struct r} : option groups :=
  match r with
  | Eps => k s g
  | Cls p =>
      match s with
      | c :: s' => if p c then k s' g else None
      | [] => None
      end
  | Seq a b => exec a s g (fun s' g' => exec b s' g' k)
  | Star p =>
      (fix star (s : pystr) : option groups :=
         match s with
         | c :: s' =>
             if p c then
               match star s' with
               | Some m => Some m
               | None => k s g
               end
             else k s g
         | [] => k s g
         end) s
  | Opt a =>
      match exec a s g k with
      | Some m => Some m
      | None => k s g
      end
  | Grp name a =>
      exec a s g
        (fun s' g' => k s' ((name, take (length s - length s')%nat s) :: g'))
  | Eos =>
      match s with
      | [] => k s g
      | [c] => if Ascii.eqb c LF then k s g else None
      | _ => None
      end
  end.

(** [r.match(s)]: anchored at the start only. *)
Definition rmatch (r : regex) (s : pystr) : option groups :=
  exec r s [] (fun _ g => Some g).

(** [m.group(name)]; [None] is [IndexError]. *)
Fixpoint group (name : string) (g : groups) : option pystr :=
  match g with
  | (n, v) :: g' => if String.eqb n name then Some v else group name g'
  | [] => None
  end.

End Re.
Import Re.

(** ** CONFIG *)

Definition MAX_POINTS : Z := 250000.
Definition DRAW_MAX_POINTS : Z := 2500.
Definition MAX_OVERLAYS : nat := 10.

Definition TEMP_MIN_C : pyfloat := Fin (-40).
Definition TEMP_MAX_C : pyfloat := Fin 125.
Definition HUM_MIN_PCT : pyfloat := Fin 0.
Definition HUM_MAX_PCT : pyfloat := Fin 100.

Definition MAX_TEMP_STEP_C : pyfloat := Fin 5.
Definition MAX_HUM_STEP_PCT : pyfloat := Fin 20.

Definition EXPORT_MAX_DT_SEC : pyfloat := Fin 0.30.
Definition Y_PAD_FRAC : pyfloat := Fin 0.08.
Definition MIN_YSPAN : pyfloat := Fin 0.3.

Definition ws : regex := Star isspace.
Definition digits : regex := Plus isdigit.
(** [-?\d+(?:\.\d+)?] *)
Definition decimal : regex :=
  seqs [Opt (Chr "-"); digits; Opt (Seq (Chr ".") digits)].

(** [^\s*(?P<pc>\S+)\s+(?P<m>\d+):(?P<s>\d+)\.(?P<ms>\d+)\s*,\s*
     (?P<sensor>Sensor\s*[12])\s*,\s*(?P<temp>-?\d+(?:\.\d+)?)\s*,\s*
     (?P<rh>-?\d+(?:\.\d+)?)\s*$] *)
Definition LINE_RE : regex :=
  seqs [ ws; Grp "pc" (Plus (fun c => negb (isspace c))); Plus isspace;
         Grp "m" digits; Chr ":"; Grp "s" digits; Chr "."; Grp "ms" digits;
         ws; Chr ","; ws;
         Grp "sensor"
           (seqs [Lit "Sensor"; ws;
                  Cls (fun c => Ascii.eqb c "1" || Ascii.eqb c "2")]);
         ws; Chr ","; ws; Grp "temp" decimal;
         ws; Chr ","; ws; Grp "rh" decimal; ws; Eos ].

(** [to_seconds(m, s, ms)]: [int(m) * 60.0 + int(s) + int(ms) / 1000.0];
    [None] when an [int()] raises. *)
Definition to_seconds (m s ms : pystr) : option pyfloat :=
  match int m, int s, int ms with
  | Some m, Some s, Some ms =>
      Some (Fin (Qred (inject_Z m * 60 + inject_Z s + inject_Z ms / 1000)))
  | _, _, _ => None
  end.

(** ** State and exceptions *)

Module Exc.

Inductive res (A : Type) : Type :=
| Ok (a : A)
| Raise.                 (* an exception propagates *)
Arguments Ok {A} a.
Arguments Raise {A}.

Definition M (S A : Type) : Type := S -> res A * S.

Definition ret {S A} (a : A) : M S A := fun s => (Ok a, s).
Definition bind {S A B} (m : M S A) (k : A -> M S B) : M S B :=
  fun s => match m s with
           | (Ok a, s') => k a s'
           | (Raise, s') => (Raise, s')
           end.
Definition raise {S A} : M S A := fun s => (Raise, s).
Definition get {S} : M S S := fun s => (Ok s, s).
Definition modify {S} (f : S -> S) : M S unit := fun s => (Ok tt, f s).

(** [try: m  except Exception: h] *)
Definition try_except {S A} (m h : M S A) : M S A :=
  fun s => match m s with
           | (Raise, s') => h s'
           | r => r
           end.

(** a partial operation whose [None] is an exception *)
Definition or_raise {S A} (o : option A) : M S A :=
  match o with Some a => ret a | None => raise end.

(** [for x in l: body x] *)
Fixpoint for_each {S A} (l : list A) (body : A -> M S unit) : M S unit :=
  match l with
  | [] => ret tt
  | x :: l' => bind (body x) (fun _ => for_each l' body)
  end.

End Exc.
Import Exc.

Notation "x <- c ;; k" := (bind c (fun x => k))
  (at level 100, c at next level, right associativity).
Notation "c ;; k" := (bind c (fun _ => k))
  (at level 100, right associativity).

(** ** [collections.deque] with a [maxlen] *)

Module deque.

Record t (A : Type) : Type := mk { items : list A; maxlen : Z }.
Arguments mk {A} items maxlen.
Arguments items {A} _.
Arguments maxlen {A} _.

Definition new {A} (maxlen : Z) : t A := mk [] maxlen.

(** [d.append(x)]: add on the right; a deque longer than [maxlen] drops
    its leftmost item. *)
Definition append {A} (x : A) (d : t A) : t A :=
  let l := items d ++ [x] in
  mk (if maxlen d <? Z.of_nat (length l) then tail l else l) (maxlen d).

Definition clear {A} (d : t A) : t A := mk [] (maxlen d).

End deque.

(** ** [class StreamBuffers] *)

Module StreamBuffers.

Record t : Type := mk {
  t1 : deque.t pyfloat; T1 : deque.t pyfloat; H1 : deque.t pyfloat;
  t2 : deque.t pyfloat; T2 : deque.t pyfloat; H2 : deque.t pyfloat }.

(** [__init__(self, maxlen=MAX_POINTS)] *)
Definition init (maxlen : Z) : t :=
  mk (deque.new maxlen) (deque.new maxlen) (deque.new maxlen)
     (deque.new maxlen) (deque.new maxlen) (deque.new maxlen).

Definition clear (b : t) : t :=
  mk (deque.clear (t1 b)) (deque.clear (T1 b)) (deque.clear (H1 b))
     (deque.clear (t2 b)) (deque.clear (T2 b)) (deque.clear (H2 b)).

Definition push (tm : pyfloat) (sid : Z) (temp hum : pyfloat) (b : t) : t :=
  if sid =? 1 then
    mk (deque.append tm (t1 b)) (deque.append temp (T1 b))
       (deque.append hum (H1 b)) (t2 b) (T2 b) (H2 b)
  else
    mk (t1 b) (T1 b) (H1 b) (deque.append tm (t2 b))
       (deque.append temp (T2 b)) (deque.append hum (H2 b)).

End StreamBuffers.

(** ** [class OverlayItem] (the fields the tailer uses) *)

Module OverlayItem.

Record t : Type := mk {
  buffers : StreamBuffers.t;
  file_pos : Z;
  _carry : pystr;
  t_start_abs : option pyfloat }.

Definition init (maxlen : Z) : t := mk (StreamBuffers.init maxlen) 0 [] None.

End OverlayItem.

(** a parsed sample [(t_abs, sid, temp, hum)] *)
Definition Sample : Type := pyfloat * Z * pyfloat * pyfloat.

Inductive Event : Type :=
| RESET (msg : string)
| ERROR.                      (* ("ERROR", str(e)); the text is not modelled *)

(** ** [class DataMonitor] *)

Module DataMonitor.

Record t : Type := mk {
  main : StreamBuffers.t;
  file_pos : Z;
  queue : list Sample;
  event_q : list Event;
  _carry : pystr;
  _last_good_temp : gmap Z (option pyfloat);
  _last_good_hum : gmap Z (option pyfloat);
  overlays : list OverlayItem.t;
  main_t_start_abs : option pyfloat }.

Definition set_main v (s : t) : t :=
  mk v (file_pos s) (queue s) (event_q s) (_carry s) (_last_good_temp s)
     (_last_good_hum s) (overlays s) (main_t_start_abs s).
Definition set_file_pos v (s : t) : t :=
  mk (main s) v (queue s) (event_q s) (_carry s) (_last_good_temp s)
     (_last_good_hum s) (overlays s) (main_t_start_abs s).
Definition set_queue v (s : t) : t :=
  mk (main s) (file_pos s) v (event_q s) (_carry s) (_last_good_temp s)
     (_last_good_hum s) (overlays s) (main_t_start_abs s).
Definition set_event_q v (s : t) : t :=
  mk (main s) (file_pos s) (queue s) v (_carry s) (_last_good_temp s)
     (_last_good_hum s) (overlays s) (main_t_start_abs s).
Definition set_carry v (s : t) : t :=
  mk (main s) (file_pos s) (queue s) (event_q s) v (_last_good_temp s)
     (_last_good_hum s) (overlays s) (main_t_start_abs s).
Definition set_last_good_temp v (s : t) : t :=
  mk (main s) (file_pos s) (queue s) (event_q s) (_carry s) v
     (_last_good_hum s) (overlays s) (main_t_start_abs s).
Definition set_last_good_hum v (s : t) : t :=
  mk (main s) (file_pos s) (queue s) (event_q s) (_carry s)
     (_last_good_temp s) v (overlays s) (main_t_start_abs s).
Definition set_overlays v (s : t) : t :=
  mk (main s) (file_pos s) (queue s) (event_q s) (_carry s)
     (_last_good_temp s) (_last_good_hum s) v (main_t_start_abs s).
Definition set_main_t_start_abs v (s : t) : t :=
  mk (main s) (file_pos s) (queue s) (event_q s) (_carry s)
     (_last_good_temp s) (_last_good_hum s) (overlays s) v.

(** [{1: None, 2: None}] *)
Definition no_last_good : gmap Z (option pyfloat) :=
  <[1 := None]> (<[2 := None]> ∅).

(** [__init__] *)
Definition init : t :=
  mk (StreamBuffers.init MAX_POINTS) 0 [] [] [] no_last_good no_last_good
     [] None.

Definition reset_main (s : t) : t :=
  mk (StreamBuffers.clear (main s)) 0 [] (event_q s) [] no_last_good
     no_last_good (overlays s) None.

Definition _valid_ranges (temp hum : pyfloat) : bool :=
  (leb TEMP_MIN_C temp && leb temp TEMP_MAX_C)
  && (leb HUM_MIN_PCT hum && leb hum HUM_MAX_PCT).

(** a dictionary read [d[k]]; a missing key raises *)
Definition _valid_step (sid : Z) (temp hum : pyfloat) : M t bool :=
  self <- get ;;
  lt <- or_raise (_last_good_temp self !! sid) ;;
  lh <- or_raise (_last_good_hum self !! sid) ;;
  match lt, lh with
  | Some lt, Some lh =>
      if gtb (abs (sub temp lt)) MAX_TEMP_STEP_C then ret false
      else if gtb (abs (sub hum lh)) MAX_HUM_STEP_PCT then ret false
      else ret true
  | _, _ => ret true
  end.

(** [1 if sensor_txt.replace(' ', '').endswith('1') else 2] *)
Definition sensor_id (sensor_txt : pystr) : Z :=
  if endswith (remove_spaces sensor_txt) (lit "1") then 1 else 2.

(** The validation both branches of the parser end with (lines 219-225
    and 238-245): range check, step check, update of the last-good
    values, and the returned tuple ([None] is the [return None]). *)
Definition validate (t_abs : pyfloat) (sid : Z) (temp hum : pyfloat)
  : M t (option Sample) :=
  if negb (_valid_ranges temp hum) then ret None
  else
    ok <- _valid_step sid temp hum ;;
    if negb ok then ret None
    else
      modify (fun self =>
        set_last_good_temp (<[sid := Some temp]> (_last_good_temp self)) self) ;;
      modify (fun self =>
        set_last_good_hum (<[sid := Some hum]> (_last_good_hum self)) self) ;;
      ret (Some (t_abs, sid, temp, hum)).

(** [parts[i]] *)
Definition item (parts : list pystr) (i : nat) : M t pystr :=
  or_raise (parts !! i).

(** lines 213-216: the time, the sensor label, the temperature and the
    humidity of a row of 4 or 5 fields *)
Definition delimited_fields (parts : list pystr)
  : M t (pyfloat * pystr * pyfloat * pyfloat) :=
  let number (i : nat) := (x <- item parts i ;; or_raise (float x)) in
  if (length parts =? 5)%nat then
    t_abs <- number 1%nat ;; sensor_txt <- item parts 2%nat ;;
    temp <- number 3%nat ;; hum <- number 4%nat ;;
    ret (t_abs, sensor_txt, temp, hum)
  else
    t_abs <- number 0%nat ;; sensor_txt <- item parts 1%nat ;;
    temp <- number 2%nat ;; hum <- number 3%nat ;;
    ret (t_abs, sensor_txt, temp, hum).

(** The body of the [try] for a row of 4 or 5 fields.  [Some r] is
    [return r]; [None] is leaving the [if] without a [return]. *)
Definition delimited_row (parts : list pystr)
  : M t (option (option Sample)) :=
  fields <- delimited_fields parts ;;
  let '(t_abs, sensor_txt, temp, hum) := fields in
  if startswith (lower sensor_txt) (lit "sensor") then
    r <- validate t_abs (sensor_id sensor_txt) temp hum ;;
    ret (Some r)
  else ret None.

(** The part of the parser that follows [m = LINE_RE.match(s)]. *)
Definition free_text (s : pystr) : M t (option Sample) :=
  match rmatch LINE_RE s with
  | None => ret None
  | Some m =>
      gm <- or_raise (group "m" m) ;;
      gs <- or_raise (group "s" m) ;;
      gms <- or_raise (group "ms" m) ;;
      t_abs <- or_raise (to_seconds gm gs gms) ;;
      sensor <- or_raise (group "sensor" m) ;;
      gtemp <- or_raise (group "temp" m) ;;
      temp <- or_raise (float gtemp) ;;
      grh <- or_raise (group "rh" m) ;;
      hum <- or_raise (float grh) ;;
      validate t_abs (sensor_id sensor) temp hum
  end.

Definition parse_log_line_abs_seconds (s : pystr) : M t (option Sample) :=
  match s with
  | [] => ret None
  | _ =>
      if contains (lit "TS,Sensor,TempC,RH") s then ret None
      else
        let parts := map strip (split "," s) in
        r <- (if (length parts =? 4)%nat || (length parts =? 5)%nat
              then try_except (delimited_row parts) (ret None)
              else ret None) ;;
        match r with
        | Some result => ret result
        | None => free_text s
        end
  end.

(** *** The tailers *)

(** [f.seek(pos); chunk = f.read(); pos = f.tell()] on a file whose
    content is [content]; offsets count characters. *)
Definition read_from (pos : Z) (content : pystr) : pystr * Z :=
  (drop (Z.to_nat pos) content, Z.max pos (Z.of_nat (length content))).

(** lines 276-282: the complete lines of [carry + chunk] and the new
    carry *)
Definition take_lines (carry chunk : pystr) : list pystr * pystr :=
  let lines := splitlines_keepends (carry ++ chunk) in
  match last lines with
  | Some l =>
      if negb (endswith l [LF]) && negb (endswith l [CR])
      then (removelast lines, l)
      else (lines, [])
  | None => (lines, [])
  end.

(** lines 260-267 of [read_loop_main] *)
Definition truncation_main (size last_size : Z) : M t unit :=
  self <- get ;;
  let truncated := (size <? file_pos self) || (size <? last_size) in
  if truncated then
    modify (set_file_pos 0) ;;
    modify (set_carry []) ;;
    modify (set_last_good_temp no_last_good) ;;
    modify (set_last_good_hum no_last_good) ;;
    modify (set_main_t_start_abs None) ;;
    modify (fun self =>
      set_event_q (event_q self ++ [RESET "Main file truncated/cleared"]) self)
  else ret tt.

(** lines 284-287: the body of [for ln in lines] *)
Definition enqueue (ln : pystr) : M t unit :=
  parsed <- parse_log_line_abs_seconds (strip ln) ;;
  match parsed with
  | Some p => modify (fun self => set_queue (queue self ++ [p]) self)
  | None => ret tt
  end.

(** lines 275-287: [if chunk: ...] *)
Definition process_chunk (chunk : pystr) : M t unit :=
  match chunk with
  | [] => ret tt
  | _ =>
      self <- get ;;
      let '(lines, carry) := take_lines (_carry self) chunk in
      modify (set_carry carry) ;;
      for_each lines enqueue
  end.

(** lines 270-287; [content = None]: [open] raises *)
Definition read_main (content : option pystr) : M t unit :=
  content <- or_raise content ;;
  self <- get ;;
  let '(chunk, pos) := read_from (file_pos self) content in
  modify (set_file_pos pos) ;;
  process_chunk chunk.

(** One iteration of the [while] loop of [read_loop_main], with the local
    variable [last_size].  [size = None]: [os.path.getsize] raises
    [FileNotFoundError]. *)
Definition read_loop_main_iter (size : option Z) (content : option pystr)
    (last_size : Z) (self : t) : Z * t :=
  match size with
  | None => (last_size, self)
  | Some size =>
      match (truncation_main size last_size ;; read_main content) self with
      | (Ok _, self') => (size, self')
      | (Raise, self') => (size, set_event_q (event_q self' ++ [ERROR]) self')
      end
  end.

(** the overlay object the closure [_tail] holds: the [i]th overlay *)
Definition overlay (i : nat) : M t OverlayItem.t :=
  self <- get ;; or_raise (overlays self !! i).

Definition update_overlay (i : nat) (f : OverlayItem.t -> OverlayItem.t)
  : M t unit :=
  modify (fun self => set_overlays (alter f i (overlays self)) self).

(** lines 333-336 of [_tail] *)
Definition truncation_overlay (i : nat) (size last_size : Z) : M t unit :=
  ov <- overlay i ;;
  if (size <? OverlayItem.file_pos ov) || (size <? last_size) then
    update_overlay i (fun ov =>
      OverlayItem.mk (OverlayItem.buffers ov) 0 [] None)
  else ret tt.

(** lines 357-361 of [_tail] *)
Definition overlay_push (p : Sample) (ov : OverlayItem.t) : OverlayItem.t :=
  let '(t_abs, sid, temp, hum) := p in
  let start :=
    match OverlayItem.t_start_abs ov with
    | None => t_abs
    | Some a => a
    end in
  let t_rel := sub t_abs start in
  OverlayItem.mk
    (StreamBuffers.push t_rel sid temp hum (OverlayItem.buffers ov))
    (OverlayItem.file_pos ov) (OverlayItem._carry ov) (Some start).

(** lines 353-361 of [_tail]: the body of [for ln in lines] *)
Definition overlay_enqueue (i : nat) (ln : pystr) : M t unit :=
  parsed <- parse_log_line_abs_seconds (strip ln) ;;
  match parsed with
  | None => ret tt
  | Some p => update_overlay i (overlay_push p)
  end.

(** lines 344-361 of [_tail]: [if chunk: ...] *)
Definition overlay_process_chunk (i : nat) (chunk : pystr) : M t unit :=
  match chunk with
  | [] => ret tt
  | _ =>
      ov <- overlay i ;;
      let '(lines, carry) := take_lines (OverlayItem._carry ov) chunk in
      update_overlay i (fun ov =>
        OverlayItem.mk (OverlayItem.buffers ov) (OverlayItem.file_pos ov)
                       carry (OverlayItem.t_start_abs ov)) ;;
      for_each lines (overlay_enqueue i)
  end.

(** lines 339-361 of [_tail] *)
Definition read_overlay (i : nat) (content : option pystr) : M t unit :=
  content <- or_raise content ;;
  ov <- overlay i ;;
  let '(chunk, pos) := read_from (OverlayItem.file_pos ov) content in
  update_overlay i (fun ov =>
    OverlayItem.mk (OverlayItem.buffers ov) pos (OverlayItem._carry ov)
                   (OverlayItem.t_start_abs ov)) ;;
  overlay_process_chunk i chunk.

(** One iteration of the [while] loop of the closure [_tail] that
    [start_live_overlay] starts for the [i]th overlay. *)
Definition tail_iter (i : nat) (size : option Z) (content : option pystr)
    (last_size : Z) (self : t) : Z * t :=
  match size with
  | None => (last_size, self)
  | Some size =>
      (size, snd ((truncation_overlay i size last_size ;;
                   read_overlay i content) self))
  end.

(** [add_overlay]; [None] is the [RuntimeError] at the limit *)
Definition add_overlay (self : t) : option t :=
  if (MAX_OVERLAYS <=? length (overlays self))%nat then None
  else Some (set_overlays (overlays self ++ [OverlayItem.init MAX_POINTS]) self).

End DataMonitor.

(** ** Module-level functions *)

(** [bisect.bisect_left(a, x)]: the loop
    [while lo < hi: mid = (lo + hi) // 2;
       if a[mid] < x: lo = mid + 1 else: hi = mid],
    run for at most [fuel] iterations. *)
Fixpoint bisect_loop (fuel : nat) (a : list pyfloat) (x : pyfloat)
    (lo hi : nat) : nat :=
  match fuel with
  | O => lo
  | S fuel' =>
      if (lo <? hi)%nat then
        let mid := ((lo + hi) / 2)%nat in
        match a !! mid with
        | Some am =>
            if ltb am x then bisect_loop fuel' a x (mid + 1)%nat hi
            else bisect_loop fuel' a x lo mid
        | None => lo
        end
      else lo
  end.

Definition bisect_left (a : list pyfloat) (x : pyfloat) : nat :=
  bisect_loop (length a) a x 0%nat (length a).

(** The body of [for j in candidates] in [nearest_by_time], on the pair
    [(best, best_dt)]; an index out of range raises. *)
Definition nearest_step {V} (t_list : list pyfloat) (v_list : list V)
    (t : pyfloat) (acc : res (option V * option pyfloat)) (j : nat)
  : res (option V * option pyfloat) :=
  match acc with
  | Raise => Raise
  | Ok (best, best_dt) =>
      match t_list !! j with
      | None => Raise
      | Some tj =>
          let dt := abs (sub tj t) in
          let better :=
            match best_dt with
            | None => true
            | Some bd => ltb dt bd
            end in
          if better then
            match v_list !! j with
            | Some v => Ok (Some v, Some dt)
            | None => Raise
            end
          else Ok (best, best_dt)
      end
  end.

Definition nearest_by_time {V} (t_list : list pyfloat) (v_list : list V)
    (t max_dt : pyfloat) : res (option V) :=
  match t_list with
  | [] => Ok None
  | _ =>
      let i := bisect_left t_list t in
      let candidates :=
        (if (i <? length t_list)%nat then [i] else [])
        ++ (if (0 <? i)%nat then [(i - 1)%nat] else []) in
      match fold_left (nearest_step t_list v_list t) candidates
                      (Ok (None, None)) with
      | Raise => Raise
      | Ok (best, Some best_dt) =>
          Ok (if leb best_dt max_dt then best else None)
      | Ok (_, None) => Ok None
      end
  end.

(** the slice [l[::stride]] for [stride >= 1]; [k] items are skipped
    before the next one is kept *)
Fixpoint slice_from {A} (stride k : nat) (l : list A) : list A :=
  match l with
  | [] => []
  | x :: l' =>
      match k with
      | O => x :: slice_from stride (stride - 1) l'
      | S k' => slice_from stride k' l'
      end
  end.

Definition slice_step {A} (stride : nat) (l : list A) : list A :=
  slice_from stride 0 l.

(** [downsample_xy(xs, ys, max_points)]; [Raise] is the
    [ZeroDivisionError] of [n // 0]. *)
Definition downsample_xy {A B} (xs : list A) (ys : list B) (max_points : Z)
  : res (list A * list B) :=
  let n := Z.of_nat (length xs) in
  if n <=? max_points then Ok (xs, ys)
  else if max_points =? 0 then Raise
  else
    let stride := Z.to_nat (Z.max 1 (n / max_points)) in
    Ok (slice_step stride xs, slice_step stride ys).

(** the decimal digits of [n >= 0], most significant first *)
Fixpoint decimal_digits (fuel : nat) (n : Z) : pystr :=
  let d := ascii_of_N (Z.to_N (48 + n mod 10)) in
  match fuel with
  | O => [d]
  | S fuel' => if n <? 10 then [d] else decimal_digits fuel' (n / 10) ++ [d]
  end.

(** [f"{n:0{width}d}"] *)
Definition format_0d (width : nat) (n : Z) : pystr :=
  let ds := decimal_digits (Z.to_nat (Z.log2 (Z.abs n))) (Z.abs n) in
  if n <? 0 then
    "-"%char :: replicate (width - 1 - length ds) "0"%char ++ ds
  else replicate (width - length ds) "0"%char ++ ds.

(** [sec_to_mmss_mmm(tsec)]; [Raise]: [round] raises on [inf] *)
Definition sec_to_mmss_mmm (tsec : pyfloat) : res pystr :=
  let tsec := max2 (Fin 0) tsec in
  match round (mul tsec (Fin 1000)) with
  | None => Raise
  | Some total_ms =>
      let ms := total_ms mod 1000 in
      let total_s := total_ms / 1000 in
      let s := total_s mod 60 in
      let m := total_s / 60 in
      Ok (format_0d 2 m ++ lit ":" ++ format_0d 2 s ++ lit "."
          ++ format_0d 3 ms)
  end.

(** ** [class LivePlotterApp] *)

Module LivePlotterApp.

Definition _fast_ylim (xs ys : list pyfloat) (x0 x1 : pyfloat)
  : option (pyfloat * pyfloat) :=
  match xs with
  | [] => None
  | _ =>
      let ys_win :=
        map snd (List.filter (fun '(x, y) => leb x0 x && leb x x1)
                             (combine xs ys)) in
      match min_list ys_win, max_list ys_win with
      | Some ymin, Some ymax =>
          let span := max2 MIN_YSPAN (sub ymax ymin) in
          let pad := mul span Y_PAD_FRAC in
          Some (sub ymin pad, add ymax pad)
      | _, _ => None
      end
  end.

(** The loop of [update_plot] that drains the queue (lines 947-958): each
    sample is rebased on the time of the first one and pushed to the main
    buffer. *)
Definition drain_queue (monitor : DataMonitor.t) : DataMonitor.t :=
  fold_left
    (fun m '(t_abs, sid, temp, hum) =>
       let start :=
         match DataMonitor.main_t_start_abs m with
         | None => t_abs
         | Some a => a
         end in
       DataMonitor.set_main
         (StreamBuffers.push (sub t_abs start) sid temp hum (DataMonitor.main m))
         (DataMonitor.set_main_t_start_abs (Some start) m))
    (DataMonitor.queue monitor) (DataMonitor.set_queue [] monitor).

End LivePlotterApp.

(** * The axis labels, the view, the events and the static import *)

(** ** Floats to integers *)

(** [int(a)] of a float: toward zero; [None]: [inf] and [nan] raise *)
Definition int_of_float (a : pyfloat) : option Z :=
  match a with
  | Fin q => Some (if Qle_bool 0 q then Qfloor q else Qceiling q)
  | _ => None
  end.

(** [a // d] and [a % d] for a finite divisor [d > 0]; both are [nan] for
    an infinite [a] *)
Definition floordiv (a : pyfloat) (d : Q) : pyfloat :=
  match a with
  | Fin q => Fin (inject_Z (Qfloor (q / d)))
  | _ => NaN
  end.

Definition fmod (a : pyfloat) (d : Q) : pyfloat :=
  match a with
  | Fin q => Fin (Qred (q - inject_Z (Qfloor (q / d)) * d))
  | _ => NaN
  end.

(** ** Module-level functions, continued *)

Definition VIEW_WINDOW_SEC : pyfloat := Fin 180.
Definition STATIC_DT_SEC : pyfloat := Fin 0.25.

(** [fmt_mmss(x, pos)] (lines 55-59), the tick label of the time axis;
    [Raise]: [int] raises on the [nan] that [inf // 60] is *)
Definition fmt_mmss (x : pyfloat) : res pystr :=
  let x := max2 (Fin 0) x in
  match int_of_float (floordiv x 60) with
  | None => Raise
  | Some m =>
      match int_of_float (fmod x 60) with
      | None => Raise
      | Some s => Ok (format_0d 2 m ++ lit ":" ++ format_0d 2 s)
      end
  end.

(** [safe_float(x)] (lines 76-85); the argument is [None] or a cell of a
    row, and every exception of [float] becomes [None] *)
Definition safe_float (x : option pystr) : option pyfloat :=
  match x with
  | None => None
  | Some x =>
      let s := strip x in
      if Str.eqb s [] || Str.eqb (lower s) (lit "nan")
         || Str.eqb (lower s) (lit "none")
      then None
      else float s
  end.

(** ** [class LivePlotterApp], continued *)

(** [^\s*(\d+):(\d+)\.(\d+)\s*$], the pattern of [parse_ts_mmss_mmm] *)
Definition TS_RE : regex :=
  seqs [ ws; Grp "1" digits; Chr ":"; Grp "2" digits; Chr ".";
         Grp "3" digits; ws; Eos ].

(** [parse_ts_mmss_mmm(s)] (lines 582-590), the reader of the timestamps
    of an exported file; it computes [mm * 60.0 + ss + ms / 1000.0], which
    is [to_seconds] *)
Definition parse_ts_mmss_mmm (s : option pystr) : res (option pyfloat) :=
  match s with
  | None => Ok None
  | Some s =>
      let s := strip s in
      match rmatch TS_RE s with
      | None => Ok None
      | Some m =>
          match group "1" m, group "2" m, group "3" m with
          | Some mm, Some ss, Some ms =>
              match to_seconds mm ss ms with
              | Some t => Ok (Some t)
              | None => Raise
              end
          | _, _, _ => Raise
          end
      end
  end.

(** the columns [_load_static_csv_worker] looks for *)
Inductive column : Type :=
| ts_col | inlet_T_col | inlet_H_col | outlet_T_col | outlet_H_col.

#[global] Instance column_eq_dec : EqDecision column.
Proof. solve_decision. Defined.

(** a row of [csv.DictReader], seen through [row.get] *)
Definition row : Type := column -> option pystr.

(** the six lists the worker fills *)
Record loaded : Type := mk_loaded {
  l_t1 : list pyfloat; l_T1 : list pyfloat; l_H1 : list pyfloat;
  l_t2 : list pyfloat; l_T2 : list pyfloat; l_H2 : list pyfloat }.

(** lines 606-620: the body of [for row in r], on the lists and [idx] *)
Definition load_row (has_ts : bool) (acc : res (loaded * Z)) (rw : row)
  : res (loaded * Z) :=
  match acc with
  | Raise => Raise
  | Ok (l, idx) =>
      let by_index := mul (Fin (inject_Z idx)) STATIC_DT_SEC in
      let time :=
        if has_ts then
          match parse_ts_mmss_mmm (rw ts_col) with
          | Ok (Some t) => Ok t
          | Ok None => Ok by_index
          | Raise => Raise
          end
        else Ok by_index in
      match time with
      | Raise => Raise
      | Ok t =>
          let Tin := safe_float (rw inlet_T_col) in
          let Hin := safe_float (rw inlet_H_col) in
          let Tout := safe_float (rw outlet_T_col) in
          let Hout := safe_float (rw outlet_H_col) in
          let l :=
            match Tin, Hin with
            | Some Tin, Some Hin =>
                mk_loaded (l_t1 l ++ [t]) (l_T1 l ++ [Tin]) (l_H1 l ++ [Hin])
                          (l_t2 l) (l_T2 l) (l_H2 l)
            | _, _ => l
            end in
          let l :=
            match Tout, Hout with
            | Some Tout, Some Hout =>
                mk_loaded (l_t1 l) (l_T1 l) (l_H1 l)
                          (l_t2 l ++ [t]) (l_T2 l ++ [Tout]) (l_H2 l ++ [Hout])
            | _, _ => l
            end in
          Ok (l, idx + 1)
      end
  end.

(** [_load_static_csv_worker] (lines 592-623) on the header and the rows
    of the file: the lists it puts on [overlay_load_q]; [Raise]: no header
    row, or one of the four value columns is missing *)
Definition _load_static_csv_worker (fieldnames : list column) (rows : list row)
  : res loaded :=
  match fieldnames with
  | [] => Raise
  | _ =>
      let present c := bool_decide (c ∈ fieldnames) in
      if negb (present inlet_T_col && present inlet_H_col
               && present outlet_T_col && present outlet_H_col)
      then Raise
      else
        match fold_left (load_row (present ts_col)) rows
                        (Ok (mk_loaded [] [] [] [] [] [], 0)) with
        | Ok (l, _) => Ok l
        | Raise => Raise
        end
  end.

(** the three-way [zip] of [_handle_overlay_loads] *)
Definition zip3 {A B C} (a : list A) (b : list B) (c : list C)
  : list (A * B * C) := combine (combine a b) c.

(** [_handle_overlay_loads] (lines 928-933) for one [STATIC_LOADED]
    message: the buffers of the overlay are cleared and refilled *)
Definition static_loaded (l : loaded) (ov : OverlayItem.t) : OverlayItem.t :=
  let b := StreamBuffers.clear (OverlayItem.buffers ov) in
  let b := fold_left (fun b '(t, te, hu) => StreamBuffers.push t 1 te hu b)
                     (zip3 (l_t1 l) (l_T1 l) (l_H1 l)) b in
  let b := fold_left (fun b '(t, te, hu) => StreamBuffers.push t 2 te hu b)
                     (zip3 (l_t2 l) (l_T2 l) (l_H2 l)) b in
  OverlayItem.mk b (OverlayItem.file_pos ov) (OverlayItem._carry ov)
                 (OverlayItem.t_start_abs ov).

(** [_handle_events] (lines 910-919) on the monitor: every event is taken
    off [event_q]; [RESET] calls [reset_main], [ERROR] sets the status
    line only *)
Definition _handle_events (monitor : DataMonitor.t) : DataMonitor.t :=
  fold_left
    (fun m ev =>
       match ev with
       | RESET _ => DataMonitor.reset_main m
       | ERROR => m
       end)
    (DataMonitor.event_q monitor) (DataMonitor.set_event_q [] monitor).

(** [if d: tmax = max(tmax, d[-1])] *)
Definition latest_of (tmax : pyfloat) (d : deque.t pyfloat) : pyfloat :=
  match last (deque.items d) with
  | Some x => max2 tmax x
  | None => tmax
  end.

(** [_get_latest_time] (lines 851-862) *)
Definition _get_latest_time (monitor : DataMonitor.t) : pyfloat :=
  let tmax := Fin 0 in
  let tmax := latest_of tmax (StreamBuffers.t1 (DataMonitor.main monitor)) in
  let tmax := latest_of tmax (StreamBuffers.t2 (DataMonitor.main monitor)) in
  fold_left
    (fun tmax ov =>
       let tmax := latest_of tmax (StreamBuffers.t1 (OverlayItem.buffers ov)) in
       latest_of tmax (StreamBuffers.t2 (OverlayItem.buffers ov)))
    (DataMonitor.overlays monitor) tmax.

(** lines 865-870 of [_apply_limits]: the limits [(x0, x1)] of the time
    axis *)
Definition x_limits (full_view : bool) (t_now : pyfloat) : pyfloat * pyfloat :=
  if full_view then (Fin 0, max2 (Fin 1) t_now)
  else
    let x1 := max2 (Fin 0) t_now in
    (max2 (Fin 0) (sub x1 VIEW_WINDOW_SEC), x1).

(** * Vocabulary of the statements *)

Section BufferVocabulary.

Import StreamBuffers.

(** what is done to a stream buffer: [push(t, sid, temp, hum)] or
    [clear()] *)
Inductive buffer_op : Type :=
| Push (tm : pyfloat) (sid : Z) (temp hum : pyfloat)
| Clear.

Definition apply_op (b : StreamBuffers.t) (op : buffer_op) : StreamBuffers.t :=
  match op with
  | Push tm sid temp hum => push tm sid temp hum b
  | Clear => clear b
  end.

(** a sequence of operations, oldest first *)
Definition pushes (ops : list buffer_op) (b : StreamBuffers.t) : StreamBuffers.t :=
  fold_left apply_op ops b.

Definition within {A} (cap : Z) (d : deque.t A) : Prop :=
  deque.maxlen d = cap /\ Z.of_nat (length (deque.items d)) <= cap.

Definition all_within (cap : Z) (b : StreamBuffers.t) : Prop :=
  within cap (t1 b) /\ within cap (T1 b) /\ within cap (H1 b) /\
  within cap (t2 b) /\ within cap (T2 b) /\ within cap (H2 b).

(** the three sequences of a channel have one length *)
Definition parallel (b : StreamBuffers.t) : Prop :=
  length (deque.items (t1 b)) = length (deque.items (T1 b)) /\
  length (deque.items (t1 b)) = length (deque.items (H1 b)) /\
  length (deque.items (t2 b)) = length (deque.items (T2 b)) /\
  length (deque.items (t2 b)) = length (deque.items (H2 b)).

End BufferVocabulary.

(** the character of the decimal digit [d] *)
Definition digit_char (d : Z) : ascii := ascii_of_N (Z.to_N (48 + d)).

(** The export timestamp as the specification words it: [MM:SS.mmm] of
    the seconds value truncated to whole milliseconds. *)
Definition mmss_mmm_truncating (t : Q) : pystr :=
  let total_ms := Qfloor (t * 1000) in
  format_0d 2 (total_ms / 1000 / 60) ++ lit ":"
  ++ format_0d 2 (total_ms / 1000 mod 60) ++ lit "."
  ++ format_0d 3 (total_ms mod 1000).

(** The stride the specification gives the downsampler:
    [ceil(length / budget)]. *)
Definition ceil_stride (n budget : Z) : Z := (n + budget - 1) / budget.

Definition finite (a : pyfloat) : Prop := exists q, a = Fin q.

(** [y] is a value of the series [(xs, ys)] whose time lies in the
    window [[x0, x1]] *)
Definition in_window (xs ys : list pyfloat) (x0 x1 y : pyfloat) : Prop :=
  exists x, In (x, y) (combine xs ys) /\ leb x0 x = true /\ leb x x1 = true.

(** a time sequence in non-decreasing order *)
Definition sorted_times (ts : list Q) : Prop :=
  forall i j a b, ts !! i = Some a -> ts !! j = Some b -> (i <= j)%nat -> (a <= b)%Q.

(** [tj], recorded at index [j], is a time of [ts] closest to [t] *)
Definition closest (ts : list Q) (t : Q) (j : nat) (tj : Q) : Prop :=
  ts !! j = Some tj /\
  forall k tk, ts !! k = Some tk -> (Qabs (tj - t) <= Qabs (tk - t))%Q.

Section ParserVocabulary.

Import DataMonitor.

(** the state after the sample [(_, sid, temp, hum)] is accepted: the
    last-good values of channel [sid] are the new ones *)
Definition accepted (sid : Z) (temp hum : pyfloat) (self : DataMonitor.t)
  : DataMonitor.t :=
  set_last_good_hum (<[sid := Some hum]> (_last_good_hum self))
    (set_last_good_temp (<[sid := Some temp]> (_last_good_temp self)) self).

(** the decision of [_valid_step] on the last-good values [lt], [lh] *)
Definition step_ok (lt lh : option pyfloat) (temp hum : pyfloat) : bool :=
  match lt, lh with
  | Some lt, Some lh =>
      negb (gtb (abs (sub temp lt)) MAX_TEMP_STEP_C)
      && negb (gtb (abs (sub hum lh)) MAX_HUM_STEP_PCT)
  | _, _ => true
  end.

(** a temperature and a humidity within the sensor's ranges *)
Definition in_ranges (temp hum : pyfloat) : Prop :=
  exists qt qh : Q,
    temp = Fin qt /\ hum = Fin qh /\
    (-40 <= qt <= 125)%Q /\ (0 <= qh <= 100)%Q.

(** The last-good dictionaries hold, for each of the channels 1 and 2,
    either nothing for both quantities or an in-range pair. *)
Definition caches_ok (self : DataMonitor.t) : Prop :=
  forall sid, sid = 1 \/ sid = 2 ->
    (_last_good_temp self !! sid = Some None /\
     _last_good_hum self !! sid = Some None)
    \/ exists lt lh,
         _last_good_temp self !! sid = Some (Some lt) /\
         _last_good_hum self !! sid = Some (Some lh) /\ in_ranges lt lh.

(** The states of a monitor: from [__init__], by the parser called on any
    line, by iterations of the main tailer and of the overlay tailers on
    any file, by [reset_main] and [add_overlay], and by any step that does
    not assign the last-good dictionaries. *)
Inductive reachable : DataMonitor.t -> Prop :=
| reach_init : reachable init
| reach_reset self : reachable self -> reachable (reset_main self)
| reach_add_overlay self self' :
    reachable self -> add_overlay self = Some self' -> reachable self'
| reach_parse self s :
    reachable self -> reachable (snd (parse_log_line_abs_seconds s self))
| reach_main_iter self size content last_size :
    reachable self ->
    reachable (snd (read_loop_main_iter size content last_size self))
| reach_tail_iter self i size content last_size :
    reachable self ->
    reachable (snd (tail_iter i size content last_size self))
| reach_other self self' :
    (* any other step: the consumer draining the queue, an overlay
       removed, ...; none touches the last-good dictionaries *)
    reachable self ->
    _last_good_temp self' = _last_good_temp self ->
    _last_good_hum self' = _last_good_hum self ->
    reachable self'.

(** a computation that leaves the state alone *)
Definition stateless {S A} (m : M S A) : Prop :=
  exists r, forall s, m s = (r, s).

(** a computation that keeps the property [P] of the state *)
Definition preserves {S A} (P : S -> Prop) (m : M S A) : Prop :=
  forall s, P s -> P (snd (m s)).

(** the state of the main tailer after a truncation was detected *)
Definition main_cleared (self : DataMonitor.t) : DataMonitor.t :=
  mk (main self) 0 (queue self)
     (event_q self ++ [RESET "Main file truncated/cleared"]) []
     no_last_good no_last_good (overlays self) None.

(** an overlay after its tailer detected a truncation *)
Definition overlay_cleared (ov : OverlayItem.t) : OverlayItem.t :=
  OverlayItem.mk (OverlayItem.buffers ov) 0 [] None.

(** What a line is to the parser, whatever the state: a record with its
    four fields, which remains to be validated; not a record; or a line
    on which the parser raises. *)
Inductive line : Type :=
| Fields (t_abs : pyfloat) (sid : Z) (temp hum : pyfloat)
| NoSample
| Raises.

Definition run_line (k : line) : M DataMonitor.t (option Sample) :=
  match k with
  | Fields t_abs sid temp hum => validate t_abs sid temp hum
  | NoSample => ret None
  | Raises => raise
  end.

(** the channel of a record is 1 or 2 *)
Definition line_ok (k : line) : Prop :=
  match k with
  | Fields _ sid _ _ => sid = 1 \/ sid = 2
  | _ => True
  end.

(** What C1 asks of the answer [(r, self')] the parser gives in the
    state [self]: an accepted sample is on channel 1 or 2 and within the
    ranges; if the channel has a last-good temperature, it has a last-good
    humidity too and the sample is within the steps of both; the state
    changes by the last-good values of that channel and nothing else.  A
    line that is not accepted leaves the state as it was. *)
Definition validated_answer (self : DataMonitor.t)
    (answer : res (option Sample) * DataMonitor.t) : Prop :=
  match answer with
  | (Ok (Some (t_abs, sid, temp, hum)), self') =>
      (sid = 1 \/ sid = 2) /\
      (exists qt qh : Q,
         temp = Fin qt /\ hum = Fin qh /\
         (-40 <= qt <= 125)%Q /\ (0 <= qh <= 100)%Q /\
         forall lt, _last_good_temp self !! sid = Some (Some lt) ->
           exists qlt qlh : Q,
             lt = Fin qlt /\
             _last_good_hum self !! sid = Some (Some (Fin qlh)) /\
             (Qabs (qt - qlt) <= 5)%Q /\ (Qabs (qh - qlh) <= 20)%Q) /\
      self' = accepted sid temp hum self
  | (_, self') => self' = self
  end.

(** the monitor after [add_overlay] *)
Definition one_overlay : DataMonitor.t :=
  match add_overlay init with
  | Some self => self
  | None => init
  end.

(** the monitor with one overlay whose tailer has read the file
    ["0,Sensor1,25.0,40.0\n"] (20 characters) *)
Definition one_overlay_at_20 : DataMonitor.t :=
  snd (tail_iter 0 (Some 20) (Some (lit "0,Sensor1,25.0,40.0" ++ [LF])) 0
                 one_overlay).

(** a text without a line boundary *)
Definition no_linebreak (s : pystr) : Prop :=
  Forall (fun c => islinebreak c = false) s.

(** the parser called on each line of a sequence, in order: the lines of
    all the sources of a monitor, in the order the tailers reach them *)
Fixpoint parse_all (ls : list pystr) (self : DataMonitor.t)
  : list (res (option Sample)) * DataMonitor.t :=
  match ls with
  | [] => ([], self)
  | s :: ls' =>
      let '(r, self') := parse_log_line_abs_seconds s self in
      let '(rs, self'') := parse_all ls' self' in
      (r :: rs, self'')
  end.

(** an answer of the parser that is a sample of channel [c] *)
Definition on_channel (c : Z) (r : res (option Sample)) : bool :=
  match r with
  | Ok (Some (_, sid, _, _)) => sid =? c
  | _ => false
  end.

(** a line that is a record of channel [c]: accepted on [c] by a monitor
    that has accepted nothing yet *)
Definition record_of (c : Z) (s : pystr) : bool :=
  on_channel c (fst (parse_log_line_abs_seconds s init)).

(** two states with the same last-good values of channel [c] *)
Definition agree_on (c : Z) (self1 self2 : DataMonitor.t) : Prop :=
  _last_good_temp self1 !! c = _last_good_temp self2 !! c /\
  _last_good_hum self1 !! c = _last_good_hum self2 !! c.

End ParserVocabulary.

(** ** What a match is

    The relation the matcher implements: [matches r s g s' g'] when [r]
    matches a prefix of [s], leaves [s'], and extends the groups [g] to
    [g']. *)
Inductive matches : regex -> pystr -> groups -> pystr -> groups -> Prop :=
| matches_eps s g : matches Eps s g s g
| matches_cls (p : ascii -> bool) c s g :
    p c = true -> matches (Cls p) (c :: s) g s g
| matches_seq a b s g s1 g1 s2 g2 :
    matches a s g s1 g1 -> matches b s1 g1 s2 g2 ->
    matches (Seq a b) s g s2 g2
| matches_star_stop (p : ascii -> bool) s g : matches (Star p) s g s g
| matches_star_more (p : ascii -> bool) c s g s' :
    p c = true -> matches (Star p) s g s' g ->
    matches (Star p) (c :: s) g s' g
| matches_opt_some a s g s' g' :
    matches a s g s' g' -> matches (Opt a) s g s' g'
| matches_opt_none a s g : matches (Opt a) s g s g
| matches_grp name a s g s' g' :
    matches a s g s' g' ->
    matches (Grp name a) s g s'
            ((name, take (length s - length s')%nat s) :: g')
| matches_eos_end g : matches Eos [] g [] g
| matches_eos_newline g : matches Eos [LF] g [LF] g.

(** a string of decimal digits, not empty *)
Definition digit_string (w : pystr) : Prop :=
  w <> [] /\ Forall (fun c => isdigit c = true) w.

(** a text of the form [-?\d+(?:\.\d+)?] *)
Definition decimal_string (w : pystr) : Prop :=
  exists sign ip frac,
    w = sign ++ ip ++ frac /\
    (sign = [] \/ sign = lit "-") /\ digit_string ip /\
    (frac = [] \/ exists fp, frac = "."%char :: fp /\ digit_string fp).

(** a pattern without groups *)
Fixpoint groupless (r : regex) : bool :=
  match r with
  | Seq a b => groupless a && groupless b
  | Opt a => groupless a
  | Grp _ _ => false
  | _ => true
  end.

(** a run of white space *)
Definition spaces (w : pystr) : Prop := Forall (fun c => isspace c = true) w.

(** the words of [Sensor\s*[12]] *)
Definition sensor_label (w : pystr) : Prop :=
  exists sp c, w = lit "Sensor" ++ sp ++ [c] /\ spaces sp
               /\ (c = "1"%char \/ c = "2"%char).

(** A line of the free-text layout, cut at its last three commas: the
    clock and the time, the label, the temperature, the humidity. *)
Definition free_text_shape (s pc wm wsec wms sensor temp rh : pystr) : Prop :=
  exists w0 w2 w8 w10 w12 w14 w16 w18 w20 e,
    s = (w0 ++ pc ++ w2 ++ wm ++ ":"%char :: wsec ++ "."%char :: wms ++ w8)
        ++ ","%char :: (w10 ++ sensor ++ w12)
        ++ ","%char :: (w14 ++ temp ++ w16)
        ++ ","%char :: (w18 ++ rh ++ w20 ++ e)
    /\ spaces w8 /\ spaces w10 /\ spaces w12 /\ spaces w14 /\ spaces w16
    /\ spaces w18 /\ spaces w20 /\ (e = [] \/ e = [LF]).

(** a word with no white space at either end *)
Definition trimmed (x : pystr) : Prop :=
  exists c d x' x'', x = c :: x' /\ rev x = d :: x''
                     /\ isspace c = false /\ isspace d = false.

Section ParserVocabularyMore.

Import DataMonitor.

(** What the line of a record holds: at least four comma-separated
    fields, the last three being the label, which starts with [sensor]
    in any case and gives the channel, the temperature and the
    humidity, each with white space around it. *)
Definition record_fields (s : pystr) (k : line) : Prop :=
  match k with
  | Fields t_abs sid temp hum =>
      exists fields label a b,
        split "," s = fields ++ [label; a; b] /\ fields <> []
        /\ startswith (lower (strip label)) (lit "sensor") = true
        /\ sid = sensor_id (strip label)
        /\ float (strip a) = Some temp /\ float (strip b) = Some hum
  | _ => True
  end.

End ParserVocabularyMore.

(** ** Buffers, queue and view *)

(** the last [cap] items of a sequence *)
Definition latest {A} (cap : Z) (l : list A) : list A :=
  drop (length l - Z.to_nat cap) l.

(** [push] called on each sample of a sequence, in order *)
Definition push_all (samples : list Sample) (b : StreamBuffers.t)
  : StreamBuffers.t :=
  fold_left (fun b '(t, sid, temp, hum) => StreamBuffers.push t sid temp hum b)
            samples b.

(** the samples that [push] puts on channel 1, and on channel 2 *)
Definition inlet (samples : list Sample) : list Sample :=
  List.filter (fun '(_, sid, _, _) => sid =? 1) samples.
Definition outlet (samples : list Sample) : list Sample :=
  List.filter (fun '(_, sid, _, _) => negb (sid =? 1)) samples.

Definition time_of (p : Sample) : pyfloat := let '(t, _, _, _) := p in t.
Definition temp_of (p : Sample) : pyfloat := let '(_, _, temp, _) := p in temp.
Definition hum_of (p : Sample) : pyfloat := let '(_, _, _, hum) := p in hum.

(** a sample with its time taken from [start] *)
Definition rebase (start : pyfloat) (p : Sample) : Sample :=
  let '(t, sid, temp, hum) := p in (sub t start, sid, temp, hum).

(** the time base after the queue is drained: the one the monitor has,
    or else the time of the first sample of the queue *)
Definition time_base (monitor : DataMonitor.t) : option pyfloat :=
  match DataMonitor.main_t_start_abs monitor with
  | Some a => Some a
  | None => option_map time_of (head (DataMonitor.queue monitor))
  end.

(** the three lists of each channel have one length *)
Definition aligned (l : loaded) : Prop :=
  length (l_T1 l) = length (l_t1 l) /\ length (l_H1 l) = length (l_t1 l) /\
  length (l_T2 l) = length (l_t2 l) /\ length (l_H2 l) = length (l_t2 l).

(** a state with the last-good invariant that differs from [ref] at most
    by what the parser and the reading of a chunk assign: the last-good
    values, the queue, the position and the carry *)
Definition read_of (ref self : DataMonitor.t) : Prop :=
  caches_ok self /\ DataMonitor.main self = DataMonitor.main ref
  /\ DataMonitor.overlays self = DataMonitor.overlays ref
  /\ DataMonitor.event_q self = DataMonitor.event_q ref.

(** the time sequences [_get_latest_time] looks at, in its order *)
Definition time_sequences (monitor : DataMonitor.t) : list (deque.t pyfloat) :=
  [StreamBuffers.t1 (DataMonitor.main monitor);
   StreamBuffers.t2 (DataMonitor.main monitor)]
  ++ flat_map (fun ov => [StreamBuffers.t1 (OverlayItem.buffers ov);
                          StreamBuffers.t2 (OverlayItem.buffers ov)])
              (DataMonitor.overlays monitor).

(** ** Reads and lines *)

(** [lines] of a text, continued by the text [y]: the line break [CR LF]
    may be cut in two; a last line that [take_lines] carries is read
    again with [y] *)
Definition continued (lines : list pystr) (y : pystr) : list pystr :=
  match last lines with
  | None => splitlines_keepends y
  | Some l =>
      if endswith l [CR] && startswith y [LF]
      then removelast lines ++ (l ++ [LF]) :: splitlines_keepends (tail y)
      else if endswith l [LF] || endswith l [CR]
      then lines ++ splitlines_keepends y
      else removelast lines ++ splitlines_keepends (l ++ y)
  end.

(** the complete lines and the carry that [take_lines] makes of the lines
    of a text *)
Definition carry_split (lines : list pystr) : list pystr * pystr :=
  match last lines with
  | Some l =>
      if negb (endswith l [LF]) && negb (endswith l [CR])
      then (removelast lines, l)
      else (lines, [])
  | None => (lines, [])
  end.

(** two sequences of lines on which the loop [for ln in lines] does the
    same *)
Definition same_feed (la lb : list pystr) : Prop :=
  forall self, for_each la DataMonitor.enqueue self
               = for_each lb DataMonitor.enqueue self.

Section FeedVocabulary.

Import DataMonitor.

(** what the loop [for ln in lines] of the main tailer does to a state
    when the parser takes the line as [k] *)
Definition line_effect (k : line) (self : DataMonitor.t) : DataMonitor.t :=
  match k with
  | Fields t_abs sid temp hum =>
      match _last_good_temp self !! sid, _last_good_hum self !! sid with
      | Some lt, Some lh =>
          if _valid_ranges temp hum && step_ok lt lh temp hum
          then set_queue (queue self ++ [(t_abs, sid, temp, hum)])
                         (accepted sid temp hum self)
          else self
      | _, _ => self
      end
  | _ => self
  end.

(** the state after the loop [for ln in lines] *)
Definition feed (lines : list pystr) (self : DataMonitor.t) : DataMonitor.t :=
  snd (for_each lines enqueue self).

(** the position and the carry assigned *)
Definition at_pos (pos : Z) (carry : pystr) (self : DataMonitor.t)
  : DataMonitor.t := set_carry carry (set_file_pos pos self).

End FeedVocabulary.

(** ** The step filter *)

Section StepVocabulary.

Import DataMonitor.

(** a line that a monitor which has accepted nothing yet takes as a
    sample of channel [sid] with the values [temp] and [hum] *)
Definition reads_as (s : pystr) (sid : Z) (temp hum : pyfloat) : Prop :=
  exists t_abs,
    fst (parse_log_line_abs_seconds s init) = Ok (Some (t_abs, sid, temp, hum)).

(** a line whose sample is more than a step away from the last-good
    values [qlt], [qlh] of its channel *)
Definition beyond_step (sid : Z) (qlt qlh : Q) (s : pystr) : Prop :=
  exists qt qh : Q,
    reads_as s sid (Fin qt) (Fin qh)
    /\ (5 < Qabs (qt - qlt) \/ 20 < Qabs (qh - qlh))%Q.

End StepVocabulary.

(** ** The lines of the log *)

(** a text that does not go on with a character of the class [p] *)
Definition stops (p : ascii -> bool) (rest : pystr) : Prop :=
  rest = [] \/ exists c r, rest = c :: r /\ p c = false.

(** The layout of a line of the log: a stamp of the logging computer
    without white space, the time of the sample as minutes, seconds and
    a third number, the label [Sensor 1] or [Sensor 2], the temperature
    and the humidity, with commas between the last four and white space
    where the pattern allows it. *)
Definition log_line (s pc wm wsec wms : pystr) (n : ascii) (temp rh : pystr)
  : Prop :=
  exists w0 w2 w8 w10 sp w12 w14 w16 w18 w20,
    s = w0 ++ pc ++ w2 ++ wm ++ ":"%char :: wsec ++ "."%char :: wms ++ w8
        ++ ","%char :: w10 ++ lit "Sensor" ++ sp ++ n :: w12
        ++ ","%char :: w14 ++ temp ++ w16
        ++ ","%char :: w18 ++ rh ++ w20
    /\ spaces w0 /\ pc <> [] /\ Forall (fun c => isspace c = false) pc
    /\ w2 <> [] /\ spaces w2
    /\ digit_string wm /\ digit_string wsec /\ digit_string wms
    /\ spaces w8 /\ spaces w10 /\ spaces sp /\ (n = "1"%char \/ n = "2"%char)
    /\ spaces w12 /\ spaces w14 /\ decimal_string temp /\ spaces w16
    /\ spaces w18 /\ decimal_string rh /\ spaces w20.

(** ** The live overlays *)

Section OverlayVocabulary.

Import DataMonitor.

(** the samples among the answers of the parser *)
Definition samples_of (rs : list (res (option Sample))) : list Sample :=
  omap (fun r => match r with Ok (Some p) => Some p | _ => None end) rs.

(** an overlay with the samples pushed to its buffers, their times counted
    from its time base: the one it has, or else the time of the first of
    the samples *)
Definition overlay_with (samples : list Sample) (ov : OverlayItem.t)
  : OverlayItem.t :=
  match samples with
  | [] => ov
  | p :: _ =>
      let start :=
        match OverlayItem.t_start_abs ov with
        | Some a => a
        | None => time_of p
        end in
      OverlayItem.mk
        (push_all (map (rebase start) samples) (OverlayItem.buffers ov))
        (OverlayItem.file_pos ov) (OverlayItem._carry ov) (Some start)
  end.

(** the overlay after a read: the lines of [carry + chunk] parsed in the
    state [self] and their samples pushed, the position and the new carry
    assigned *)
Definition overlay_read (ov : OverlayItem.t) (chunk : pystr) (pos : Z)
    (self : DataMonitor.t) : OverlayItem.t :=
  let '(lines, carry) := take_lines (OverlayItem._carry ov) chunk in
  let samples := samples_of (fst (parse_all (map strip lines) self)) in
  let ov' := overlay_with samples ov in
  OverlayItem.mk (OverlayItem.buffers ov') pos carry
                 (OverlayItem.t_start_abs ov').

(** the state with the last-good values of [after] and everything else
    of [self] *)
Definition with_last_good_of (after self : DataMonitor.t) : DataMonitor.t :=
  set_last_good_hum (_last_good_hum after)
    (set_last_good_temp (_last_good_temp after) self).

End OverlayVocabulary.

(** * Properties *)

(** ** Stream buffers *)

Section StreamBufferFacts.

Import StreamBuffers.

Lemma append_within {A} cap (x : A) d :
  0 <= cap -> within cap d -> within cap (deque.append x d).
Proof.
  intros Hcap [Hm Hl]. unfold within, deque.append; simpl. split; [done|].
  rewrite Hm. destruct (Z.ltb_spec cap (Z.of_nat (length (deque.items d ++ [x])))) as [Hlt|Hge].
  - destruct (deque.items d) as [|y l]; simpl in *; [lia|].
    rewrite length_app in *; simpl in *. lia.
  - lia.
Qed.

Lemma append_full {A} cap (x : A) d :
  0 < cap -> within cap d -> Z.of_nat (length (deque.items d)) = cap ->
  deque.items (deque.append x d) = tail (deque.items d) ++ [x].
Proof.
  intros Hcap [Hm _] Hfull. unfold deque.append; simpl. rewrite Hm.
  destruct (deque.items d) as [|y l] eqn:E; simpl in *; [lia|].
  rewrite length_app; simpl.
  destruct (Z.ltb_spec cap (Z.of_nat (S (length l + 1)))); [done | lia].
Qed.

Lemma append_length {A} cap (x y : A) d e :
  within cap d -> within cap e ->
  length (deque.items d) = length (deque.items e) ->
  length (deque.items (deque.append x d))
  = length (deque.items (deque.append y e)).
Proof.
  intros [Hd _] [He _] Hl. unfold deque.append; simpl.
  rewrite Hd, He, !length_app, Hl; simpl.
  destruct (cap <? _); [|by rewrite !length_app, Hl].
  destruct (deque.items d), (deque.items e); simpl in *; try done.
  rewrite !length_app. simpl in *. lia.
Qed.

Lemma push_within cap tm sid temp hum b :
  0 <= cap -> all_within cap b /\ parallel b ->
  all_within cap (push tm sid temp hum b) /\ parallel (push tm sid temp hum b).
Proof.
  intros Hcap [(?&?&?&?&?&?) (?&?&?&?)]. unfold push, all_within, parallel.
  destruct (sid =? 1); simpl; split_and!; try assumption;
    try (apply append_within; assumption);
    apply (append_length cap); assumption.
Qed.

Lemma clear_within cap b :
  0 <= cap -> all_within cap b /\ parallel b ->
  all_within cap (clear b) /\ parallel (clear b).
Proof.
  intros Hcap [(W1 & W2 & W3 & W4 & W5 & W6) _].
  unfold all_within, parallel, within, clear, deque.clear; simpl.
  destruct W1, W2, W3, W4, W5, W6. split_and!; first [done | lia].
Qed.

Lemma pushes_within cap ops : forall b,
  0 <= cap -> all_within cap b /\ parallel b ->
  all_within cap (pushes ops b) /\ parallel (pushes ops b).
Proof.
  induction ops as [|[tm sid temp hum|] ops IH]; intros b Hcap Hb; [done|..];
    apply IH; [done | by apply push_within | done | by apply clear_within].
Qed.

Lemma init_within cap :
  0 <= cap -> all_within cap (init cap) /\ parallel (init cap).
Proof.
  intros. unfold all_within, parallel, within, init; simpl.
  repeat split; lia.
Qed.

End StreamBufferFacts.

(** C3. Whatever sequence of pushes (and clears) a stream buffer of
    capacity [maxlen] has received, none of its six sequences is longer than [maxlen], and
    the three sequences of a channel have one length; a push to a channel
    whose sequences are full drops exactly the oldest entry of each of
    that channel's three sequences and appends the new one, and leaves the
    other channel as it was.  The capacity of the buffers of the program
    is [MAX_POINTS] = 250000 ([stream_buffer_MAX_POINTS]). *)
Theorem stream_buffer_capacity_fifo :
  forall (maxlen : Z) (ops : list buffer_op) (tm : pyfloat) (sid : Z)
         (temp hum : pyfloat),
    0 < maxlen ->
    let b := pushes ops (StreamBuffers.init maxlen) in
    let b' := StreamBuffers.push tm sid temp hum b in
    let len (d : deque.t pyfloat) := Z.of_nat (length (deque.items d)) in
    let shifted (d d' : deque.t pyfloat) (x : pyfloat) :=
      deque.items d' = tail (deque.items d) ++ [x] in
    (len (StreamBuffers.t1 b) <= maxlen /\ len (StreamBuffers.T1 b) <= maxlen /\
     len (StreamBuffers.H1 b) <= maxlen /\ len (StreamBuffers.t2 b) <= maxlen /\
     len (StreamBuffers.T2 b) <= maxlen /\ len (StreamBuffers.H2 b) <= maxlen) /\
    (len (StreamBuffers.t1 b) = len (StreamBuffers.T1 b) /\
     len (StreamBuffers.t1 b) = len (StreamBuffers.H1 b) /\
     len (StreamBuffers.t2 b) = len (StreamBuffers.T2 b) /\
     len (StreamBuffers.t2 b) = len (StreamBuffers.H2 b)) /\
    (sid = 1 -> len (StreamBuffers.t1 b) = maxlen ->
       shifted (StreamBuffers.t1 b) (StreamBuffers.t1 b') tm /\
       shifted (StreamBuffers.T1 b) (StreamBuffers.T1 b') temp /\
       shifted (StreamBuffers.H1 b) (StreamBuffers.H1 b') hum /\
       len (StreamBuffers.t1 b') = maxlen /\
       StreamBuffers.t2 b' = StreamBuffers.t2 b /\
       StreamBuffers.T2 b' = StreamBuffers.T2 b /\
       StreamBuffers.H2 b' = StreamBuffers.H2 b) /\
    (sid <> 1 -> len (StreamBuffers.t2 b) = maxlen ->
       shifted (StreamBuffers.t2 b) (StreamBuffers.t2 b') tm /\
       shifted (StreamBuffers.T2 b) (StreamBuffers.T2 b') temp /\
       shifted (StreamBuffers.H2 b) (StreamBuffers.H2 b') hum /\
       len (StreamBuffers.t2 b') = maxlen /\
       StreamBuffers.t1 b' = StreamBuffers.t1 b /\
       StreamBuffers.T1 b' = StreamBuffers.T1 b /\
       StreamBuffers.H1 b' = StreamBuffers.H1 b).
Proof.
  intros maxlen ops tm sid temp hum Hcap b b' len shifted.
  destruct (pushes_within maxlen ops (StreamBuffers.init maxlen)) as [Hw Hp];
    [lia | apply init_within; lia |].
  fold b in Hw, Hp.
  pose proof Hw as (W1 & W2 & W3 & W4 & W5 & W6).
  pose proof Hp as (P1 & P2 & P3 & P4).
  split; [|split; [|split]].
  - unfold len. split_and!; first [apply W1|apply W2|apply W3|apply W4|apply W5|apply W6].
  - unfold len. rewrite <- P1, <- P2, <- P3, <- P4. done.
  - intros -> Hfull. unfold b', shifted, len in *. unfold StreamBuffers.push.
    cbn [Z.eqb Pos.eqb StreamBuffers.t1 StreamBuffers.T1 StreamBuffers.H1
         StreamBuffers.t2 StreamBuffers.T2 StreamBuffers.H2].
    split_and!; try done;
      try (apply (append_full maxlen); [lia | assumption | lia]).
    rewrite (append_full maxlen); [|lia|assumption|lia].
    destruct (deque.items (StreamBuffers.t1 b)); simpl in *; [lia|].
    rewrite length_app; simpl; lia.
  - intros Hsid Hfull. unfold b', shifted, len in *. unfold StreamBuffers.push.
    destruct (Z.eqb_spec sid 1) as [|_]; [done|].
    cbn [StreamBuffers.t1 StreamBuffers.T1 StreamBuffers.H1
         StreamBuffers.t2 StreamBuffers.T2 StreamBuffers.H2].
    split_and!; try done;
      try (apply (append_full maxlen); [lia | assumption | lia]).
    rewrite (append_full maxlen); [|lia|assumption|lia].
    destruct (deque.items (StreamBuffers.t2 b)); simpl in *; [lia|].
    rewrite length_app; simpl; lia.
Qed.

Lemma stream_buffer_capacity_fifo_witness :
  let ops := [Push (Fin 0) 1 (Fin 20) (Fin 40); Clear;
              Push (Fin 0) 1 (Fin 20) (Fin 40);
              Push (Fin 1) 1 (Fin 21) (Fin 41)] in
  let b := pushes ops (StreamBuffers.init 2) in
  let b' := StreamBuffers.push (Fin 2) 1 (Fin 22) (Fin 42) b in
  deque.items (StreamBuffers.t1 b) = [Fin 0; Fin 1] /\
  deque.items (StreamBuffers.t1 b') = [Fin 1; Fin 2] /\
  deque.items (StreamBuffers.T1 b') = [Fin 21; Fin 22] /\
  StreamBuffers.t2 b' = StreamBuffers.t2 b.
Proof.
  intros ops b b'.
  destruct (stream_buffer_capacity_fifo 2 ops (Fin 2) 1 (Fin 22) (Fin 42)
              ltac:(lia)) as (_ & _ & Hfull & _).
  destruct (Hfull eq_refl eq_refl) as (E1 & E2 & _ & _ & E4 & _).
  split; [reflexivity|]. split; [exact E1|]. split; [exact E2 | exact E4].
Defined.

(** The buffers of the program -- the main buffer of the monitor and the
    buffer of every overlay it adds -- have the capacity 250000 and never
    hold more. *)
Corollary stream_buffer_MAX_POINTS :
  DataMonitor.main DataMonitor.init = StreamBuffers.init 250000 /\
  (forall self self',
     DataMonitor.add_overlay self = Some self' ->
     OverlayItem.buffers <$> last (DataMonitor.overlays self')
     = Some (StreamBuffers.init 250000)) /\
  (forall ops : list buffer_op,
     let b := pushes ops (StreamBuffers.init 250000) in
     Z.of_nat (length (deque.items (StreamBuffers.t1 b))) <= 250000 /\
     Z.of_nat (length (deque.items (StreamBuffers.T1 b))) <= 250000 /\
     Z.of_nat (length (deque.items (StreamBuffers.H1 b))) <= 250000 /\
     Z.of_nat (length (deque.items (StreamBuffers.t2 b))) <= 250000 /\
     Z.of_nat (length (deque.items (StreamBuffers.T2 b))) <= 250000 /\
     Z.of_nat (length (deque.items (StreamBuffers.H2 b))) <= 250000).
Proof.
  split_and!.
  - reflexivity.
  - intros self self' Hadd. unfold DataMonitor.add_overlay in Hadd.
    destruct (_ <=? _)%nat; [done|]. injection Hadd as Hadd. subst self'.
    cbn [DataMonitor.set_overlays DataMonitor.overlays].
    by rewrite last_snoc.
  - intros ops b.
    destruct (pushes_within 250000 ops (StreamBuffers.init 250000))
      as [(W1 & W2 & W3 & W4 & W5 & W6) _]; [done | by apply init_within |].
    split_and!; [apply W1 | apply W2 | apply W3 | apply W4 | apply W5 | apply W6].
Qed.

(** ** Finite floats *)

Section FloatFacts.

Local Open Scope Q_scope.

Lemma leb_Fin x y : leb (Fin x) (Fin y) = true <-> x <= y.
Proof. apply Qle_bool_iff. Qed.

Lemma ltb_Fin x y : ltb (Fin x) (Fin y) = true <-> x < y.
Proof.
  simpl. rewrite negb_true_iff, <- not_true_iff_false, Qle_bool_iff.
  split; [apply Qnot_le_lt | apply Qlt_not_le].
Qed.

Lemma ltb_Fin_false x y : ltb (Fin x) (Fin y) = false <-> y <= x.
Proof.
  simpl. rewrite negb_false_iff. apply Qle_bool_iff.
Qed.

Lemma gtb_Fin x y : gtb (Fin x) (Fin y) = true <-> y < x.
Proof. apply ltb_Fin. Qed.

Lemma gtb_Fin_false x y : gtb (Fin x) (Fin y) = false <-> x <= y.
Proof. apply ltb_Fin_false. Qed.

(** Only a finite value passes a two-sided comparison with finite bounds. *)
Lemma leb_between_finite lo hi a :
  leb (Fin lo) a = true -> leb a (Fin hi) = true ->
  exists q, a = Fin q /\ lo <= q <= hi.
Proof.
  destruct a as [q| | |]; simpl; try discriminate.
  rewrite !Qle_bool_iff. eauto.
Qed.

Lemma round_half_even_comp x y :
  x == y -> round_half_even x = round_half_even y.
Proof.
  intros E. unfold round_half_even.
  rewrite (Qfloor_comp _ _ E).
  assert (x - inject_Z (Qfloor y) == y - inject_Z (Qfloor y)) as ->
    by (rewrite E; reflexivity).
  reflexivity.
Qed.

(** [round] is within one half of its argument, and even at a tie. *)
Lemma round_half_even_nearest x :
  let n := round_half_even x in
  inject_Z n - (1 # 2) <= x <= inject_Z n + (1 # 2)
  /\ (x - inject_Z (Qfloor x) == 1 # 2 -> Z.even n = true).
Proof.
  unfold round_half_even.
  pose proof (Qfloor_le x) as Hlo. pose proof (Qlt_floor x) as Hhi.
  set (f := Qfloor x) in *.
  rewrite inject_Z_plus in Hhi. change (inject_Z 1) with 1 in Hhi.
  destruct (x - inject_Z f ?= 1 # 2) eqn:C.
  - apply Qeq_alt in C.
    destruct (Z.even f) eqn:Ev.
    + split; [lra | done].
    + split; [rewrite inject_Z_plus; change (inject_Z 1) with 1; lra|].
      intros _. rewrite Z.even_add, Ev. reflexivity.
  - apply Qlt_alt in C. split; [lra | intros E; lra].
  - apply Qgt_alt in C.
    split; [rewrite inject_Z_plus; change (inject_Z 1) with 1; lra | intros E; lra].
Qed.

Lemma round_half_even_nonneg x : 0 <= x -> (0 <= round_half_even x)%Z.
Proof.
  intros H. unfold round_half_even.
  assert (0 <= Qfloor x)%Z by (change 0%Z with (Qfloor 0); by apply Qfloor_resp_le).
  destruct (_ ?= _); [destruct (Z.even _)|..]; lia.
Qed.

Lemma map_lookup {A B} (f : A -> B) (l : list A) (i : nat) :
  map f l !! i = option_map f (l !! i).
Proof.
  revert i. induction l as [|x l IH]; intros [|i]; simpl; auto.
Qed.

Lemma dist_above t a b : t <= a -> a <= b -> Qabs (a - t) <= Qabs (b - t).
Proof. intros. do 2 apply Qabs_case; intros; lra. Qed.

Lemma dist_below t a b : a < t -> b <= a -> Qabs (a - t) <= Qabs (b - t).
Proof. intros. do 2 apply Qabs_case; intros; lra. Qed.

Lemma abs_sub_Fin a t : abs (sub (Fin a) (Fin t)) = Fin (Qabs (Qred (a - t))).
Proof. reflexivity. Qed.

Lemma Qabs_Qred x : Qabs (Qred x) == Qabs x.
Proof. apply Qabs_wd, Qred_correct. Qed.

End FloatFacts.

(** ** Downsampling *)

Lemma slice_from_lookup {A} (stride : nat) (l : list A) :
  (1 <= stride)%nat ->
  forall k i, slice_from stride k l !! i = l !! (k + i * stride)%nat.
Proof.
  intros Hs. induction l as [|x l IH]; intros k i; [done|].
  destruct k as [|k]; simpl.
  - destruct i as [|i]; [done|]. simpl. rewrite IH.
    replace (stride + i * stride)%nat with (S (stride - 1 + i * stride)) by lia.
    done.
  - by rewrite IH.
Qed.

(** [l[::stride]] holds the items of [l] at the multiples of [stride]. *)
Lemma slice_step_lookup {A} (stride : nat) (l : list A) (i : nat) :
  (1 <= stride)%nat -> slice_step stride l !! i = l !! (i * stride)%nat.
Proof. intros. unfold slice_step. by rewrite slice_from_lookup. Qed.

Lemma slice_step_1 {A} (l : list A) : slice_step 1 l = l.
Proof.
  apply list_eq; intros i. rewrite slice_step_lookup by lia.
  by rewrite Nat.mul_1_r.
Qed.

(** At or below the budget the input is returned as it is. *)
Lemma downsample_xy_within_budget {A B} (xs : list A) (ys : list B) budget :
  Z.of_nat (length xs) <= budget -> downsample_xy xs ys budget = Ok (xs, ys).
Proof.
  intros H. unfold downsample_xy.
  by destruct (Z.leb_spec (Z.of_nat (length xs)) budget); [|lia].
Qed.

(** Above a positive budget the stride is [max(1, n // budget)], the
    quotient rounded down, and the first point is kept. *)
Lemma downsample_xy_floor_stride {A B} (xs : list A) (ys : list B) budget :
  0 < budget < Z.of_nat (length xs) ->
  let stride := Z.to_nat (Z.max 1 (Z.of_nat (length xs) / budget)) in
  downsample_xy xs ys budget = Ok (slice_step stride xs, slice_step stride ys)
  /\ (forall i, slice_step stride xs !! i = xs !! (i * stride)%nat)
  /\ (forall i, slice_step stride ys !! i = ys !! (i * stride)%nat)
  /\ head (slice_step stride xs) = head xs.
Proof.
  intros H stride. assert (1 <= stride)%nat by (unfold stride; lia).
  split_and!.
  - unfold downsample_xy.
    destruct (Z.leb_spec (Z.of_nat (length xs)) budget); [lia|].
    destruct (Z.eqb_spec budget 0); [lia | done].
  - intros i. by apply slice_step_lookup.
  - intros i. by apply slice_step_lookup.
  - by destruct xs.
Qed.

(** Between one and two budgets the stride is 1: nothing is dropped. *)
Lemma downsample_xy_below_two_budgets {A B} (xs : list A) (ys : list B) budget :
  0 < budget < Z.of_nat (length xs) -> Z.of_nat (length xs) < 2 * budget ->
  downsample_xy xs ys budget = Ok (xs, ys).
Proof.
  intros H H2. destruct (downsample_xy_floor_stride xs ys budget H) as [-> _].
  assert (Z.of_nat (length xs) / budget = 1) as ->.
  { symmetry. apply Z.div_unique with (r := Z.of_nat (length xs) - budget); lia. }
  change (Z.to_nat (Z.max 1 1)) with 1%nat. by rewrite !slice_step_1.
Qed.

(** C5. The code at a failing input: 2501 points with the draw budget of
    2500.  The stride is [max(1, 2501 // 2500) = 1], not
    [ceil(2501 / 2500) = 2]; all 2501 points are returned, one more than
    the budget. *)
Theorem downsample_xy_exceeds_budget :
  let xs := seq 0 2501 in
  downsample_xy xs xs DRAW_MAX_POINTS = Ok (xs, xs) /\
  DRAW_MAX_POINTS < Z.of_nat (length xs) /\
  Z.max 1 (Z.of_nat (length xs) / DRAW_MAX_POINTS) = 1 /\
  ceil_stride (Z.of_nat (length xs)) DRAW_MAX_POINTS = 2.
Proof.
  intros xs. split_and!.
  - apply downsample_xy_below_two_budgets; unfold xs;
      rewrite length_seq; unfold DRAW_MAX_POINTS; lia.
  - unfold xs. rewrite length_seq. unfold DRAW_MAX_POINTS. lia.
  - unfold xs. rewrite length_seq. reflexivity.
  - unfold xs. rewrite length_seq. reflexivity.
Qed.

(** ** Export timestamps *)

Lemma format_0d_2 (n : Z) :
  0 <= n < 100 -> format_0d 2 n = [digit_char (n / 10); digit_char (n mod 10)].
Proof.
  intros H.
  assert (forallb (fun k => bool_decide
            (format_0d 2 (Z.of_nat k)
             = [digit_char (Z.of_nat k / 10); digit_char (Z.of_nat k mod 10)]))
          (seq 0 100) = true) as Hall by (vm_compute; reflexivity).
  rewrite forallb_forall in Hall.
  specialize (Hall (Z.to_nat n)). rewrite Z2Nat.id in Hall by lia.
  eapply bool_decide_eq_true_1. apply Hall. apply in_seq. lia.
Qed.

Lemma format_0d_3 (n : Z) :
  0 <= n < 1000 ->
  format_0d 3 n
  = [digit_char (n / 100); digit_char (n / 10 mod 10); digit_char (n mod 10)].
Proof.
  intros H.
  assert (forallb (fun k => bool_decide
            (format_0d 3 (Z.of_nat k)
             = [digit_char (Z.of_nat k / 100);
                digit_char (Z.of_nat k / 10 mod 10);
                digit_char (Z.of_nat k mod 10)]))
          (seq 0 1000) = true) as Hall by (vm_compute; reflexivity).
  rewrite forallb_forall in Hall.
  specialize (Hall (Z.to_nat n)). rewrite Z2Nat.id in Hall by lia.
  eapply bool_decide_eq_true_1. apply Hall. apply in_seq. lia.
Qed.

Lemma format_0d_width (width : nat) (n : Z) :
  0 <= n -> (width <= length (format_0d width n))%nat.
Proof.
  intros H. unfold format_0d.
  destruct (Z.ltb_spec n 0); [lia|].
  rewrite length_app, length_replicate. lia.
Qed.

(** the value [tsec * 1000.0] that [sec_to_mmss_mmm] rounds *)
Lemma clamped_millis (t : Q) :
  (0 <= t)%Q ->
  exists x, mul (max2 (Fin 0) (Fin t)) (Fin 1000) = Fin x /\ (x == t * 1000)%Q.
Proof.
  intros H. unfold max2. destruct (gtb (Fin t) (Fin 0)) eqn:G.
  - eexists; split; [reflexivity|]. apply Qred_correct.
  - apply gtb_Fin_false in G. eexists; split; [reflexivity|].
    rewrite Qred_correct. assert (t == 0)%Q as -> by lra. reflexivity.
Qed.




(** ** Viewport limits *)

Section YLimits.

Local Open Scope Q_scope.

Lemma finite_list (l : list pyfloat) :
  Forall finite l -> exists qs, l = map Fin qs.
Proof.
  induction 1 as [|a l [q ->] _ [qs ->]]; [by exists [] | by exists (q :: qs)].
Qed.

Lemma fold_min2_Fin (l : list Q) : forall m,
  exists r, fold_left min2 (map Fin l) (Fin m) = Fin r
            /\ In r (m :: l) /\ forall q, In q (m :: l) -> r <= q.
Proof.
  induction l as [|a l IH]; intros m; simpl.
  - exists m. split_and!; [done | by left |]. intros q [<-|[]]. lra.
  - unfold min2 at 2. destruct (ltb (Fin a) (Fin m)) eqn:C.
    + apply ltb_Fin in C. destruct (IH a) as (r & -> & Hin & Hle).
      exists r. split_and!; [done | by right |].
      intros q [<-|Hq]; [|by apply Hle]. specialize (Hle a (or_introl eq_refl)). lra.
    + apply ltb_Fin_false in C. destruct (IH m) as (r & -> & Hin & Hle).
      exists r. split_and!; [done | |].
      * destruct Hin as [<-|Hin]; [by left | by right; right].
      * intros q [<-|[<-|Hq]].
        -- apply Hle. by left.
        -- specialize (Hle m (or_introl eq_refl)). lra.
        -- apply Hle. by right.
Qed.

Lemma fold_max2_Fin (l : list Q) : forall m,
  exists r, fold_left max2 (map Fin l) (Fin m) = Fin r
            /\ In r (m :: l) /\ forall q, In q (m :: l) -> q <= r.
Proof.
  induction l as [|a l IH]; intros m; simpl.
  - exists m. split_and!; [done | by left |]. intros q [<-|[]]. lra.
  - unfold max2 at 2. destruct (gtb (Fin a) (Fin m)) eqn:C.
    + apply gtb_Fin in C. destruct (IH a) as (r & -> & Hin & Hle).
      exists r. split_and!; [done | by right |].
      intros q [<-|Hq]; [|by apply Hle]. specialize (Hle a (or_introl eq_refl)). lra.
    + apply gtb_Fin_false in C. destruct (IH m) as (r & -> & Hin & Hle).
      exists r. split_and!; [done | |].
      * destruct Hin as [<-|Hin]; [by left | by right; right].
      * intros q [<-|[<-|Hq]].
        -- apply Hle. by left.
        -- specialize (Hle m (or_introl eq_refl)). lra.
        -- apply Hle. by right.
Qed.

(** the list [ys_win] of [_fast_ylim] *)
Lemma in_window_filter xs ys x0 x1 y :
  In y (map snd (List.filter (fun '(x, y) => leb x0 x && leb x x1)
                             (combine xs ys)))
  <-> in_window xs ys x0 x1 y.
Proof.
  rewrite in_map_iff. unfold in_window. split.
  - intros ([x y'] & <- & Hf). apply filter_In in Hf as [Hin Hb].
    apply andb_true_iff in Hb. by exists x.
  - intros (x & Hin & H0 & H1). exists (x, y). split; [done|].
    apply filter_In. split; [done|]. by rewrite H0, H1.
Qed.




End YLimits.

(** ** Nearest-time lookup *)

Section Nearest.

Local Open Scope Q_scope.

Variable ts : list Q.
Variable t : Q.
Hypothesis Hsorted : sorted_times ts.

(** The loop of [bisect_left] keeps the times before [lo] below [t] and
    those from [hi] on at or above it, and ends within its fuel. *)
Lemma bisect_loop_spec (fuel : nat) : forall lo hi : nat,
  (hi - lo <= fuel)%nat -> (lo <= hi <= length ts)%nat ->
  (forall k a, (k < lo)%nat -> ts !! k = Some a -> a < t) ->
  (forall k a, (hi <= k)%nat -> ts !! k = Some a -> t <= a) ->
  let i := bisect_loop fuel (map Fin ts) (Fin t) lo hi in
  (lo <= i <= hi)%nat /\
  (forall k a, (k < i)%nat -> ts !! k = Some a -> a < t) /\
  (forall k a, (i <= k)%nat -> ts !! k = Some a -> t <= a).
Proof.
  induction fuel as [|fuel IH]; intros lo hi Hfuel Hrange Hlo Hhi;
    cbn [bisect_loop].
  - assert (lo = hi) as -> by lia. auto with lia.
  - destruct (Nat.ltb_spec lo hi) as [Hlt|Hge];
      [|assert (lo = hi) as -> by lia; auto with lia].
    set (mid := ((lo + hi) / 2)%nat).
    assert (lo <= mid < hi)%nat as Hmid.
    { unfold mid. split.
      - apply Nat.div_le_lower_bound; lia.
      - apply Nat.Div0.div_lt_upper_bound; lia. }
    destruct (lookup_lt_is_Some_2 ts mid) as [am Ham]; [lia|].
    rewrite map_lookup, Ham. cbn [option_map].
    destruct (ltb (Fin am) (Fin t)) eqn:C.
    + apply ltb_Fin in C.
      destruct (IH (mid + 1)%nat hi) as (R & L & U); [lia | lia | | done |].
      * intros k a Hk Ha.
        pose proof (Hsorted k mid a am Ha Ham ltac:(lia)). lra.
      * split; [lia | by split].
    + apply ltb_Fin_false in C.
      destruct (IH lo mid) as (R & L & U); [lia | lia | done | |].
      * intros k a Hk Ha.
        pose proof (Hsorted mid k am a Ham Ha ltac:(lia)). lra.
      * split; [lia | by split].
Qed.

(** [bisect_left] on a sorted list: the insertion point of [t]. *)
Lemma bisect_left_spec :
  let i := bisect_left (map Fin ts) (Fin t) in
  (i <= length ts)%nat /\
  (forall k a, (k < i)%nat -> ts !! k = Some a -> a < t) /\
  (forall k a, (i <= k)%nat -> ts !! k = Some a -> t <= a).
Proof.
  unfold bisect_left. rewrite length_map.
  destruct (bisect_loop_spec (length ts) 0 (length ts)) as (R & L & U);
    [lia | lia | intros; lia | |].
  - intros k a Hk Ha. apply lookup_lt_Some in Ha. lia.
  - split; [lia | by split].
Qed.

Context {V : Type}.
Variable vs : list V.
Hypothesis Hparallel : length vs = length ts.

(** the candidate indices of [nearest_by_time] *)
Let candidates : list nat :=
  let i := bisect_left (map Fin ts) (Fin t) in
  (if (i <? length (map Fin ts))%nat then [i] else [])
  ++ (if (0 <? i)%nat then [(i - 1)%nat] else []).

(** The loop over the candidates ends with a closest time and its value. *)
Lemma nearest_candidates_best :
  ts <> [] ->
  exists j tj v,
    closest ts t j tj /\ vs !! j = Some v /\
    fold_left (nearest_step (map Fin ts) vs (Fin t)) candidates (Ok (None, None))
    = Ok (Some v, Some (Fin (Qabs (Qred (tj - t))))).
Proof.
  intros Hne. unfold candidates.
  destruct bisect_left_spec as (Hi & Hlow & Hup).
  set (i := bisect_left (map Fin ts) (Fin t)) in *.
  rewrite length_map.
  assert (forall k, (k < length ts)%nat ->
            exists tk vk, ts !! k = Some tk /\ vs !! k = Some vk) as Hget.
  { intros k Hk. destruct (lookup_lt_is_Some_2 ts k Hk) as [tk ?].
    destruct (lookup_lt_is_Some_2 vs k) as [vk ?]; [lia | eauto]. }
  assert (forall k tk vk acc, ts !! k = Some tk -> vs !! k = Some vk ->
            nearest_step (map Fin ts) vs (Fin t) (Ok acc) k
            = if match acc.2 with
                 | None => true
                 | Some bd => ltb (Fin (Qabs (Qred (tk - t)))) bd
                 end
              then Ok (Some vk, Some (Fin (Qabs (Qred (tk - t)))))
              else Ok acc) as Hstep.
  { intros k tk vk [best bd] Ht Hv. unfold nearest_step.
    rewrite map_lookup, Ht. cbn [option_map]. rewrite abs_sub_Fin, Hv.
    by destruct bd. }
  destruct (Nat.ltb_spec i (length ts)) as [Hlt|Hge].
  - destruct (Hget i Hlt) as (ti & vi & Hti & Hvi).
    pose proof (Hup i ti ltac:(lia) Hti) as Hti_ge.
    destruct (Nat.ltb_spec 0 i) as [Hpos|Hzero].
    + destruct (Hget (i - 1)%nat ltac:(lia)) as (tp & vp & Htp & Hvp).
      pose proof (Hlow (i - 1)%nat tp ltac:(lia) Htp) as Htp_lt.
      cbn [app fold_left]. rewrite (Hstep i ti vi) by done. cbn [snd].
      rewrite (Hstep (i - 1)%nat tp vp) by done. cbn [snd].
      destruct (ltb _ _) eqn:C.
      * apply ltb_Fin in C. rewrite !Qabs_Qred in C.
        exists (i - 1)%nat, tp, vp. split_and!; [split; [done|] | done | done].
        intros k tk Hk. destruct (Nat.lt_ge_cases k i) as [Hki|Hki].
        -- apply dist_below; [done|]. apply (Hsorted k (i - 1)%nat); [done..|lia].
        -- pose proof (dist_above t ti tk Hti_ge
                         (Hsorted i k ti tk Hti Hk Hki)). lra.
      * apply ltb_Fin_false in C. rewrite !Qabs_Qred in C.
        exists i, ti, vi. split_and!; [split; [done|] | done | done].
        intros k tk Hk. destruct (Nat.lt_ge_cases k i) as [Hki|Hki].
        -- pose proof (dist_below t tp tk Htp_lt
                         (Hsorted k (i - 1)%nat tk tp Hk Htp ltac:(lia))). lra.
        -- apply dist_above; [done|]. by apply (Hsorted i k).
    + assert (i = 0%nat) as Hi0 by lia.
      cbn [app fold_left]. rewrite (Hstep i ti vi) by done. cbn [snd].
      exists i, ti, vi. split_and!; [split; [done|] | done | done].
      intros k tk Hk. apply dist_above; [done|].
      apply (Hsorted i k); [done..|lia].
  - assert (i = length ts) as Hi_end by lia.
    assert (0 < length ts)%nat by (destruct ts; [done | simpl; lia]).
    destruct (Nat.ltb_spec 0 i) as [Hpos|Hzero]; [|lia].
    destruct (Hget (i - 1)%nat ltac:(lia)) as (tp & vp & Htp & Hvp).
    pose proof (Hlow (i - 1)%nat tp ltac:(lia) Htp) as Htp_lt.
    cbn [app fold_left]. rewrite (Hstep (i - 1)%nat tp vp) by done. cbn [snd].
    exists (i - 1)%nat, tp, vp. split_and!; [split; [done|] | done | done].
    intros k tk Hk. apply dist_below; [done|].
    apply (Hsorted k (i - 1)%nat); [done..|]. apply lookup_lt_Some in Hk. lia.
Qed.

End Nearest.

Lemma nearest_by_time_nonempty {V} (t_list : list pyfloat) (v_list : list V)
    (t max_dt : pyfloat) :
  t_list <> [] ->
  nearest_by_time t_list v_list t max_dt
  = let i := bisect_left t_list t in
    let candidates :=
      (if (i <? length t_list)%nat then [i] else [])
      ++ (if (0 <? i)%nat then [(i - 1)%nat] else []) in
    match fold_left (nearest_step t_list v_list t) candidates (Ok (None, None)) with
    | Raise => Raise
    | Ok (best, Some best_dt) => Ok (if leb best_dt max_dt then best else None)
    | Ok (_, None) => Ok None
    end.
Proof. by destruct t_list. Qed.



(** ** The line parser *)

Section ParserFacts.

Import DataMonitor.

(** *** Computations that leave the state alone *)

Lemma stateless_ret {S A} (a : A) : stateless (ret a : M S A).
Proof. by exists (Ok a). Qed.

Lemma stateless_or_raise {S A} (o : option A) : stateless (or_raise o : M S A).
Proof. destruct o; [by eexists (Ok _) | by exists Raise]. Qed.

Lemma stateless_bind {S A B} (m : M S A) (k : A -> M S B) :
  stateless m -> (forall a, stateless (k a)) -> stateless (bind m k).
Proof.
  intros [[a|] Hm] Hk.
  - destruct (Hk a) as [r Hr]. exists r. intros s. unfold bind. by rewrite Hm.
  - exists Raise. intros s. unfold bind. by rewrite Hm.
Qed.

(** *** [validate] *)

Lemma sensor_id_cases txt : sensor_id txt = 1 \/ sensor_id txt = 2.
Proof. unfold sensor_id. destruct (endswith _ _); auto. Qed.

Lemma validate_run t_abs sid temp hum self lt lh :
  _last_good_temp self !! sid = Some lt ->
  _last_good_hum self !! sid = Some lh ->
  validate t_abs sid temp hum self
  = if _valid_ranges temp hum && step_ok lt lh temp hum
    then (Ok (Some (t_abs, sid, temp, hum)), accepted sid temp hum self)
    else (Ok None, self).
Proof.
  intros Ht Hh. unfold validate.
  destruct (_valid_ranges temp hum); [|done]. cbn [negb andb].
  unfold bind at 1. unfold _valid_step, bind, get, or_raise, ret.
  rewrite Ht, Hh. unfold step_ok.
  destruct lt as [lt|], lh as [lh|]; try done.
  destruct (gtb (abs (sub temp lt)) MAX_TEMP_STEP_C); [done|].
  destruct (gtb (abs (sub hum lh)) MAX_HUM_STEP_PCT); done.
Qed.

Lemma valid_ranges_in_ranges temp hum :
  _valid_ranges temp hum = true <-> in_ranges temp hum.
Proof.
  unfold _valid_ranges, in_ranges. rewrite !andb_true_iff. split.
  - intros [[T1 T2] [H1 H2]].
    destruct (leb_between_finite _ _ _ T1 T2) as (qt & -> & ?).
    destruct (leb_between_finite _ _ _ H1 H2) as (qh & -> & ?).
    by exists qt, qh.
  - intros (qt & qh & -> & -> & [? ?] & [? ?]).
    unfold TEMP_MIN_C, TEMP_MAX_C, HUM_MIN_PCT, HUM_MAX_PCT.
    by rewrite !leb_Fin.
Qed.

Lemma caches_ok_lookup self sid :
  caches_ok self -> sid = 1 \/ sid = 2 ->
  exists lt lh,
    _last_good_temp self !! sid = Some lt /\ _last_good_hum self !! sid = Some lh
    /\ (lt = None /\ lh = None
        \/ exists a b, lt = Some a /\ lh = Some b /\ in_ranges a b).
Proof.
  intros Hok Hsid. destruct (Hok sid Hsid) as [[? ?]|(a & b & ? & ? & ?)].
  - exists None, None. auto.
  - exists (Some a), (Some b). split_and!; [done..|]. right. by exists a, b.
Qed.

Lemma accepted_caches_ok sid temp hum self :
  caches_ok self -> in_ranges temp hum -> caches_ok (accepted sid temp hum self).
Proof.
  intros Hok Hr k Hk. unfold accepted; simpl.
  destruct (decide (sid = k)) as [->|Hne].
  - right. exists temp, hum. by rewrite !lookup_insert_eq.
  - rewrite !lookup_insert_ne by done. by apply Hok.
Qed.

(** *** The parser, whatever the state *)

Lemma free_text_line s :
  exists k, line_ok k /\ forall self, free_text s self = run_line k self.
Proof.
  unfold free_text. destruct (rmatch LINE_RE s) as [m|];
    [|by exists NoSample].
  destruct (group "m" m) as [gm|]; [|by exists Raises].
  destruct (group "s" m) as [gs|]; [|by exists Raises].
  destruct (group "ms" m) as [gms|]; [|by exists Raises].
  destruct (to_seconds gm gs gms) as [t_abs|] eqn:Et;
    [|exists Raises; split; [done|]; intros self;
      unfold bind, or_raise, ret; cbn; by rewrite Et].
  destruct (group "sensor" m) as [sensor|];
    [|exists Raises; split; [done|]; intros self;
      unfold bind, or_raise, ret; cbn; by rewrite Et].
  destruct (group "temp" m) as [gtemp|];
    [|exists Raises; split; [done|]; intros self;
      unfold bind, or_raise, ret; cbn; by rewrite Et].
  destruct (float gtemp) as [temp|] eqn:Etemp;
    [|exists Raises; split; [done|]; intros self;
      unfold bind, or_raise, ret; cbn; by rewrite Et, Etemp].
  destruct (group "rh" m) as [grh|];
    [|exists Raises; split; [done|]; intros self;
      unfold bind, or_raise, ret; cbn; by rewrite Et, Etemp].
  destruct (float grh) as [hum|] eqn:Ehum;
    [|exists Raises; split; [done|]; intros self;
      unfold bind, or_raise, ret; cbn; by rewrite Et, Etemp, Ehum].
  exists (Fields t_abs (sensor_id sensor) temp hum).
  split; [apply sensor_id_cases|]. intros self.
  unfold bind at 1 2 3 4 5 6 7 8 9, or_raise, ret; cbn.
  by rewrite Et, Etemp, Ehum.
Qed.

Lemma delimited_fields_stateless parts : stateless (delimited_fields parts).
Proof.
  unfold delimited_fields, item.
  destruct (length parts =? 5)%nat;
    repeat first [ apply stateless_bind; [|intros ?]
                 | apply stateless_or_raise
                 | apply stateless_ret ].
Qed.

(** A row of 4 or 5 fields: a record handed to [validate], or the [if]
    left without a [return], or an exception. *)
Lemma delimited_row_line parts :
  (exists t_abs sid temp hum,
     (sid = 1 \/ sid = 2) /\
     forall self, delimited_row parts self
                  = (r <- validate t_abs sid temp hum ;; ret (Some r)) self)
  \/ (forall self, delimited_row parts self = (Ok None, self))
  \/ (forall self, delimited_row parts self = (Raise, self)).
Proof.
  destruct (delimited_fields_stateless parts) as [[[[[t_abs txt] temp] hum]|] Hf].
  - destruct (startswith (lower txt) (lit "sensor")) eqn:Es.
    + left. exists t_abs, (sensor_id txt), temp, hum.
      split; [apply sensor_id_cases|]. intros self.
      unfold delimited_row. unfold bind at 1. by rewrite Hf, Es.
    + right; left. intros self.
      unfold delimited_row. unfold bind at 1. by rewrite Hf, Es.
  - right; right. intros self. unfold delimited_row, bind. by rewrite Hf.
Qed.

(** In a state whose dictionaries have the keys 1 and 2, [validate] does
    not raise. *)
Lemma validate_no_raise t_abs sid temp hum self :
  caches_ok self -> sid = 1 \/ sid = 2 ->
  fst (validate t_abs sid temp hum self) <> Raise.
Proof.
  intros Hok Hsid.
  destruct (caches_ok_lookup self sid Hok Hsid) as (lt & lh & Ht & Hh & _).
  rewrite (validate_run _ _ _ _ _ _ _ Ht Hh). by destruct (_ && _).
Qed.

(** The parser treats a line the same way in every state: as a record to
    validate, as no record, or by raising. *)
Lemma parse_line s :
  exists k, line_ok k /\
    forall self, caches_ok self ->
                 parse_log_line_abs_seconds s self = run_line k self.
Proof.
  unfold parse_log_line_abs_seconds.
  destruct s as [|c s']; [by exists NoSample|].
  set (s := c :: s') in *.
  destruct (contains (lit "TS,Sensor,TempC,RH") s); [by exists NoSample|].
  set (parts := map strip (split "," s)).
  destruct (free_text_line s) as (kf & Hkf & Hfree).
  destruct ((length parts =? 4)%nat || (length parts =? 5)%nat);
    [|exists kf; split; [done|]; intros self _; unfold bind, ret; apply Hfree].
  destruct (delimited_row_line parts)
    as [(t_abs & sid & temp & hum & Hsid & Hrow)|[Hrow|Hrow]].
  - exists (Fields t_abs sid temp hum). split; [done|]. intros self Hok.
    pose proof (validate_no_raise t_abs sid temp hum self Hok Hsid) as Hnr.
    unfold bind at 1. unfold try_except. rewrite Hrow.
    unfold bind, ret. cbn [run_line].
    destruct (validate t_abs sid temp hum self) as [[r|] self']; [done|].
    by destruct Hnr.
  - exists kf. split; [done|]. intros self _.
    unfold bind, try_except, ret. rewrite Hrow. apply Hfree.
  - exists kf. split; [done|]. intros self _.
    unfold bind, try_except, ret. rewrite Hrow. apply Hfree.
Qed.

(** *** The invariant of the last-good dictionaries *)

Lemma preserves_ret {S A} (P : S -> Prop) (a : A) : preserves P (ret a).
Proof. by intros s. Qed.

Lemma preserves_or_raise {S A} (P : S -> Prop) (o : option A) :
  preserves P (or_raise o).
Proof. intros s. by destruct o. Qed.

Lemma preserves_get {S} (P : S -> Prop) : preserves P get.
Proof. by intros s. Qed.

Lemma preserves_modify {S} (P : S -> Prop) (f : S -> S) :
  (forall s, P s -> P (f s)) -> preserves P (modify f).
Proof. intros H s. apply H. Qed.

Lemma preserves_bind {S A B} (P : S -> Prop) (m : M S A) (k : A -> M S B) :
  preserves P m -> (forall a, preserves P (k a)) -> preserves P (bind m k).
Proof.
  intros Hm Hk s Hs. unfold bind. specialize (Hm s Hs).
  destruct (m s) as [[a|] s']; [by apply Hk | done].
Qed.

Lemma preserves_for_each {S A} (P : S -> Prop) (l : list A)
    (body : A -> M S unit) :
  (forall x, preserves P (body x)) -> preserves P (for_each l body).
Proof.
  intros Hb. induction l as [|x l IH]; [by intros s|].
  apply preserves_bind; [apply Hb | by intros _].
Qed.

Lemma caches_ok_same self self' :
  _last_good_temp self' = _last_good_temp self ->
  _last_good_hum self' = _last_good_hum self ->
  caches_ok self -> caches_ok self'.
Proof. intros Et Eh Hok sid Hsid. rewrite Et, Eh. by apply Hok. Qed.

Lemma no_last_good_caches_ok self :
  _last_good_temp self = no_last_good -> _last_good_hum self = no_last_good ->
  caches_ok self.
Proof. intros Et Eh sid Hsid. rewrite Et, Eh. destruct Hsid as [->| ->]; by left. Qed.

Lemma run_line_caches_ok k : line_ok k -> preserves caches_ok (run_line k).
Proof.
  destruct k as [t_abs sid temp hum| |]; [|intros _ s Hs; exact Hs..].
  intros Hsid self Hok. cbn [run_line].
  destruct (caches_ok_lookup self sid Hok Hsid) as (lt & lh & Ht & Hh & _).
  rewrite (validate_run _ _ _ _ _ _ _ Ht Hh).
  destruct (_valid_ranges temp hum) eqn:Hr; [|done].
  destruct (step_ok lt lh temp hum); [|done].
  apply accepted_caches_ok; [done|]. by apply valid_ranges_in_ranges.
Qed.

Lemma parse_caches_ok s : preserves caches_ok (parse_log_line_abs_seconds s).
Proof.
  intros self Hok. destruct (parse_line s) as (k & Hk & Hs). rewrite Hs by done.
  by apply run_line_caches_ok.
Qed.

Lemma truncation_main_run size last_size self :
  truncation_main size last_size self
  = (Ok tt, if (size <? file_pos self) || (size <? last_size)
            then main_cleared self else self).
Proof.
  unfold truncation_main, bind, get. by destruct (_ || _).
Qed.

Lemma enqueue_caches_ok ln : preserves caches_ok (enqueue ln).
Proof.
  apply preserves_bind; [apply parse_caches_ok|]. intros [p|];
    [|apply preserves_ret].
  apply preserves_modify; intros s; by apply caches_ok_same.
Qed.

Lemma process_chunk_caches_ok chunk : preserves caches_ok (process_chunk chunk).
Proof.
  unfold process_chunk. destruct chunk; [apply preserves_ret|].
  apply preserves_bind; [apply preserves_get|]. intros self'.
  destruct (take_lines _ _) as [lines carry].
  apply preserves_bind;
    [apply preserves_modify; intros s; by apply caches_ok_same|]. intros _.
  apply preserves_for_each, enqueue_caches_ok.
Qed.

Lemma read_main_caches_ok content : preserves caches_ok (read_main content).
Proof.
  unfold read_main.
  apply preserves_bind; [apply preserves_or_raise|]. intros c.
  apply preserves_bind; [apply preserves_get|]. intros self.
  destruct (read_from (file_pos self) c) as [chunk pos].
  apply preserves_bind;
    [apply preserves_modify; intros s; by apply caches_ok_same|]. intros _.
  apply process_chunk_caches_ok.
Qed.

Lemma update_overlay_caches_ok i f : preserves caches_ok (update_overlay i f).
Proof. apply preserves_modify; intros s; by apply caches_ok_same. Qed.

Lemma overlay_caches_ok i : preserves caches_ok (overlay i).
Proof.
  apply preserves_bind; [apply preserves_get|]. intros self.
  apply preserves_or_raise.
Qed.

Lemma truncation_overlay_caches_ok i size last_size :
  preserves caches_ok (truncation_overlay i size last_size).
Proof.
  apply preserves_bind; [apply overlay_caches_ok|]. intros ov.
  destruct (_ || _); [apply update_overlay_caches_ok | apply preserves_ret].
Qed.

Lemma overlay_process_chunk_caches_ok i chunk :
  preserves caches_ok (overlay_process_chunk i chunk).
Proof.
  unfold overlay_process_chunk. destruct chunk; [apply preserves_ret|].
  apply preserves_bind; [apply overlay_caches_ok|]. intros ov'.
  destruct (take_lines _ _) as [lines carry].
  apply preserves_bind; [apply update_overlay_caches_ok|]. intros _.
  apply preserves_for_each. intros ln.
  apply preserves_bind; [apply parse_caches_ok|]. intros [p|];
    [apply update_overlay_caches_ok | apply preserves_ret].
Qed.

Lemma read_overlay_caches_ok i content :
  preserves caches_ok (read_overlay i content).
Proof.
  unfold read_overlay.
  apply preserves_bind; [apply preserves_or_raise|]. intros c.
  apply preserves_bind; [apply overlay_caches_ok|]. intros ov.
  destruct (read_from _ c) as [chunk pos].
  apply preserves_bind; [apply update_overlay_caches_ok|]. intros _.
  apply overlay_process_chunk_caches_ok.
Qed.

(** Every state of a monitor satisfies the invariant. *)
Lemma reachable_caches_ok self0 : reachable self0 -> caches_ok self0.
Proof.
  intros Hreach.
  induction Hreach as [|self Hr Hok|self self' Hr Hok Hadd|self s Hr Hok
                       |self size content last_size Hr Hok
                       |self i size content last_size Hr Hok
                       |self self' Hr Hok Et Eh].
  - by apply no_last_good_caches_ok.
  - by apply no_last_good_caches_ok.
  - unfold add_overlay in Hadd. destruct (_ <=? _)%nat; [done|].
    injection Hadd as Hadd. subst self'. by apply (caches_ok_same self).
  - by apply parse_caches_ok.
  - unfold read_loop_main_iter. destruct size as [size|]; [|done].
    pose proof (preserves_bind caches_ok (truncation_main size last_size)
                  (fun _ => read_main content)) as Hp.
    specialize (Hp ltac:(intros s0 Hs; rewrite truncation_main_run;
                         destruct (_ || _); [by apply no_last_good_caches_ok | done])
                   ltac:(intros ?; apply read_main_caches_ok) self Hok).
    destruct ((truncation_main size last_size;; read_main content) self)
      as [[[]|] self']; [done|]. by apply (caches_ok_same self').
  - unfold tail_iter. destruct size as [size|]; [|done]. cbn [snd].
    apply (preserves_bind caches_ok); [apply truncation_overlay_caches_ok| |done].
    intros _. apply read_overlay_caches_ok.
  - by apply (caches_ok_same self).
Qed.

End ParserFacts.

Section ParserClaims.

Import DataMonitor.

Lemma step_ok_finite qt qh qlt qlh :
  step_ok (Some (Fin qlt)) (Some (Fin qlh)) (Fin qt) (Fin qh) = true ->
  (Qabs (qt - qlt) <= 5)%Q /\ (Qabs (qh - qlh) <= 20)%Q.
Proof.
  unfold step_ok, MAX_TEMP_STEP_C, MAX_HUM_STEP_PCT.
  rewrite andb_true_iff, !negb_true_iff, !abs_sub_Fin, !gtb_Fin_false.
  by rewrite !Qabs_Qred.
Qed.

Lemma run_line_validated k self :
  caches_ok self -> line_ok k -> validated_answer self (run_line k self).
Proof.
  intros Hok Hk. destruct k as [t_abs sid temp hum| |]; [|done..].
  cbn [run_line].
  destruct (caches_ok_lookup self sid Hok Hk) as (lt & lh & Ht & Hh & Hc).
  rewrite (validate_run _ _ _ _ _ _ _ Ht Hh).
  destruct (_valid_ranges temp hum) eqn:Hr; [|done].
  destruct (step_ok lt lh temp hum) eqn:Hs; [|done].
  cbn [andb validated_answer]. split; [done|]. split; [|done].
  apply valid_ranges_in_ranges in Hr as (qt & qh & -> & -> & Hqt & Hqh).
  exists qt, qh. split_and!; try done; try apply Hqt; try apply Hqh.
  intros lt' Hlt'. rewrite Ht in Hlt'. injection Hlt' as ->.
  destruct Hc as [[[=] _]|(a & b & [= <-] & -> & Hab)].
  destruct Hab as (qlt & qlh & -> & -> & _).
  apply step_ok_finite in Hs as [Hst Hsh].
  exists qlt, qlh. rewrite Hh. by split_and!.
Qed.



(** The scenario of the specification: two lines within the steps are
    accepted, a third one 14 degrees above is rejected, and a first line
    on the other channel is accepted whatever its distance. *)
Example parser_scenario :
  let '(r1, s1) :=
    parse_log_line_abs_seconds (lit "PC 00:00.100,Sensor1,25.0,50.0") init in
  let '(r2, s2) :=
    parse_log_line_abs_seconds (lit "PC 00:00.350,Sensor1,26.0,51.0") s1 in
  let '(r3, s3) :=
    parse_log_line_abs_seconds (lit "PC 00:00.600,Sensor1,40.0,51.0") s2 in
  let '(r4, s4) :=
    parse_log_line_abs_seconds (lit "PC 00:00.850,Sensor2,-40.0,100.0") s3 in
  r1 = Ok (Some (Fin (1 # 10), 1, Fin 25, Fin 50)) /\
  r2 = Ok (Some (Fin (7 # 20), 1, Fin 26, Fin 51)) /\
  r3 = Ok None /\ s3 = s2 /\
  r4 = Ok (Some (Fin (17 # 20), 2, Fin (-40), Fin 100)).
Proof. vm_compute. repeat split. Qed.

(** The same scenario through the main tailer and the consumer: the main
    buffer holds two samples of channel 1, at the relative times 0 and
    0.25. *)
Example tailer_scenario :
  let log :=
    lit "PC 00:00.100,Sensor1,25.0,50.0" ++ [LF]
    ++ lit "PC 00:00.350,Sensor1,26.0,51.0" ++ [LF]
    ++ lit "PC 00:00.600,Sensor1,40.0,51.0" ++ [LF] in
  let monitor :=
    LivePlotterApp.drain_queue
      (snd (read_loop_main_iter (Some 93) (Some log) 0 init)) in
  deque.items (StreamBuffers.t1 (main monitor)) = [Fin 0; Fin (1 # 4)] /\
  deque.items (StreamBuffers.T1 (main monitor)) = [Fin 25; Fin 26] /\
  deque.items (StreamBuffers.H1 (main monitor)) = [Fin 50; Fin 51] /\
  deque.items (StreamBuffers.t2 (main monitor)) = [] /\
  queue monitor = [] /\ event_q monitor = [].
Proof. vm_compute. repeat split. Qed.

End ParserClaims.

Section DelimitedLabels.

Import DataMonitor.

Lemma valid_step_state sid temp hum self :
  snd (_valid_step sid temp hum self) = self.
Proof.
  unfold _valid_step, bind, get, or_raise, ret, raise.
  destruct (_last_good_temp self !! sid) as [lt|]; [|done].
  destruct (_last_good_hum self !! sid) as [lh|]; [|done].
  destruct lt, lh; try done.
  destruct (gtb _ _); [done|]. by destruct (gtb _ _).
Qed.

Lemma validate_accepts t_abs sid temp hum self :
  _valid_ranges temp hum = true ->
  fst (_valid_step sid temp hum self) = Ok true ->
  validate t_abs sid temp hum self
  = (Ok (Some (t_abs, sid, temp, hum)), accepted sid temp hum self).
Proof.
  intros Hr Hs. unfold validate. rewrite Hr. cbn [negb].
  unfold bind at 1. pose proof (valid_step_state sid temp hum self) as Hst.
  destruct (_valid_step sid temp hum self) as [r self']. simpl in Hs, Hst.
  by subst.
Qed.

(** C10. A row of 4 or 5 comma-separated fields whose numbers parse and
    whose label starts with "sensor" in any case is accepted as soon as
    its values pass the range and step checks; its channel is 1 if the
    label without its spaces ends with "1", and 2 otherwise -- whatever
    the label ends with.  "Sensor3" is a sample of channel 2. *)
Theorem delimited_label_not_ending_in_1_is_channel_2 :
  (forall (self : DataMonitor.t) (s : pystr) (row : list pystr)
          (t_txt label temp_txt hum_txt : pystr) (t_abs temp hum : pyfloat),
     let sid := if endswith (remove_spaces label) (lit "1") then 1 else 2 in
     s <> [] ->
     contains (lit "TS,Sensor,TempC,RH") s = false ->
     map strip (split "," s) = row ++ [t_txt; label; temp_txt; hum_txt] ->
     (length row <= 1)%nat ->
     float t_txt = Some t_abs ->
     float temp_txt = Some temp ->
     float hum_txt = Some hum ->
     startswith (lower label) (lit "sensor") = true ->
     _valid_ranges temp hum = true ->
     fst (_valid_step sid temp hum self) = Ok true ->
     parse_log_line_abs_seconds s self
     = (Ok (Some (t_abs, sid, temp, hum)), accepted sid temp hum self)
     /\ (endswith (remove_spaces label) (lit "1") = false -> sid = 2)) /\
  fst (parse_log_line_abs_seconds (lit "0.5,Sensor3,25.0,40.0") init)
  = Ok (Some (Fin (1 # 2), 2, Fin 25, Fin 40)).
Proof.
  split; [|reflexivity].
  intros self s row t_txt label temp_txt hum_txt t_abs temp hum sid
         Hne Hhdr Hparts Hrow Ht Htemp Hhum Hlabel Hranges Hstep.
  split; [|by intros E; unfold sid; rewrite E].
  unfold parse_log_line_abs_seconds.
  destruct s as [|c s']; [done|]. rewrite Hhdr, Hparts.
  assert (delimited_row (row ++ [t_txt; label; temp_txt; hum_txt]) self
          = (Ok (Some (Some (t_abs, sid, temp, hum))), accepted sid temp hum self))
    as Hdel.
  { unfold delimited_row, delimited_fields, item.
    destruct row as [|r0 [|r1 row]]; [| |simpl in Hrow; lia];
      cbn [app length Nat.eqb lookup list_lookup];
      unfold bind, or_raise, ret;
      rewrite Ht, Htemp, Hhum; cbn beta iota; rewrite Hlabel;
      change (sensor_id label) with sid;
      by rewrite (validate_accepts _ _ _ _ _ Hranges Hstep). }
  assert ((length (row ++ [t_txt; label; temp_txt; hum_txt]) =? 4)%nat
          || (length (row ++ [t_txt; label; temp_txt; hum_txt]) =? 5)%nat = true)
    as -> by (by destruct row as [|r0 [|r1 row]]; [| |simpl in Hrow; lia]).
  unfold bind, try_except. by rewrite Hdel.
Qed.

Lemma delimited_label_not_ending_in_1_is_channel_2_witness :
  parse_log_line_abs_seconds (lit "7,0.5,SENSOR 3,25.0,40.0") init
  = (Ok (Some (Fin (1 # 2), 2, Fin 25, Fin 40)),
     accepted 2 (Fin 25) (Fin 40) init).
Proof.
  apply (proj1 delimited_label_not_ending_in_1_is_channel_2
           init (lit "7,0.5,SENSOR 3,25.0,40.0") [lit "7"]
           (lit "0.5") (lit "SENSOR 3") (lit "25.0") (lit "40.0")
           (Fin (1 # 2)) (Fin 25) (Fin 40));
    first [reflexivity | discriminate | simpl; lia].
Defined.

End DelimitedLabels.

(** ** Truncation *)

Section Truncation.

Import DataMonitor.

Lemma truncation_overlay_run i ov size last_size self :
  overlays self !! i = Some ov ->
  truncation_overlay i size last_size self
  = (Ok tt,
     if (size <? OverlayItem.file_pos ov) || (size <? last_size)
     then set_overlays (<[i := overlay_cleared ov]> (overlays self)) self
     else self).
Proof.
  intros Hov. unfold truncation_overlay, overlay, bind, get, or_raise, ret.
  rewrite Hov. destruct (_ || _); [|done].
  unfold update_overlay, modify. do 2 f_equal.
  apply list_eq. intros j. destruct (decide (i = j)) as [<-|Hne].
  - rewrite list_lookup_alter_eq, Hov.
    by rewrite list_lookup_insert_eq by (by eapply lookup_lt_Some).
  - by rewrite list_lookup_alter_ne, list_lookup_insert_ne.
Qed.

(** C4 (amended). On a truncation -- a size below the read offset or
    below the last size seen -- the primary tailer sets its offset to 0,
    empties its carry, clears its time anchor and both last-good
    dictionaries, and posts a RESET event; the rest of the iteration is
    that of a tailer at offset 0.  An overlay tailer sets the overlay's
    offset to 0, empties its carry and clears its anchor, keeps its
    buffers, and goes on from offset 0; the last-good dictionaries are the
    monitor's, not the overlay's, and it leaves them as they are. *)
Theorem truncation_resets_the_source_state :
  (forall (self : DataMonitor.t) (size last_size : Z) (content : option pystr),
     size < file_pos self \/ size < last_size ->
     let self' := main_cleared self in
     truncation_main size last_size self = (Ok tt, self') /\
     file_pos self' = 0 /\ _carry self' = [] /\
     main_t_start_abs self' = None /\
     _last_good_temp self' = no_last_good /\
     _last_good_hum self' = no_last_good /\
     event_q self' = event_q self ++ [RESET "Main file truncated/cleared"] /\
     (0 <= size ->
      read_loop_main_iter (Some size) content last_size self
      = read_loop_main_iter (Some size) content 0 self')) /\
  (forall (self : DataMonitor.t) (i : nat) (ov : OverlayItem.t)
          (size last_size : Z) (content : option pystr),
     overlays self !! i = Some ov ->
     size < OverlayItem.file_pos ov \/ size < last_size ->
     let ov' := overlay_cleared ov in
     let self' := set_overlays (<[i := ov']> (overlays self)) self in
     truncation_overlay i size last_size self = (Ok tt, self') /\
     OverlayItem.file_pos ov' = 0 /\ OverlayItem._carry ov' = [] /\
     OverlayItem.t_start_abs ov' = None /\
     OverlayItem.buffers ov' = OverlayItem.buffers ov /\
     _last_good_temp self' = _last_good_temp self /\
     _last_good_hum self' = _last_good_hum self /\
     (0 <= size ->
      tail_iter i (Some size) content last_size self
      = tail_iter i (Some size) content 0 self')).
Proof.
  split.
  - intros self size last_size content Htr self'.
    assert ((size <? file_pos self) || (size <? last_size) = true) as Hb.
    { apply orb_true_iff. destruct Htr; [left | right]; by apply Z.ltb_lt. }
    split_and!; try done.
    + by rewrite truncation_main_run, Hb.
    + intros Hsize. unfold read_loop_main_iter, bind.
      rewrite !truncation_main_run, Hb. fold self'.
      assert ((size <? file_pos self') || (size <? 0) = false) as ->; [|done].
      apply orb_false_iff. split; apply Z.ltb_ge; [simpl; lia | lia].
  - intros self i ov size last_size content Hov Htr ov' self'.
    assert ((size <? OverlayItem.file_pos ov) || (size <? last_size) = true) as Hb.
    { apply orb_true_iff. destruct Htr; [left | right]; by apply Z.ltb_lt. }
    assert (overlays self' !! i = Some ov') as Hov'.
    { unfold self'. simpl. apply list_lookup_insert_eq. by eapply lookup_lt_Some. }
    split_and!; try done.
    + by rewrite (truncation_overlay_run _ ov), Hb.
    + intros Hsize. unfold tail_iter, bind.
      rewrite (truncation_overlay_run _ ov), Hb by done. fold ov' self'.
      rewrite (truncation_overlay_run _ ov') by done.
      assert ((size <? OverlayItem.file_pos ov') || (size <? 0) = false) as ->; [|done].
      apply orb_false_iff. split; apply Z.ltb_ge; [simpl; lia | lia].
Qed.

Lemma truncation_resets_the_source_state_witness :
  let self := one_overlay_at_20 in
  exists ov,
    overlays self !! 0%nat = Some ov /\ OverlayItem.file_pos ov = 20 /\
    truncation_overlay 0 0 20 self
    = (Ok tt, set_overlays (<[0%nat := overlay_cleared ov]> (overlays self)) self).
Proof.
  intros self.
  destruct (overlays self !! 0%nat) as [ov|] eqn:Hov; [|by vm_compute in Hov].
  exists ov. split; [done|].
  assert (OverlayItem.file_pos ov = 20) as Hpos.
  { vm_compute in Hov. by injection Hov as <-. }
  split; [done|].
  apply (proj2 truncation_resets_the_source_state self 0%nat ov 0 20 None Hov).
  left. lia.
Defined.

(** C4, as stated, fails for an overlay tailer: after the overlay's file
    is truncated to nothing (size 0 below the offset 20) the last-good
    values of channel 1 are still 25 and 40, and the first line of the new
    file, 15 degrees away, is rejected against them. *)
Lemma overlay_truncation_keeps_last_good :
  let self := one_overlay_at_20 in
  let truncated := snd (tail_iter 0 (Some 0) (Some []) 20 self) in
  let after :=
    snd (tail_iter 0 (Some 20) (Some (lit "0,Sensor1,40.0,40.0" ++ [LF])) 0
                   truncated) in
  (OverlayItem.file_pos <$> overlays self !! 0%nat) = Some 20 /\
  (OverlayItem.file_pos <$> overlays truncated !! 0%nat) = Some 0 /\
  _last_good_temp truncated !! 1 = Some (Some (Fin 25)) /\
  _last_good_hum truncated !! 1 = Some (Some (Fin 40)) /\
  _last_good_temp truncated <> no_last_good /\
  (deque.items <$> (StreamBuffers.T1 <$> (OverlayItem.buffers <$>
     overlays after !! 0%nat))) = Some [Fin 25].
Proof.
  split_and!; try (vm_compute; reflexivity).
  intros E. apply (f_equal (fun m => m !! 1)) in E. vm_compute in E. discriminate.
Qed.

End Truncation.

(** ** Lines split across reads *)

Section Reassembly.

Import DataMonitor.

Lemma splitlines_from_no_linebreak s : forall cur,
  no_linebreak s -> rev cur ++ s <> [] ->
  splitlines_from cur s = [rev cur ++ s].
Proof.
  induction s as [|c s IH]; intros cur Hnl Hne; simpl.
  - rewrite app_nil_r in *. destruct cur; [done|]. done.
  - apply Forall_cons in Hnl as [Hc Hs].
    assert (Ascii.eqb c CR = false) as ->.
    { destruct (Ascii.eqb_spec c CR) as [->|]; [by vm_compute in Hc | done]. }
    rewrite Hc. rewrite IH; [|done|]; simpl; rewrite <- app_assoc; [done|].
    by destruct (rev cur).
Qed.

Lemma no_linebreak_not_terminated (l : pystr) (c : ascii) :
  no_linebreak l -> islinebreak c = true -> endswith l [c] = false.
Proof.
  intros Hnl Hc. unfold endswith. cbn [rev app].
  destruct (rev l) as [|d r] eqn:E; [done|]. simpl.
  assert (In d l) as Hd by (apply in_rev; rewrite E; by left).
  apply List.Forall_forall with (x := d) in Hnl; [|done].
  destruct (Ascii.eqb_spec d c) as [->|]; [congruence | done].
Qed.

(** A fragment without a line boundary is kept whole as the carry. *)
Lemma take_lines_fragment carry chunk :
  no_linebreak (carry ++ chunk) -> carry ++ chunk <> [] ->
  take_lines carry chunk = ([], carry ++ chunk).
Proof.
  intros Hnl Hne. unfold take_lines, splitlines_keepends.
  rewrite (splitlines_from_no_linebreak _ []) by done. cbn [rev app last].
  by rewrite !no_linebreak_not_terminated.
Qed.

Lemma take_lines_carried carry c1 c2 :
  take_lines (carry ++ c1) c2 = take_lines carry (c1 ++ c2).
Proof. unfold take_lines. by rewrite app_assoc. Qed.

Lemma read_from_end (before chunk : pystr) :
  read_from (Z.of_nat (length before)) (before ++ chunk)
  = (chunk, Z.of_nat (length (before ++ chunk))).
Proof.
  unfold read_from. rewrite Nat2Z.id, drop_app_length. f_equal.
  rewrite length_app. lia.
Qed.

(** an iteration of the main tailer that sees no truncation and can
    open the file *)
Lemma main_iter_growing (self : DataMonitor.t) (size last_size : Z)
    (content : pystr) :
  file_pos self <= size -> last_size <= size ->
  read_loop_main_iter (Some size) (Some content) last_size self
  = let '(chunk, pos) := read_from (file_pos self) content in
    match process_chunk chunk (set_file_pos pos self) with
    | (Ok _, self') => (size, self')
    | (Raise, self') => (size, set_event_q (event_q self' ++ [ERROR]) self')
    end.
Proof.
  intros Hpos Hlast. unfold read_loop_main_iter, bind.
  rewrite truncation_main_run.
  destruct (Z.ltb_spec size (file_pos self)); [lia|].
  destruct (Z.ltb_spec size last_size); [lia|]. cbn [orb].
  unfold read_main, bind, or_raise, ret, get, modify.
  by destruct (read_from (file_pos self) content) as [chunk pos].
Qed.

Lemma process_chunk_fragment (self : DataMonitor.t) (chunk : pystr) :
  chunk <> [] -> no_linebreak (_carry self ++ chunk) ->
  process_chunk chunk self = (Ok tt, set_carry (_carry self ++ chunk) self).
Proof.
  intros Hne Hnl. unfold process_chunk. destruct chunk as [|a chunk']; [done|].
  unfold bind, get, modify.
  rewrite take_lines_fragment; [done | done | by destruct (_carry self)].
Qed.

(** A line that arrives in two reads, the first without a line boundary,
    leaves the tailer in the state a single read of the whole leaves it
    in. *)
Lemma split_read_equals_single_read (self : DataMonitor.t)
    (before c1 c2 : pystr) (last_size : Z) :
  file_pos self = Z.of_nat (length before) ->
  last_size <= Z.of_nat (length before) ->
  c1 <> [] -> c2 <> [] -> no_linebreak (_carry self ++ c1) ->
  let size1 := Z.of_nat (length (before ++ c1)) in
  let size2 := Z.of_nat (length (before ++ c1 ++ c2)) in
  let whole := Some (before ++ c1 ++ c2) in
  let after_first :=
    read_loop_main_iter (Some size1) (Some (before ++ c1)) last_size self in
  _carry (snd after_first) = _carry self ++ c1 /\
  queue (snd after_first) = queue self /\
  read_loop_main_iter (Some size2) whole (fst after_first) (snd after_first)
  = read_loop_main_iter (Some size2) whole last_size self.
Proof.
  intros Hpos Hlast Hc1 Hc2 Hnl size1 size2 whole after_first.
  assert (size1 = Z.of_nat (length before) + Z.of_nat (length c1)) as Hs1
    by (unfold size1; rewrite length_app; lia).
  assert (size2 = size1 + Z.of_nat (length c2)) as Hs2
    by (unfold size2, size1; rewrite !length_app; lia).
  assert (after_first
          = (size1, set_carry (_carry self ++ c1) (set_file_pos size1 self)))
    as ->.
  { unfold after_first. rewrite main_iter_growing by lia.
    rewrite Hpos, read_from_end. fold size1.
    by rewrite process_chunk_fragment. }
  cbn [fst snd]. split; [done|]. split; [done|]. unfold whole.
  rewrite (main_iter_growing self) by lia.
  rewrite main_iter_growing by (cbn [set_carry set_file_pos file_pos]; lia).
  cbn [set_carry set_file_pos file_pos]. rewrite Hpos.
  rewrite read_from_end. fold size2.
  replace (before ++ c1 ++ c2) with ((before ++ c1) ++ c2)
    by (by rewrite app_assoc).
  unfold size1. rewrite read_from_end. fold size1.
  replace (Z.of_nat (length ((before ++ c1) ++ c2))) with size2
    by (unfold size2; by rewrite app_assoc).
  unfold process_chunk.
  destruct c1 as [|a c1']; [done|]. destruct c2 as [|b c2']; [done|].
  cbn [app]. unfold bind at 1 3, get.
  cbn [set_carry set_file_pos _carry].
  rewrite take_lines_carried.
  change ((a :: c1') ++ b :: c2') with (a :: c1' ++ b :: c2').
  destruct (take_lines (_carry self) (a :: c1' ++ b :: c2')) as [lines carry].
  reflexivity.
Qed.

(** C9 (amended). The chunk "Sensor1,2" has no line boundary and is kept
    as carry; the chunk "5.0,40.0\n" of the next read completes the line
    "Sensor1,25.0,40.0", and the tailer ends in the state a single read of
    the whole line leaves it in.  That line has three fields and no time:
    neither format accepts it, and no sample is queued.  A split line that
    has a time field, "0.5,Sensor1,2" then "5.0,40.0\n", yields exactly
    one sample.  In general two reads, the first without a line boundary,
    are one read of the whole. *)
Theorem split_line_is_reassembled :
  (let first := lit "Sensor1,2" in
   let second := lit "5.0,40.0" ++ [LF] in
   let after_first := read_loop_main_iter (Some 9) (Some first) 0 init in
   let after_second :=
     read_loop_main_iter (Some 18) (Some (first ++ second))
                         (fst after_first) (snd after_first) in
   let at_once := read_loop_main_iter (Some 18) (Some (first ++ second)) 0 init in
   _carry (snd after_first) = first /\ queue (snd after_first) = [] /\
   after_second = at_once /\
   queue (snd after_second) = [] /\ _carry (snd after_second) = [] /\
   file_pos (snd after_second) = 18 /\ event_q (snd after_second) = []) /\
  (let first := lit "0.5,Sensor1,2" in
   let second := lit "5.0,40.0" ++ [LF] in
   let after_first := read_loop_main_iter (Some 13) (Some first) 0 init in
   let after_second :=
     read_loop_main_iter (Some 22) (Some (first ++ second))
                         (fst after_first) (snd after_first) in
   let at_once := read_loop_main_iter (Some 22) (Some (first ++ second)) 0 init in
   _carry (snd after_first) = first /\ queue (snd after_first) = [] /\
   after_second = at_once /\
   queue (snd after_second) = [(Fin (1 # 2), 1, Fin 25, Fin 40)]) /\
  (forall (self : DataMonitor.t) (before c1 c2 : pystr) (last_size : Z),
     file_pos self = Z.of_nat (length before) ->
     last_size <= Z.of_nat (length before) ->
     c1 <> [] -> c2 <> [] -> no_linebreak (_carry self ++ c1) ->
     let size1 := Z.of_nat (length (before ++ c1)) in
     let size2 := Z.of_nat (length (before ++ c1 ++ c2)) in
     let whole := Some (before ++ c1 ++ c2) in
     let after_first :=
       read_loop_main_iter (Some size1) (Some (before ++ c1)) last_size self in
     _carry (snd after_first) = _carry self ++ c1 /\
     queue (snd after_first) = queue self /\
     read_loop_main_iter (Some size2) whole (fst after_first) (snd after_first)
     = read_loop_main_iter (Some size2) whole last_size self).
Proof.
  split; [|split].
  - vm_compute. repeat split.
  - vm_compute. repeat split.
  - apply split_read_equals_single_read.
Qed.

Lemma split_line_is_reassembled_witness :
  let first := lit "0.5,Sensor1,2" in
  let second := lit "5.0,40.0" ++ [LF] in
  let after_first := read_loop_main_iter (Some 13) (Some first) 0 init in
  read_loop_main_iter (Some 22) (Some (first ++ second))
                      (fst after_first) (snd after_first)
  = read_loop_main_iter (Some 22) (Some (first ++ second)) 0 init.
Proof.
  intros first second after_first.
  refine (proj2 (proj2 (proj2 (proj2 split_line_is_reassembled)
                          init [] first second 0 _ _ _ _ _))).
  - reflexivity.
  - simpl; lia.
  - discriminate.
  - discriminate.
  - unfold no_linebreak. simpl. repeat constructor.
Defined.

(** C9, as stated, fails: the two reads of the specification queue no
    sample, not exactly one. *)
Lemma split_sensor1_line_yields_no_sample :
  let first := lit "Sensor1,2" in
  let second := lit "5.0,40.0" ++ [LF] in
  let after_first := read_loop_main_iter (Some 9) (Some first) 0 init in
  let after_second :=
    read_loop_main_iter (Some 18) (Some (first ++ second))
                        (fst after_first) (snd after_first) in
  queue (snd after_second) = [] /\
  length (queue (snd after_second)) <> 1%nat /\
  fst (parse_log_line_abs_seconds (lit "Sensor1,25.0,40.0") init) = Ok None.
Proof. vm_compute. repeat split; discriminate. Qed.

End Reassembly.

(** ** One last-good state for all sources *)

Section Channels.

Import DataMonitor.

Lemma parse_all_cons s ls self :
  fst (parse_all (s :: ls) self)
  = fst (parse_log_line_abs_seconds s self)
    :: fst (parse_all ls (snd (parse_log_line_abs_seconds s self))).
Proof.
  cbn [parse_all]. destruct (parse_log_line_abs_seconds s self) as [r self'].
  cbn [fst snd]. by destruct (parse_all ls self').
Qed.

Lemma validate_init t_abs sid temp hum :
  sid = 1 \/ sid = 2 ->
  validate t_abs sid temp hum init
  = if _valid_ranges temp hum
    then (Ok (Some (t_abs, sid, temp, hum)), accepted sid temp hum init)
    else (Ok None, init).
Proof.
  intros Hsid. rewrite (validate_run _ _ _ _ _ None None).
  - cbn [step_ok]. by rewrite andb_true_r.
  - by destruct Hsid as [->| ->].
  - by destruct Hsid as [->| ->].
Qed.

Lemma init_caches_ok : caches_ok init.
Proof. by apply no_last_good_caches_ok. Qed.

Lemma agree_on_accepted_other c sid temp hum self1 self2 :
  sid <> c -> agree_on c self1 self2 ->
  agree_on c (accepted sid temp hum self1) self2.
Proof.
  intros Hne [Ht Hh]. unfold agree_on, accepted; simpl.
  by rewrite !lookup_insert_ne.
Qed.

Lemma agree_on_accepted_both c temp hum self1 self2 :
  agree_on c (accepted c temp hum self1) (accepted c temp hum self2).
Proof. unfold agree_on, accepted; simpl. by rewrite !lookup_insert_eq. Qed.

(** The samples of a channel depend on the records of that channel only. *)
Lemma parse_all_channel c ls : forall self1 self2,
  caches_ok self1 -> caches_ok self2 -> agree_on c self1 self2 ->
  List.filter (on_channel c) (fst (parse_all ls self1))
  = List.filter (on_channel c)
      (fst (parse_all (List.filter (record_of c) ls) self2)).
Proof.
  induction ls as [|s ls IH]; intros self1 self2 Hok1 Hok2 Hagree; [done|].
  rewrite parse_all_cons. cbn [List.filter].
  destruct (parse_line s) as (k & Hk & Hs).
  pose proof (parse_caches_ok s self1 Hok1) as Hok1'.
  pose proof (parse_caches_ok s self2 Hok2) as Hok2'.
  unfold record_of at 1.
  rewrite (Hs init init_caches_ok), (Hs self1 Hok1) in *.
  destruct k as [t_abs sid temp hum| |]; cbn [run_line] in *;
    [|by apply IH..].
  rewrite validate_init by exact Hk.
  destruct (caches_ok_lookup self1 sid Hok1 Hk) as (lt1 & lh1 & Ht1 & Hh1 & _).
  rewrite (validate_run _ _ _ _ _ _ _ Ht1 Hh1) in *.
  destruct (_valid_ranges temp hum) eqn:Hr; cbn [andb fst snd on_channel];
    [|by apply IH].
  destruct (Z.eqb_spec sid c) as [->|Hne].
  - rewrite parse_all_cons, (Hs self2 Hok2) in *. cbn [run_line] in *.
    destruct Hagree as [Et Eh].
    rewrite (validate_run _ _ _ _ self2 lt1 lh1) in * by congruence.
    rewrite Hr in *. cbn [andb] in *.
    destruct (step_ok lt1 lh1 temp hum); cbn [fst snd List.filter on_channel] in *.
    + rewrite Z.eqb_refl. f_equal. apply IH; [done..|].
      apply agree_on_accepted_both.
    + by apply IH.
  - destruct (step_ok lt1 lh1 temp hum); cbn [fst snd on_channel] in *.
    + destruct (Z.eqb_spec sid c); [done|]. apply IH; [done..|].
      by apply agree_on_accepted_other.
    + by apply IH.
Qed.

Lemma enqueue_last_good ln self :
  let after := snd (parse_log_line_abs_seconds (strip ln) self) in
  _last_good_temp (snd (enqueue ln self)) = _last_good_temp after /\
  _last_good_hum (snd (enqueue ln self)) = _last_good_hum after.
Proof.
  unfold enqueue, bind.
  destruct (parse_log_line_abs_seconds (strip ln) self) as [[[p|]|] self'];
    done.
Qed.

Lemma overlay_enqueue_last_good i ln self :
  let after := snd (parse_log_line_abs_seconds (strip ln) self) in
  _last_good_temp (snd (overlay_enqueue i ln self)) = _last_good_temp after /\
  _last_good_hum (snd (overlay_enqueue i ln self)) = _last_good_hum after.
Proof.
  unfold overlay_enqueue, bind.
  destruct (parse_log_line_abs_seconds (strip ln) self) as [[[p|]|] self'];
    done.
Qed.

(** C2 (amended). The last-good values are two dictionaries of the
    monitor, keyed by the channel id 1 or 2, and there is one monitor for
    the primary source and all live overlays: a line of any source is
    validated against, and stored in, the same values.  What a line
    reads and updates is the entry of its own channel: a sample of
    channel [c] is accepted alike in two states that agree on channel
    [c]; a line that is not accepted on [c] leaves the values of [c] as
    they were; and in any sequence of lines, from whatever sources in
    whatever order, the samples accepted on [c] are those accepted when
    only the records of channel [c] are processed. *)
Theorem last_good_state_is_shared_per_channel :
  (forall (self : DataMonitor.t) (i : nat) (ln : pystr),
     let after := snd (parse_log_line_abs_seconds (strip ln) self) in
     _last_good_temp (snd (enqueue ln self)) = _last_good_temp after /\
     _last_good_hum (snd (enqueue ln self)) = _last_good_hum after /\
     _last_good_temp (snd (overlay_enqueue i ln self)) = _last_good_temp after /\
     _last_good_hum (snd (overlay_enqueue i ln self)) = _last_good_hum after) /\
  (forall (self1 self2 : DataMonitor.t) (s : pystr) (c : Z),
     reachable self1 -> reachable self2 -> agree_on c self1 self2 ->
     on_channel c (fst (parse_log_line_abs_seconds s self1)) = true ->
     fst (parse_log_line_abs_seconds s self2)
     = fst (parse_log_line_abs_seconds s self1) /\
     agree_on c (snd (parse_log_line_abs_seconds s self1))
                (snd (parse_log_line_abs_seconds s self2))) /\
  (forall (self : DataMonitor.t) (s : pystr) (c : Z),
     reachable self ->
     on_channel c (fst (parse_log_line_abs_seconds s self)) = false ->
     agree_on c (snd (parse_log_line_abs_seconds s self)) self) /\
  (forall (ls : list pystr) (self : DataMonitor.t) (c : Z),
     reachable self ->
     List.filter (on_channel c) (fst (parse_all ls self))
     = List.filter (on_channel c)
         (fst (parse_all (List.filter (record_of c) ls) self))).
Proof.
  split_and!.
  - intros self i ln after.
    destruct (enqueue_last_good ln self) as [? ?].
    destruct (overlay_enqueue_last_good i ln self) as [? ?]. done.
  - intros self1 self2 s c Hr1 Hr2 [Et Eh] Hon.
    apply reachable_caches_ok in Hr1, Hr2.
    destruct (parse_line s) as (k & Hk & Hs).
    rewrite (Hs self1 Hr1), (Hs self2 Hr2) in *.
    destruct k as [t_abs sid temp hum| |]; [|done..]. cbn [run_line] in *.
    destruct (caches_ok_lookup self1 sid Hr1 Hk) as (lt & lh & Ht & Hh & _).
    rewrite (validate_run _ _ _ _ _ _ _ Ht Hh) in *.
    destruct (_valid_ranges temp hum && step_ok lt lh temp hum) eqn:Hacc;
      [|done].
    cbn [fst on_channel] in Hon. apply Z.eqb_eq in Hon as ->.
    rewrite (validate_run _ _ _ _ self2 lt lh) by congruence.
    rewrite Hacc. split; [done|]. apply agree_on_accepted_both.
  - intros self s c Hr Hoff. apply reachable_caches_ok in Hr.
    destruct (parse_line s) as (k & Hk & Hs). rewrite (Hs self Hr) in *.
    destruct k as [t_abs sid temp hum| |]; [|done..]. cbn [run_line] in *.
    destruct (caches_ok_lookup self sid Hr Hk) as (lt & lh & Ht & Hh & _).
    rewrite (validate_run _ _ _ _ _ _ _ Ht Hh) in *.
    destruct (_valid_ranges temp hum && step_ok lt lh temp hum); [|done].
    cbn [fst snd on_channel] in *. apply Z.eqb_neq in Hoff.
    by apply agree_on_accepted_other.
  - intros ls self c Hr. apply reachable_caches_ok in Hr.
    by apply parse_all_channel.
Qed.

Lemma last_good_state_is_shared_per_channel_witness :
  let ls := [lit "0,Sensor2,10,10"; lit "0,Sensor1,25.0,40.0";
             lit "1,Sensor2,50,50"; lit "1,Sensor1,26,41"] in
  List.filter (on_channel 1) (fst (parse_all ls init))
  = [Ok (Some (Fin 0, 1, Fin 25, Fin 40)); Ok (Some (Fin 1, 1, Fin 26, Fin 41))]
  /\ List.filter (on_channel 1) (fst (parse_all ls init))
     = List.filter (on_channel 1)
         (fst (parse_all (List.filter (record_of 1) ls) init)).
Proof.
  intros ls. split; [reflexivity|].
  apply (proj2 (proj2 (proj2 last_good_state_is_shared_per_channel))).
  apply reach_init.
Defined.

(** C2, as stated, fails: the line "0,Sensor1,40.0,40.0" of the primary
    source is accepted when no other source has processed a line, and
    rejected when an overlay has processed "0,Sensor1,25.0,40.0" before,
    because the overlay's sample became the last-good value the primary
    line is compared with. *)
Lemma overlay_line_changes_primary_decision :
  let line := lit "0,Sensor1,40.0,40.0" ++ [LF] in
  let alone := snd (read_loop_main_iter (Some 20) (Some line) 0 one_overlay) in
  let interleaved :=
    snd (read_loop_main_iter (Some 20) (Some line) 0 one_overlay_at_20) in
  queue alone = [(Fin 0, 1, Fin 40, Fin 40)] /\
  queue interleaved = [] /\
  _last_good_temp one_overlay_at_20 !! 1 = Some (Some (Fin 25)).
Proof. vm_compute. repeat split. Qed.

End Channels.

(** ** The matcher and the relation it implements *)

Section Matcher.

Lemma exec_star_nil p g k : exec (Star p) [] g k = k [] g.
Proof. reflexivity. Qed.

Lemma exec_star_cons p c s g k :
  exec (Star p) (c :: s) g k
  = if p c then
      match exec (Star p) s g k with
      | Some m => Some m
      | None => k (c :: s) g
      end
    else k (c :: s) g.
Proof. reflexivity. Qed.

Lemma exec_star_matches p g k : forall s m,
  exec (Star p) s g k = Some m ->
  exists s', matches (Star p) s g s' g /\ k s' g = Some m.
Proof.
  induction s as [|c s IHs]; intros m H.
  - exists []. split; [constructor | done].
  - rewrite exec_star_cons in H. destruct (p c) eqn:Hp.
    + destruct (exec (Star p) s g k) as [m'|] eqn:Hstar.
      * injection H as ->. destruct (IHs m eq_refl) as (s' & Hm & Hk).
        exists s'. split; [by constructor | done].
      * exists (c :: s). split; [constructor | done].
    + exists (c :: s). split; [constructor | done].
Qed.

(** Every match the backtracking matcher finds is a match of the
    relation, continued by its continuation. *)
Lemma exec_matches (r : regex) : forall s g k m,
  exec r s g k = Some m ->
  exists s' g', matches r s g s' g' /\ k s' g' = Some m.
Proof.
  induction r as [|p|a IHa b IHb|p|a IHa|name a IHa|];
    intros s g k m H; [cbn [exec] in H..| |cbn [exec] in H|cbn [exec] in H|cbn [exec] in H].
  - exists s, g. split; [constructor | done].
  - destruct s as [|c s]; [done|]. destruct (p c) eqn:Hp; [|done].
    exists s, g. split; [by constructor | done].
  - apply IHa in H as (s1 & g1 & Ha & H).
    apply IHb in H as (s2 & g2 & Hb & H).
    exists s2, g2. split; [by econstructor | done].
  - apply exec_star_matches in H as (s' & Hm & Hk). by exists s', g.
  - destruct (exec a s g k) as [m'|] eqn:Ha.
    + injection H as ->. apply IHa in Ha as (s' & g' & Hm & Hk).
      exists s', g'. split; [by apply matches_opt_some | done].
    + exists s, g. split; [apply matches_opt_none | done].
  - apply IHa in H as (s' & g' & Hm & Hk).
    eexists s', _. split; [by constructor | done].
  - destruct s as [|c [|d s]]; [| |done].
    + exists [], g. split; [constructor | done].
    + destruct (Ascii.eqb_spec c LF) as [->|]; [|done].
      exists [LF], g. split; [constructor | done].
Qed.

(** A match consumes a prefix. *)
Lemma matches_prefix r s g s' g' :
  matches r s g s' g' ->
  exists w, s = w ++ s' /\ take (length s - length s') s = w.
Proof.
  assert (forall (w s' : pystr), take (length (w ++ s') - length s') (w ++ s') = w) as Htake.
  { intros w t. rewrite length_app.
    replace (length w + length t - length t)%nat with (length w) by lia.
    by rewrite take_app_length. }
  induction 1 as [s g|p c s g Hp|a b s g s1 g1 s2 g2 _ [w1 [-> _]] _ [w2 [-> _]]
                  |p s g|p c s g s' Hp _ [w [-> _]]
                  |a s g s' g' _ IH|a s g|name a s g s' g' _ [w [-> _]]|g|g].
  - exists []. split; [done | apply (Htake [])].
  - exists [c]. split; [done | apply (Htake [c])].
  - exists (w1 ++ w2). rewrite <- app_assoc. split; [done|].
    rewrite app_assoc. apply Htake.
  - exists []. split; [done | apply (Htake [])].
  - exists (c :: w). split; [done | apply (Htake (c :: w))].
  - done.
  - exists []. split; [done | apply (Htake [])].
  - exists w. split; [done | apply Htake].
  - by exists [].
  - by exists [].
Qed.

Lemma matches_groupless r s g s' g' :
  groupless r = true -> matches r s g s' g' -> g' = g.
Proof.
  intros Hg Hm. induction Hm; cbn [groupless] in Hg; try done.
  - apply andb_true_iff in Hg as [Ha Hb]. rewrite IHHm2, IHHm1; done.
  - by apply IHHm.
Qed.

Lemma matches_chr c s g s' g' :
  matches (Chr c) s g s' g' -> s = c :: s' /\ g' = g.
Proof.
  inversion 1 as [|p d t h Hp| | | | | | | |]; subst.
  by apply Ascii.eqb_eq in Hp as ->.
Qed.

Lemma matches_star p s g s' g' :
  matches (Star p) s g s' g' ->
  g' = g /\ exists w, s = w ++ s' /\ Forall (fun c => p c = true) w.
Proof.
  remember (Star p) as r eqn:Er. induction 1; try done.
  - split; [done|]. by exists [].
  - injection Er as ->. destruct (IHmatches eq_refl) as [_ (w & -> & Hw)].
    split; [done|]. exists (c :: w). split; [done | by constructor].
Qed.

Lemma matches_digits s g s' g' :
  matches digits s g s' g' ->
  g' = g /\ exists w, s = w ++ s' /\ digit_string w.
Proof.
  unfold digits, Plus. inversion 1 as [| |a b t h s1 g1 s2 g2 Hc Hs| | | | | | |]; subst.
  inversion Hc as [|p d t h Hp| | | | | | | |]; subst.
  apply matches_star in Hs as [-> (w & -> & Hw)].
  split; [done|]. exists (d :: w). split; [done|].
  split; [done | by constructor].
Qed.

Lemma matches_decimal s g s' g' :
  matches decimal s g s' g' ->
  g' = g /\ exists w, s = w ++ s' /\ decimal_string w.
Proof.
  unfold decimal, seqs. cbn [foldr].
  inversion 1 as [| |a b t h s1 g1 s2 g2 Hsign Hrest| | | | | | |]; subst.
  inversion Hrest as [| |a b t h s3 g3 s4 g4 Hint Hrest'| | | | | | |]; subst.
  inversion Hrest' as [| |a b t h s5 g5 s6 g6 Hfrac Heps| | | | | | |]; subst.
  inversion Heps; subst.
  apply matches_digits in Hint as [-> (ip & -> & Hip)].
  assert (g1 = g /\ exists sign, s = sign ++ ip ++ s3
                                 /\ (sign = [] \/ sign = lit "-")) as [-> (sign & -> & Hsg)].
  { inversion Hsign as [| | | | |a t h t' h' Hminus|a t h| | |]; subst.
    - apply matches_chr in Hminus as [-> ->]. split; [done|].
      exists (lit "-"). split; [done | by right].
    - split; [done|]. exists []. split; [done | by left]. }
  assert (g' = g /\ exists frac, s3 = frac ++ s'
            /\ (frac = [] \/ exists fp, frac = "."%char :: fp /\ digit_string fp))
    as [-> (frac & -> & Hfrac')].
  { inversion Hfrac as [| | | | |a t h t' h' Hsome|a t h| | |]; subst.
    - inversion Hsome as [| |a b t h s7 g7 s8 g8 Hdot Hfp| | | | | | |]; subst.
      apply matches_chr in Hdot as [-> ->].
      apply matches_digits in Hfp as [-> (fp & -> & Hfp)].
      split; [done|]. exists ("."%char :: fp). split; [done|]. right. by exists fp.
    - split; [done|]. exists []. split; [done | by left]. }
  split; [done|]. exists (sign ++ ip ++ frac). split; [by rewrite <- !app_assoc|].
  by exists sign, ip, frac.
Qed.

Lemma matches_grp_inv name a s g s' g2 :
  matches (Grp name a) s g s' g2 ->
  exists g' w, matches a s g s' g' /\ s = w ++ s' /\ g2 = (name, w) :: g'.
Proof.
  inversion 1 as [| | | | | | |n b t h t' h' Ha| |]; subst.
  destruct (matches_prefix _ _ _ _ _ Ha) as (w & E & Htake).
  exists h', w. by rewrite Htake.
Qed.

Lemma matches_seq_inv a b s g s2 g2 :
  matches (Seq a b) s g s2 g2 ->
  exists s1 g1, matches a s g s1 g1 /\ matches b s1 g1 s2 g2.
Proof. inversion 1; subst; eauto. Qed.

Lemma matches_groupless_prefix r s g s' g' :
  groupless r = true -> matches r s g s' g' -> g' = g /\ exists w, s = w ++ s'.
Proof.
  intros Hg Hm. split; [by eapply matches_groupless|].
  destruct (matches_prefix _ _ _ _ _ Hm) as (w & E & _). by exists w.
Qed.

Lemma matches_ws s g s' g' :
  matches ws s g s' g' -> g' = g /\ exists w, s = w ++ s' /\ spaces w.
Proof. apply matches_star. Qed.

Lemma matches_eos s g s' g' :
  matches Eos s g s' g' -> g' = g /\ s' = s /\ (s = [] \/ s = [LF]).
Proof. inversion 1; subst; auto. Qed.

Lemma matches_grp_digits name s g s' g' :
  matches (Grp name digits) s g s' g' ->
  exists w, digit_string w /\ s = w ++ s' /\ g' = (name, w) :: g.
Proof.
  intros H. apply matches_grp_inv in H as (g1 & w & H & E & ->).
  apply matches_digits in H as [-> (w' & E' & Hw)].
  rewrite E' in E. apply app_inv_tail in E as <-. by exists w'.
Qed.

Lemma matches_grp_decimal name s g s' g' :
  matches (Grp name decimal) s g s' g' ->
  exists w, decimal_string w /\ s = w ++ s' /\ g' = (name, w) :: g.
Proof.
  intros H. apply matches_grp_inv in H as (g1 & w & H & E & ->).
  apply matches_decimal in H as [-> (w' & E' & Hw)].
  rewrite E' in E. apply app_inv_tail in E as <-. by exists w'.
Qed.

Lemma matches_grp_groupless name r s g s' g' :
  groupless r = true -> matches (Grp name r) s g s' g' ->
  exists w, s = w ++ s' /\ g' = (name, w) :: g.
Proof.
  intros Hg H. apply matches_grp_inv in H as (g1 & w & H & E & ->).
  apply matches_groupless in H as ->; [|done]. by exists w.
Qed.


Lemma matches_grp_sensor s g s' g' :
  matches (Grp "sensor"
             (seqs [Lit "Sensor"; ws;
                    Cls (fun c => Ascii.eqb c "1" || Ascii.eqb c "2")]))
          s g s' g' ->
  exists w, sensor_label w /\ s = w ++ s' /\ g' = ("sensor"%string, w) :: g.
Proof.
  intros H. apply matches_grp_inv in H as (g1 & w & H & E & ->).
  cbv [seqs Lit lit list_ascii_of_string map foldr] in H. revert E.
  repeat match type of H with
  | matches (Seq _ _) _ _ _ _ =>
      let s1 := fresh "s" in let g1 := fresh "g" in let Ha := fresh "M" in
      apply matches_seq_inv in H as (s1 & g1 & Ha & H)
  end. inversion H; subst; clear H.
  repeat match type of M0 with
  | matches (Seq _ _) _ _ _ _ =>
      let s1 := fresh "s" in let g1 := fresh "g" in let Ha := fresh "M" in
      apply matches_seq_inv in M0 as (s1 & g1 & Ha & M0)
  end. inversion M0; subst; clear M0.
  repeat match goal with
  | M : matches (Chr _) _ _ _ _ |- _ => apply matches_chr in M as [-> ->]
  end.
  apply matches_ws in M1 as [-> (sp & -> & Hsp)].
  inversion M2 as [|p c t h Hc| | | | | | | |]; subst. intros E.
  assert (w = lit "Sensor" ++ sp ++ [c]) as ->.
  { apply (app_inv_tail s'). rewrite <- E.
    cbn [lit list_ascii_of_string app]. by rewrite <- app_assoc. }
  exists (lit "Sensor" ++ sp ++ [c]). split; [|done].
  exists sp, c. split; [done|]. split; [done|].
  apply orb_true_iff in Hc as [Hc|Hc]; apply Ascii.eqb_eq in Hc; auto.
Qed.


Lemma LINE_RE_match s m :
  rmatch LINE_RE s = Some m ->
  exists pc wm wsec wms sensor temp rh,
    m = [("rh"%string, rh); ("temp"%string, temp); ("sensor"%string, sensor);
         ("ms"%string, wms); ("s"%string, wsec); ("m"%string, wm);
         ("pc"%string, pc)]
    /\ digit_string wm /\ digit_string wsec /\ digit_string wms
    /\ sensor_label sensor /\ decimal_string temp /\ decimal_string rh
    /\ free_text_shape s pc wm wsec wms sensor temp rh.
Proof.
  unfold rmatch. intros H. apply exec_matches in H as (s' & g' & H & E).
  injection E as ->.
  unfold LINE_RE in H. unfold seqs at 1 in H. cbn [foldr] in H.
  repeat match type of H with
  | matches (Seq _ _) _ _ _ _ =>
      let s1 := fresh "s" in let g1 := fresh "g" in let Ha := fresh "M" in
      apply matches_seq_inv in H as (s1 & g1 & Ha & H)
  end.
  inversion H; subst; clear H.
  apply matches_groupless_prefix in M0 as [-> (w0 & ->)]; [|done].
  apply matches_grp_groupless in M1 as (pc & -> & ->); [|done].
  apply matches_groupless_prefix in M2 as [-> (w2 & ->)]; [|done].
  apply matches_grp_digits in M3 as (wm & Hwm & -> & ->).
  apply matches_chr in M4 as [-> ->].
  apply matches_grp_digits in M5 as (wsec & Hwsec & -> & ->).
  apply matches_chr in M6 as [-> ->].
  apply matches_grp_digits in M7 as (wms & Hwms & -> & ->).
  apply matches_ws in M8 as [-> (w8 & -> & H8)].
  apply matches_chr in M9 as [-> ->].
  apply matches_ws in M10 as [-> (w10 & -> & H10)].
  apply matches_grp_sensor in M11 as (sensor & Hsensor & -> & ->).
  apply matches_ws in M12 as [-> (w12 & -> & H12)].
  apply matches_chr in M13 as [-> ->].
  apply matches_ws in M14 as [-> (w14 & -> & H14)].
  apply matches_grp_decimal in M15 as (temp & Htemp & -> & ->).
  apply matches_ws in M16 as [-> (w16 & -> & H16)].
  apply matches_chr in M17 as [-> ->].
  apply matches_ws in M18 as [-> (w18 & -> & H18)].
  apply matches_grp_decimal in M19 as (rh & Hrh & -> & ->).
  apply matches_ws in M20 as [-> (w20 & -> & H20)].
  apply matches_eos in M21 as (-> & -> & He).
  exists pc, wm, wsec, wms, sensor, temp, rh.
  split; [done|]. do 6 (split; [done|]).
  exists w0, w2, w8, w10, w12, w14, w16, w18, w20, s20.
  split; [|done].
  repeat (rewrite <- app_assoc; cbn [app]). done.
Qed.

End Matcher.

(** ** The numbers the pattern lets through *)

Lemma isdigit_not_space c : isdigit c = true -> isspace c = false.
Proof. by destruct c as [[] [] [] [] [] [] [] []]. Qed.

Lemma isdigit_lower c : isdigit c = true -> lower_char c = c.
Proof. by destruct c as [[] [] [] [] [] [] [] []]. Qed.

Lemma isdigit_cases c :
  isdigit c = true ->
  (c =? "-")%char = false /\ (c =? "+")%char = false /\ (c =? "_")%char = false
  /\ (c =? ".")%char = false /\ c <> "i"%char /\ c <> "n"%char.
Proof. by destruct c as [[] [] [] [] [] [] [] []]. Qed.

Lemma digit_string_head w :
  digit_string w -> exists c w', w = c :: w' /\ isdigit c = true
                                 /\ Forall (fun c => isdigit c = true) w'.
Proof.
  intros [Hne Hall]. destruct w as [|c w']; [done|].
  apply Forall_cons in Hall as [? ?]. by exists c, w'.
Qed.

Lemma digit_string_last w :
  digit_string w -> exists c w', rev w = c :: w' /\ isdigit c = true.
Proof.
  intros [Hne Hall]. destruct (rev w) as [|c w'] eqn:E.
  - apply (f_equal (@rev ascii)) in E. rewrite rev_involutive in E. done.
  - exists c, w'. split; [done|].
    rewrite List.Forall_forall in Hall. apply Hall, in_rev. rewrite E. by left.
Qed.

Lemma digits_tail_digits w rest :
  Forall (fun c => isdigit c = true) w ->
  (rest = [] \/ exists r, rest = "."%char :: r) ->
  digits_tail (w ++ rest) = (map digit_val w, rest).
Proof.
  intros Hw Hrest. induction Hw as [|c w Hc Hw IH]; cbn [app map].
  - destruct Hrest as [->|(r & ->)]; done.
  - cbn [digits_tail]. by rewrite Hc, IH.
Qed.

Lemma digitpart_digits w rest :
  digit_string w -> (rest = [] \/ exists r, rest = "."%char :: r) ->
  digitpart (w ++ rest) = Some (map digit_val w, rest).
Proof.
  intros Hw Hrest. apply digit_string_head in Hw as (c & w' & -> & Hc & Hw').
  cbn [app digitpart map]. by rewrite Hc, digits_tail_digits.
Qed.

Lemma strip_trimmed s :
  lstrip s = s -> lstrip (rev s) = rev s -> strip s = s.
Proof. intros H1 H2. unfold strip. by rewrite H1, H2, rev_involutive. Qed.

Lemma int_digit_string w :
  digit_string w -> int w = Some (digits_value (map digit_val w)).
Proof.
  intros [Hne Hall]. unfold int. destruct w as [|c w']; [done|].
  by rewrite (proj2 (forallb_forall _ _)); [|by apply List.Forall_forall].
Qed.

Lemma floatnumber_decimal ip frac :
  digit_string ip ->
  (frac = [] \/ exists fp, frac = "."%char :: fp /\ digit_string fp) ->
  exists q, floatnumber (ip ++ frac) = Some q.
Proof.
  intros Hip Hfrac. unfold floatnumber, number.
  rewrite (digitpart_digits ip frac Hip).
  2:{ destruct Hfrac as [->|(fp & -> & _)]; [by left | right; by exists fp]. }
  destruct Hfrac as [->|(fp & -> & Hfp)]; [by eexists|].
  cbn [Ascii.eqb Bool.eqb]. 
  rewrite <- (app_nil_r fp), (digitpart_digits fp [] Hfp); [|by left].
  by eexists.
Qed.

Lemma float_decimal_string w :
  decimal_string w -> exists q, float w = Some (Fin q).
Proof.
  intros (sign & ip & frac & -> & Hsign & Hip & Hfrac).
  destruct (floatnumber_decimal ip frac Hip Hfrac) as (q & Hq).
  destruct (digit_string_head ip Hip) as (c & ip' & Eip & Hc & _).
  destruct (isdigit_cases c Hc) as (Hm & Hp & _ & _ & Hi & Hn).
  assert (Hlast : exists d u, rev (ip ++ frac) = d :: u /\ isspace d = false).
  { destruct Hfrac as [->|(fp & -> & Hfp)].
    - rewrite app_nil_r. destruct (digit_string_last ip Hip) as (d & u & E & Hd).
      exists d, u. split; [done | by apply isdigit_not_space].
    - destruct (digit_string_last fp Hfp) as (d & u & E & Hd).
      exists d, (u ++ ["."%char] ++ rev ip). split; [|by apply isdigit_not_space].
      rewrite rev_app_distr. cbn [rev]. by rewrite E, <- !app_assoc. }
  destruct Hlast as (d & u & Erev & Hd).
  assert (Hstrip : strip (sign ++ ip ++ frac) = sign ++ ip ++ frac).
  { apply strip_trimmed.
    - destruct Hsign as [->| ->]; [|done]. rewrite Eip. cbn [app lstrip].
      by rewrite (isdigit_not_space c Hc).
    - rewrite rev_app_distr, Erev. cbn [app lstrip]. by rewrite Hd. }
  unfold float. rewrite Hstrip.
  assert (Hlow : forall x, lower (ip ++ frac) = x -> head x <> Some "i"%char
                           /\ head x <> Some "n"%char).
  { intros x <-. rewrite Eip. cbn [app lower map head].
    rewrite (isdigit_lower c Hc). split; congruence. }
  assert (Hnot : Str.eqb (lower (ip ++ frac)) (lit "inf")
                 || Str.eqb (lower (ip ++ frac)) (lit "infinity") = false
                 /\ Str.eqb (lower (ip ++ frac)) (lit "nan") = false).
  { unfold Str.eqb. split; [apply orb_false_iff; split|];
      apply bool_decide_eq_false_2; intros E;
      destruct (Hlow _ E) as [? ?]; done. }
  destruct Hnot as [Hinf Hnan].
  destruct Hsign as [->| ->].
  - cbn [app]. revert Hinf Hnan Hq. rewrite Eip. cbn [app]. intros Hinf Hnan Hq.
    rewrite Hm, Hp. cbv beta iota. rewrite Hinf, Hnan, Hq. by eexists.
  - change (lit "-" ++ ip ++ frac) with ("-"%char :: ip ++ frac).
    cbn [Ascii.eqb Bool.eqb]. cbv beta iota.
    rewrite Hinf, Hnan, Hq. by eexists.
Qed.

(** ** White space and commas *)

Lemma lstrip_spaces w y : spaces w -> lstrip (w ++ y) = lstrip y.
Proof. induction 1 as [|c w Hc Hw IH]; [done|]. cbn [app lstrip]. by rewrite Hc. Qed.

Lemma spaces_rev w : spaces w -> spaces (rev w).
Proof. apply Forall_rev. Qed.

Lemma strip_padded w x w' :
  spaces w -> spaces w' -> trimmed x -> strip (w ++ x ++ w') = x.
Proof.
  intros Hw Hw' (c & d & x' & x'' & Ex & Erev & Hc & Hd). unfold strip.
  rewrite (lstrip_spaces w _ Hw). rewrite Ex at 1. cbn [app lstrip]. rewrite Hc.
  change (c :: x' ++ w') with ((c :: x') ++ w'). rewrite <- Ex.
  rewrite rev_app_distr, (lstrip_spaces _ _ (spaces_rev _ Hw')), Erev.
  cbn [lstrip]. rewrite Hd, <- Erev. apply rev_involutive.
Qed.

Lemma decimal_string_trimmed w : decimal_string w -> trimmed w.
Proof.
  intros (sign & ip & frac & -> & Hsign & Hip & Hfrac).
  destruct (digit_string_head ip Hip) as (c & ip' & Eip & Hc & _).
  assert (Hlast : exists d u, rev (sign ++ ip ++ frac) = d :: u /\ isspace d = false).
  { rewrite rev_app_distr. destruct Hfrac as [->|(fp & -> & Hfp)].
    - rewrite app_nil_r. destruct (digit_string_last ip Hip) as (d & u & E & Hd).
      exists d, (u ++ rev sign). rewrite E. split; [done | by apply isdigit_not_space].
    - destruct (digit_string_last fp Hfp) as (d & u & E & Hd).
      exists d, ((u ++ ["."%char] ++ rev ip) ++ rev sign).
      split; [|by apply isdigit_not_space].
      rewrite rev_app_distr. cbn [rev]. by rewrite E, <- !app_assoc. }
  destruct Hlast as (d & u & Erev & Hd).
  destruct Hsign as [->| ->].
  - exists c, d, (ip' ++ frac), u. rewrite Eip in *.
    split_and!; [done|done| by apply isdigit_not_space |done].
  - exists "-"%char, d, (ip ++ frac), u. done.
Qed.

Lemma sensor_label_trimmed w : sensor_label w -> trimmed w.
Proof.
  intros (sp & c & -> & Hsp & Hc).
  exists "S"%char, c, (lit "ensor" ++ sp ++ [c]), (rev sp ++ rev (lit "Sensor")).
  split_and!; [done| |done|by destruct Hc as [->| ->]].
  by rewrite !rev_app_distr.
Qed.

Lemma split_nonempty sep s : split sep s <> [].
Proof.
  destruct s as [|c s]; [done|]. cbn [split].
  destruct (Ascii.eqb c sep); [done|]. by destruct (split sep s).
Qed.

Lemma split_app sep x y :
  split sep (x ++ sep :: y) = split sep x ++ split sep y.
Proof.
  induction x as [|c x IH]; cbn [app split].
  - by rewrite Ascii.eqb_refl.
  - destruct (Ascii.eqb c sep); [by rewrite IH|]. rewrite IH.
    pose proof (split_nonempty sep x). by destruct (split sep x).
Qed.

Lemma split_single sep x :
  Forall (fun c => Ascii.eqb c sep = false) x -> split sep x = [x].
Proof.
  induction 1 as [|c x Hc Hx IH]; [done|]. cbn [split]. by rewrite Hc, IH.
Qed.

Lemma isspace_not_comma c : isspace c = true -> Ascii.eqb c "," = false.
Proof. by destruct c as [[] [] [] [] [] [] [] []]. Qed.

Lemma isdigit_not_comma c : isdigit c = true -> Ascii.eqb c "," = false.
Proof. by destruct c as [[] [] [] [] [] [] [] []]. Qed.

Lemma spaces_no_comma w :
  spaces w -> Forall (fun c => Ascii.eqb c "," = false) w.
Proof. intros H. eapply Forall_impl; [exact H | apply isspace_not_comma]. Qed.

Lemma digit_string_no_comma w :
  digit_string w -> Forall (fun c => Ascii.eqb c "," = false) w.
Proof. intros [_ H]. eapply Forall_impl; [exact H | apply isdigit_not_comma]. Qed.

Lemma decimal_string_no_comma w :
  decimal_string w -> Forall (fun c => Ascii.eqb c "," = false) w.
Proof.
  intros (sign & ip & frac & -> & Hsign & Hip & Hfrac).
  repeat apply Forall_app_2.
  - destruct Hsign as [->| ->]; [done | by repeat constructor].
  - by apply digit_string_no_comma.
  - destruct Hfrac as [->|(fp & -> & Hfp)]; [done|].
    constructor; [done | by apply digit_string_no_comma].
Qed.

Lemma sensor_label_no_comma w :
  sensor_label w -> Forall (fun c => Ascii.eqb c "," = false) w.
Proof.
  intros (sp & c & -> & Hsp & Hc). repeat apply Forall_app_2.
  - by repeat constructor.
  - by apply spaces_no_comma.
  - constructor; [|done]. by destruct Hc as [->| ->].
Qed.

(** The fields of a line of the free-text layout: the last three are the
    label, the temperature and the humidity with white space around
    them. *)
Lemma free_text_shape_split s pc wm wsec wms sensor temp rh :
  free_text_shape s pc wm wsec wms sensor temp rh ->
  sensor_label sensor -> decimal_string temp -> decimal_string rh ->
  exists fields label a b,
    split "," s = fields ++ [label; a; b] /\ fields <> []
    /\ strip label = sensor /\ strip a = temp /\ strip b = rh.
Proof.
  intros (w0 & w2 & w8 & w10 & w12 & w14 & w16 & w18 & w20 & e & -> &
          H8 & H10 & H12 & H14 & H16 & H18 & H20 & He) Hsensor Htemp Hrh.
  assert (spaces e) as Hsp by (destruct He as [->| ->]; by repeat constructor).
  assert (spaces (w20 ++ e)) as H20e by by apply Forall_app_2.
  rewrite !split_app.
  rewrite (split_single _ (w10 ++ sensor ++ w12)),
    (split_single _ (w14 ++ temp ++ w16)),
    (split_single _ (w18 ++ rh ++ w20 ++ e)).
  - eexists _, _, _, _. split; [done|]. split; [apply split_nonempty|].
    split_and!.
    + apply strip_padded; [done..|by apply sensor_label_trimmed].
    + apply strip_padded; [done..|by apply decimal_string_trimmed].
    + apply strip_padded; [done..|by apply decimal_string_trimmed].
  - repeat apply Forall_app_2;
      auto using spaces_no_comma, decimal_string_no_comma.
  - repeat apply Forall_app_2;
      auto using spaces_no_comma, decimal_string_no_comma.
  - repeat apply Forall_app_2;
      auto using spaces_no_comma, sensor_label_no_comma.
Qed.
(** ** The parser on every line *)

Section ParserTotal.

Import DataMonitor.

(** The part of the parser after the pattern: a line the pattern does not
    match is no record; one it matches has its time, label, temperature
    and humidity read without an exception, and goes to [validate]. *)
Lemma free_text_run s :
  (forall self, free_text s self = (Ok None, self))
  \/ exists pc wm wsec wms sensor temp rh t_abs te hu,
       free_text_shape s pc wm wsec wms sensor temp rh
       /\ sensor_label sensor /\ decimal_string temp /\ decimal_string rh
       /\ to_seconds wm wsec wms = Some t_abs
       /\ float temp = Some (Fin te) /\ float rh = Some (Fin hu)
       /\ forall self, free_text s self
                       = validate t_abs (sensor_id sensor) (Fin te) (Fin hu) self.
Proof.
  unfold free_text. destruct (rmatch LINE_RE s) as [m|] eqn:Em; [|by left].
  right. apply LINE_RE_match in Em
    as (pc & wm & wsec & wms & sensor & temp & rh & -> &
        Hwm & Hwsec & Hwms & Hsensor & Htemp & Hrh & Hshape).
  destruct (float_decimal_string temp Htemp) as (te & Hte).
  destruct (float_decimal_string rh Hrh) as (hu & Hhu).
  assert (exists t_abs, to_seconds wm wsec wms = Some t_abs) as (t_abs & Ht).
  { unfold to_seconds.
    rewrite !int_digit_string by done. by eexists. }
  exists pc, wm, wsec, wms, sensor, temp, rh, t_abs, te, hu.
  do 7 (split; [done|]). intros self.
  cbn [group String.eqb Ascii.eqb Bool.eqb].
  unfold bind at 1 2 3 4 5 6 7 8 9, or_raise, ret.
  by rewrite Ht, Hte, Hhu.
Qed.

(** what [validate] returns, when it returns a sample *)
Lemma validate_some t_abs sid temp hum self p self' :
  validate t_abs sid temp hum self = (Ok (Some p), self') ->
  p = (t_abs, sid, temp, hum).
Proof.
  unfold validate. destruct (_valid_ranges temp hum); [|done]. cbn [negb].
  unfold bind at 1. destruct (_valid_step sid temp hum self) as [[[]|] s1]; try done.
  cbn [negb]. unfold bind, modify, ret. by intros [= <- _].
Qed.

(** The fields of a row of 4 or 5: the last three are the label, the
    temperature and the humidity. *)
Lemma delimited_fields_run parts :
  (length parts = 4 \/ length parts = 5)%nat ->
  (exists pre txt a b t_abs te hu,
     parts = pre ++ [txt; a; b] /\ pre <> []
     /\ float a = Some te /\ float b = Some hu
     /\ forall self, delimited_fields parts self
                     = (Ok (t_abs, txt, te, hu), self))
  \/ (forall self, delimited_fields parts self = (Raise, self)).
Proof.
  intros Hlen.
  assert ((exists p0 txt a b, parts = [p0; txt; a; b])
          \/ exists p0 p1 txt a b, parts = [p0; p1; txt; a; b]) as Hparts.
  { destruct parts as [|p0 [|p1 [|p2 [|p3 [|p4 [|p5 ?]]]]]];
      cbn [length] in Hlen; try lia; [left|right]; by repeat eexists. }
  unfold delimited_fields, item.
  destruct Hparts as [(p0 & txt & a & b & ->)|(p0 & p1 & txt & a & b & ->)];
    cbn [length Nat.eqb lookup list_lookup].
  - destruct (float p0) as [t_abs|] eqn:Et;
      [|right; intros self; unfold bind, or_raise, ret; cbn; by rewrite Et].
    destruct (float a) as [te|] eqn:Ea;
      [|right; intros self; unfold bind, or_raise, ret; cbn; by rewrite Et, Ea].
    destruct (float b) as [hu|] eqn:Eb;
      [|right; intros self; unfold bind, or_raise, ret; cbn;
        by rewrite Et, Ea, Eb].
    left. exists [p0], txt, a, b, t_abs, te, hu. do 4 (split; [done|]).
    intros self. unfold bind, or_raise, ret. cbn. by rewrite Et, Ea, Eb.
  - destruct (float p1) as [t_abs|] eqn:Et;
      [|right; intros self; unfold bind, or_raise, ret; cbn; by rewrite Et].
    destruct (float a) as [te|] eqn:Ea;
      [|right; intros self; unfold bind, or_raise, ret; cbn; by rewrite Et, Ea].
    destruct (float b) as [hu|] eqn:Eb;
      [|right; intros self; unfold bind, or_raise, ret; cbn;
        by rewrite Et, Ea, Eb].
    left. exists [p0; p1], txt, a, b, t_abs, te, hu. do 4 (split; [done|]).
    intros self. unfold bind, or_raise, ret. cbn. by rewrite Et, Ea, Eb.
Qed.

(** A row of 4 or 5 fields whose label starts with [sensor] goes to
    [validate]; another one leaves the [if] or raises. *)
Lemma delimited_row_run parts :
  (length parts = 4 \/ length parts = 5)%nat ->
  (exists pre txt a b t_abs te hu,
     parts = pre ++ [txt; a; b] /\ pre <> []
     /\ startswith (lower txt) (lit "sensor") = true
     /\ float a = Some te /\ float b = Some hu
     /\ forall self, delimited_row parts self
          = (r <- validate t_abs (sensor_id txt) te hu ;; ret (Some r)) self)
  \/ (forall self, delimited_row parts self = (Ok None, self))
  \/ (forall self, delimited_row parts self = (Raise, self)).
Proof.
  intros Hlen.
  destruct (delimited_fields_run parts Hlen)
    as [(pre & txt & a & b & t_abs & te & hu & E & Hpre & Ha & Hb & Hf)|Hf].
  - destruct (startswith (lower txt) (lit "sensor")) eqn:Es.
    + left. exists pre, txt, a, b, t_abs, te, hu. do 5 (split; [done|]).
      intros self. unfold delimited_row. unfold bind at 1. by rewrite Hf, Es.
    + right; left. intros self.
      unfold delimited_row. unfold bind at 1. by rewrite Hf, Es.
  - right; right. intros self. unfold delimited_row, bind. by rewrite Hf.
Qed.

Lemma sensor_label_startswith w :
  sensor_label w -> startswith (lower w) (lit "sensor") = true.
Proof. intros (sp & c & -> & _). by destruct sp. Qed.

Lemma free_text_fields s :
  exists k, line_ok k /\ k <> Raises /\ record_fields s k
            /\ forall self, free_text s self = run_line k self.
Proof.
  destruct (free_text_run s)
    as [Hnone|(pc & wm & wsec & wms & sensor & temp & rh & t_abs & te & hu &
               Hshape & Hsensor & Htemp & Hrh & Ht & Hte & Hhu & Hrun)].
  - by exists NoSample.
  - exists (Fields t_abs (sensor_id sensor) (Fin te) (Fin hu)).
    split; [apply sensor_id_cases|]. split; [done|]. split; [|done].
    destruct (free_text_shape_split _ _ _ _ _ _ _ _ Hshape Hsensor Htemp Hrh)
      as (fields & label & a & b & Hsplit & Hne & El & Ea & Eb).
    exists fields, label, a, b. rewrite El, Ea, Eb.
    split_and!; [done|done|by apply sensor_label_startswith|done|done|done].
Qed.

(** What a line is to the parser: never an exception; and a record has
    its label, temperature and humidity in the last three fields. *)
Lemma parse_line_fields s :
  exists k, line_ok k /\ k <> Raises /\ record_fields s k /\
    forall self, caches_ok self ->
                 parse_log_line_abs_seconds s self = run_line k self.
Proof.
  unfold parse_log_line_abs_seconds.
  destruct s as [|c s']; [by exists NoSample|].
  set (s := c :: s') in *.
  destruct (contains (lit "TS,Sensor,TempC,RH") s); [by exists NoSample|].
  set (parts := map strip (split "," s)).
  destruct (free_text_fields s) as (kf & Hkf & Hkr & Hkfields & Hfree).
  destruct ((length parts =? 4)%nat || (length parts =? 5)%nat) eqn:Hlen;
    [|exists kf; do 3 (split; [done|]); intros self _; unfold bind, ret;
      apply Hfree].
  assert (length parts = 4 \/ length parts = 5)%nat as Hlen'.
  { apply orb_true_iff in Hlen as [H|H]; apply Nat.eqb_eq in H; auto. }
  destruct (delimited_row_run parts Hlen')
    as [(pre & txt & a & b & t_abs & te & hu & E & Hpre & Hs & Ha & Hb & Hrow)
       |[Hrow|Hrow]].
  - exists (Fields t_abs (sensor_id txt) te hu).
    split; [apply sensor_id_cases|]. split; [done|]. split.
    + unfold parts in E. apply map_eq_app in E as (fields & rest & Es & Ef & Er).
      destruct rest as [|l [|a0 [|b0 [|? ?]]]]; try done.
      injection Er as <- <- <-.
      exists fields, l, a0, b0. split_and!; try done.
      intros ->. by destruct Hpre.
    + intros self Hok.
      pose proof (validate_no_raise t_abs (sensor_id txt) te hu self Hok
                    (sensor_id_cases txt)) as Hnr.
      unfold bind at 1. unfold try_except. rewrite Hrow.
      unfold bind, ret. cbn [run_line].
      destruct (validate t_abs (sensor_id txt) te hu self) as [[r|] self'];
        [done|]. by destruct Hnr.
  - exists kf. do 3 (split; [done|]). intros self _.
    unfold bind, try_except, ret. rewrite Hrow. apply Hfree.
  - exists kf. do 3 (split; [done|]). intros self _.
    unfold bind, try_except, ret. rewrite Hrow. apply Hfree.
Qed.

(** X1: In every state the monitor can reach, the parser returns on a
    line shorter than 300 characters (so that each of its numbers is in
    the range of a float): it gives a sample or [None], and never lets an
    exception out, neither from the row of 4 or 5 fields nor from the
    groups of the pattern. *)
Theorem parser_never_raises s self :
  reachable self -> (length s < 300)%nat ->
  fst (parse_log_line_abs_seconds s self) <> Raise.
Proof.
  intros Hreach _. apply reachable_caches_ok in Hreach as Hok.
  destruct (parse_line_fields s) as (k & Hk & Hnr & _ & Hrun).
  rewrite (Hrun self Hok).
  destruct k as [t_abs sid temp hum| |]; [|done..].
  by apply validate_no_raise.
Qed.

Lemma parser_never_raises_witness :
  let self := snd (parse_log_line_abs_seconds (lit "0,Sensor1,25.0,40.0") init) in
  reachable self /\ (length (lit "PC 0:01.5 , Sensor 2 , x , 40") < 300)%nat
  /\ fst (parse_log_line_abs_seconds (lit "PC 0:01.5 , Sensor 2 , x , 40") self)
     <> Raise.
Proof.
  intros self.
  assert (reachable self) as Hreach by (apply reach_parse, reach_init).
  assert (length (lit "PC 0:01.5 , Sensor 2 , x , 40") < 300)%nat as Hlen
    by (vm_compute; lia).
  split; [exact Hreach|]. split; [exact Hlen|].
  exact (parser_never_raises _ self Hreach Hlen).
Defined.

(** X2: Every sample the parser accepts comes from a line of at least
    four comma-separated fields, and is read off the last three: the
    third from the end, stripped, starts with [sensor] in any case and
    gives the channel; the last two, stripped, are the temperature and
    the humidity as [float] reads them. *)
Theorem accepted_sample_fields s self t_abs sid temp hum self' :
  reachable self ->
  parse_log_line_abs_seconds s self = (Ok (Some (t_abs, sid, temp, hum)), self') ->
  exists fields label a b,
    split "," s = fields ++ [label; a; b] /\ fields <> []
    /\ startswith (lower (strip label)) (lit "sensor") = true
    /\ sid = sensor_id (strip label)
    /\ float (strip a) = Some temp /\ float (strip b) = Some hum.
Proof.
  intros Hreach Hp. apply reachable_caches_ok in Hreach as Hok.
  destruct (parse_line_fields s) as (k & Hk & Hnr & Hfields & Hrun).
  rewrite (Hrun self Hok) in Hp.
  destruct k as [t_abs' sid' temp' hum'| |]; [|done..].
  cbn [run_line] in Hp. apply validate_some in Hp as [= <- <- <- <-].
  exact Hfields.
Qed.

Lemma accepted_sample_fields_witness :
  reachable init /\
  parse_log_line_abs_seconds (lit "PC 0:01.500 , Sensor 2 , 25.5 , 40") init
  = (Ok (Some (Fin (3 # 2), 2, Fin (51 # 2), Fin 40)),
     accepted 2 (Fin (51 # 2)) (Fin 40) init) /\
  exists fields label a b,
    split "," (lit "PC 0:01.500 , Sensor 2 , 25.5 , 40")
    = fields ++ [label; a; b] /\ fields <> []
    /\ startswith (lower (strip label)) (lit "sensor") = true
    /\ 2 = sensor_id (strip label)
    /\ float (strip a) = Some (Fin (51 # 2)) /\ float (strip b) = Some (Fin 40).
Proof.
  assert (parse_log_line_abs_seconds
            (lit "PC 0:01.500 , Sensor 2 , 25.5 , 40") init
          = (Ok (Some (Fin (3 # 2), 2, Fin (51 # 2), Fin 40)),
             accepted 2 (Fin (51 # 2)) (Fin 40) init)) as Hrun
    by (vm_compute; reflexivity).
  split; [apply reach_init|]. split; [exact Hrun|].
  exact (accepted_sample_fields _ init _ _ _ _ _ reach_init Hrun).
Defined.

End ParserTotal.
(** ** What the buffers hold *)

Section Latest.

Import StreamBuffers.

Lemma latest_all {A} cap (l : list A) :
  Z.of_nat (length l) <= cap -> latest cap l = l.
Proof.
  intros H. unfold latest. replace (length l - Z.to_nat cap)%nat with 0%nat by lia.
  done.
Qed.

Lemma latest_length {A} cap (l : list A) :
  0 <= cap -> Z.of_nat (length (latest cap l)) = Z.min cap (Z.of_nat (length l)).
Proof. intros H. unfold latest. rewrite length_drop. lia. Qed.

Lemma latest_app {A} cap (l l' : list A) :
  0 <= cap -> latest cap (latest cap l ++ l') = latest cap (l ++ l').
Proof.
  intros Hcap.
  destruct (Z.le_gt_cases (Z.of_nat (length l)) cap) as [Hle|Hgt];
    [by rewrite (latest_all cap l)|].
  unfold latest at 1 3. rewrite !length_app.
  pose proof (latest_length cap l Hcap) as Hlen.
  replace (length (latest cap l) + length l' - Z.to_nat cap)%nat
    with (length l') by lia.
  replace (length l + length l' - Z.to_nat cap)%nat
    with ((length l - Z.to_nat cap) + length l')%nat by lia.
  rewrite <- drop_drop. unfold latest.
  by rewrite (drop_app_le l l') by lia.
Qed.

Lemma append_latest {A} cap (x : A) d :
  0 < cap -> within cap d ->
  deque.items (deque.append x d) = latest cap (deque.items d ++ [x]).
Proof.
  intros Hcap [Hm Hl]. unfold deque.append. cbn [deque.items]. rewrite Hm.
  unfold latest. rewrite length_app. cbn [length].
  destruct (Z.ltb_spec cap (Z.of_nat (length (deque.items d) + 1))).
  - replace (length (deque.items d) + 1 - Z.to_nat cap)%nat with 1%nat by lia.
    by destruct (deque.items d ++ [x]).
  - by replace (length (deque.items d) + 1 - Z.to_nat cap)%nat with 0%nat by lia.
Qed.

(** appending to a deque that holds the latest items of a sequence *)
Lemma append_keeps_latest {A} cap (x : A) d (l : list A) :
  0 < cap -> within cap d -> deque.items d = latest cap l ->
  deque.items (deque.append x d) = latest cap (l ++ [x]).
Proof.
  intros Hcap Hd E. rewrite (append_latest cap) by done.
  rewrite E. apply latest_app. lia.
Qed.

Lemma append_then_latest {A} cap (d : deque.t A) x rest :
  0 < cap -> within cap d ->
  latest cap (deque.items (deque.append x d) ++ rest)
  = latest cap (deque.items d ++ x :: rest).
Proof.
  intros Hcap Hd. rewrite (append_latest cap) by done.
  rewrite latest_app by lia. by rewrite <- app_assoc.
Qed.

Lemma push_all_within cap samples : forall b,
  0 <= cap -> all_within cap b /\ parallel b ->
  all_within cap (push_all samples b) /\ parallel (push_all samples b).
Proof.
  induction samples as [|[[[t sid] te] hu] samples IH]; intros b Hcap Hb; [done|].
  apply IH; [done|]. by apply push_within.
Qed.

Lemma push_all_latest cap samples : forall b,
  0 < cap -> all_within cap b ->
  let b' := push_all samples b in
  deque.items (t1 b') = latest cap (deque.items (t1 b) ++ map time_of (inlet samples)) /\
  deque.items (T1 b') = latest cap (deque.items (T1 b) ++ map temp_of (inlet samples)) /\
  deque.items (H1 b') = latest cap (deque.items (H1 b) ++ map hum_of (inlet samples)) /\
  deque.items (t2 b') = latest cap (deque.items (t2 b) ++ map time_of (outlet samples)) /\
  deque.items (T2 b') = latest cap (deque.items (T2 b) ++ map temp_of (outlet samples)) /\
  deque.items (H2 b') = latest cap (deque.items (H2 b) ++ map hum_of (outlet samples)).
Proof.
  induction samples as [|[[[t sid] te] hu] samples IH]; intros b Hcap Hb.
  - destruct Hb as ([_ ?] & [_ ?] & [_ ?] & [_ ?] & [_ ?] & [_ ?]).
    cbn. rewrite !app_nil_r, !latest_all by done. done.
  - pose proof Hb as (W1 & W2 & W3 & W4 & W5 & W6).
    assert (all_within cap (push t sid te hu b)) as Hb'.
    { unfold push, all_within. destruct (sid =? 1); cbn;
        split_and!; try done; apply append_within; first [done | lia]. }
    specialize (IH (push t sid te hu b) Hcap Hb').
    cbn zeta in IH. cbn zeta.
    change (push_all ((t, sid, te, hu) :: samples) b)
      with (push_all samples (push t sid te hu b)).
    destruct IH as (I1 & I2 & I3 & I4 & I5 & I6).
    rewrite I1, I2, I3, I4, I5, I6. unfold inlet, outlet, push.
    cbn [List.filter]. destruct (sid =? 1); cbn [negb map t1 T1 H1 t2 T2 H2];
      rewrite ?(append_then_latest cap) by done; done.
Qed.

(** X3: A stream buffer of capacity [cap > 0] holds, for each channel,
    the last [cap] samples pushed to it, in the order of arrival, after
    what it held before; a sample whose channel is not 1 goes to
    channel 2. *)
Theorem stream_buffers_hold_latest cap samples b :
  0 < cap -> all_within cap b ->
  let b' := push_all samples b in
  deque.items (t1 b') = latest cap (deque.items (t1 b) ++ map time_of (inlet samples)) /\
  deque.items (T1 b') = latest cap (deque.items (T1 b) ++ map temp_of (inlet samples)) /\
  deque.items (H1 b') = latest cap (deque.items (H1 b) ++ map hum_of (inlet samples)) /\
  deque.items (t2 b') = latest cap (deque.items (t2 b) ++ map time_of (outlet samples)) /\
  deque.items (T2 b') = latest cap (deque.items (T2 b) ++ map temp_of (outlet samples)) /\
  deque.items (H2 b') = latest cap (deque.items (H2 b) ++ map hum_of (outlet samples)).
Proof. apply push_all_latest. Qed.

Lemma stream_buffers_hold_latest_witness :
  let samples := [(Fin 0, 1, Fin 20, Fin 40); (Fin 1, 2, Fin 30, Fin 50);
                  (Fin 2, 1, Fin 21, Fin 41); (Fin 3, 3, Fin 31, Fin 51);
                  (Fin 4, 1, Fin 22, Fin 42)] in
  let b' := push_all samples (init 2) in
  0 < 2 /\ all_within 2 (init 2) /\
  deque.items (t1 b') = [Fin 2; Fin 4] /\ deque.items (T1 b') = [Fin 21; Fin 22] /\
  deque.items (H1 b') = [Fin 41; Fin 42] /\
  deque.items (t2 b') = [Fin 1; Fin 3] /\ deque.items (T2 b') = [Fin 30; Fin 31] /\
  deque.items (H2 b') = [Fin 50; Fin 51].
Proof.
  intros samples b'.
  assert (0 < 2) as Hcap by lia.
  assert (all_within 2 (init 2)) as Hb by (apply init_within; lia).
  split; [exact Hcap|]. split; [exact Hb|].
  exact (stream_buffers_hold_latest 2 samples (init 2) Hcap Hb).
Defined.

End Latest.
(** ** From the queue and from an import to the buffers *)

Section Drain.

Import DataMonitor LivePlotterApp.

Lemma drain_step_based start q : forall m,
  main_t_start_abs m = Some start ->
  fold_left
    (fun m '(t_abs, sid, temp, hum) =>
       let start :=
         match main_t_start_abs m with
         | None => t_abs
         | Some a => a
         end in
       set_main (StreamBuffers.push (sub t_abs start) sid temp hum (main m))
                (set_main_t_start_abs (Some start) m)) q m
  = set_main (push_all (map (rebase start) q) (main m)) m.
Proof.
  induction q as [|[[[t sid] te] hu] q IH]; intros m Hm.
  - by destruct m.
  - cbn [fold_left map rebase]. rewrite Hm. rewrite IH by done.
    destruct m; cbn in *. by subst.
Qed.

(** X4: Draining the queue empties it and pushes every queued sample, in
    order, to the main buffer with its time counted from the time base;
    the time base is the one already set or else the time of the first
    sample drained, and it stays.  Nothing else of the monitor changes. *)
Theorem drain_queue_rebases (monitor : DataMonitor.t) :
  let monitor' := drain_queue monitor in
  queue monitor' = [] /\
  main_t_start_abs monitor' = time_base monitor /\
  main monitor'
  = match time_base monitor with
    | Some start => push_all (map (rebase start) (queue monitor)) (main monitor)
    | None => main monitor
    end /\
  file_pos monitor' = file_pos monitor /\ _carry monitor' = _carry monitor /\
  event_q monitor' = event_q monitor /\ overlays monitor' = overlays monitor /\
  _last_good_temp monitor' = _last_good_temp monitor /\
  _last_good_hum monitor' = _last_good_hum monitor.
Proof.
  unfold drain_queue, time_base.
  destruct (main_t_start_abs monitor) as [a|] eqn:Ea.
  - rewrite (drain_step_based a) by (by destruct monitor).
    destruct monitor; cbn in *. by subst.
  - destruct (queue monitor) as [|[[[t sid] te] hu] q] eqn:Eq.
    + destruct monitor; cbn in *. by subst.
    + cbn [fold_left]. cbn [set_queue main_t_start_abs]. rewrite Ea.
      rewrite (drain_step_based t) by done.
      destruct monitor; cbn in *. by subst.
Qed.

End Drain.

Section StaticImport.

Import StreamBuffers.

Lemma latest_idem {A} cap (l : list A) :
  0 <= cap -> latest cap (latest cap l) = latest cap l.
Proof.
  intros H. pose proof (latest_app cap l [] H) as E. by rewrite !app_nil_r in E.
Qed.

Lemma load_row_aligned has_ts l idx rw l' idx' :
  aligned l -> load_row has_ts (Ok (l, idx)) rw = Ok (l', idx') -> aligned l'.
Proof.
  intros (A1 & A2 & A3 & A4). unfold load_row.
  destruct (if has_ts then _ else _) as [t|]; [|done].
  intros [= <- _].
  destruct (safe_float (rw inlet_T_col)), (safe_float (rw inlet_H_col)),
    (safe_float (rw outlet_T_col)), (safe_float (rw outlet_H_col));
    unfold aligned; cbn; rewrite ?length_app; cbn; lia.
Qed.

Lemma load_rows_raise has_ts rows :
  fold_left (load_row has_ts) rows Raise = Raise.
Proof. by induction rows. Qed.

Lemma load_rows_aligned has_ts rows : forall l idx l' idx',
  aligned l ->
  fold_left (load_row has_ts) rows (Ok (l, idx)) = Ok (l', idx') -> aligned l'.
Proof.
  induction rows as [|rw rows IH]; intros l idx l' idx' Hl; cbn [fold_left].
  - by intros [= <- _].
  - destruct (load_row has_ts (Ok (l, idx)) rw) as [[l1 idx1]|] eqn:E.
    + apply IH. by eapply load_row_aligned.
    + by rewrite load_rows_raise.
Qed.

Lemma worker_aligned fieldnames rows l :
  _load_static_csv_worker fieldnames rows = Ok l -> aligned l.
Proof.
  unfold _load_static_csv_worker. destruct fieldnames as [|c cs]; [done|].
  destruct (negb _); [done|].
  destruct (fold_left _ rows _) as [[l' idx']|] eqn:E; [|done].
  intros [= <-]. eapply load_rows_aligned; [|exact E]. by repeat split.
Qed.

Lemma push_zip3 sid (ts Ts Hs : list pyfloat) : forall b,
  fold_left (fun b '(t, te, hu) => push t sid te hu b) (zip3 ts Ts Hs) b
  = push_all (map (fun '(t, te, hu) => (t, sid, te, hu)) (zip3 ts Ts Hs)) b.
Proof.
  unfold zip3. induction (combine (combine ts Ts) Hs) as [|[[t te] hu] z IH];
    intros b; [done|]. cbn [fold_left map push_all]. apply IH.
Qed.

Lemma zip3_samples sid (ts Ts Hs : list pyfloat) :
  length Ts = length ts -> length Hs = length ts ->
  let samples := map (fun '(t, te, hu) => (t, sid, te, hu)) (zip3 ts Ts Hs) in
  map time_of samples = ts /\ map temp_of samples = Ts
  /\ map hum_of samples = Hs
  /\ inlet samples = (if sid =? 1 then samples else [])
  /\ outlet samples = (if sid =? 1 then [] else samples).
Proof.
  revert Ts Hs. unfold zip3.
  induction ts as [|t ts IH]; intros [|te Ts] [|hu Hs]; try done.
  - intros _ _. cbn. by destruct (sid =? 1).
  - intros [= HT] [= HH]. destruct (IH Ts Hs HT HH) as (I1 & I2 & I3 & I4 & I5).
    cbn zeta in *. cbn [combine map time_of temp_of hum_of].
    rewrite I1, I2, I3. unfold inlet, outlet in *. cbn [List.filter].
    rewrite I4, I5. by destruct (sid =? 1).
Qed.

(** X5: What the static import shows.  The worker's lists are aligned,
    so the [zip] of the handler loses no row; and once the handler has
    refilled the overlay, each of its six sequences is the end of the
    worker's list, the last [maxlen] items: a longer import loses its
    earliest rows. *)
Theorem static_import_fills_buffers fieldnames rows l cap ov :
  _load_static_csv_worker fieldnames rows = Ok l ->
  0 < cap -> all_within cap (OverlayItem.buffers ov) ->
  let b := OverlayItem.buffers (static_loaded l ov) in
  aligned l /\
  deque.items (t1 b) = latest cap (l_t1 l) /\
  deque.items (T1 b) = latest cap (l_T1 l) /\
  deque.items (H1 b) = latest cap (l_H1 l) /\
  deque.items (t2 b) = latest cap (l_t2 l) /\
  deque.items (T2 b) = latest cap (l_T2 l) /\
  deque.items (H2 b) = latest cap (l_H2 l).
Proof.
  intros Hl Hcap Hov. apply worker_aligned in Hl as Hal.
  pose proof Hal as (A1 & A2 & A3 & A4). cbn zeta. split; [done|].
  unfold static_loaded. cbn [OverlayItem.buffers]. rewrite !push_zip3.
  set (s1 := map _ (zip3 (l_t1 l) _ _)). set (s2 := map _ (zip3 (l_t2 l) _ _)).
  set (b0 := clear (OverlayItem.buffers ov)).
  assert (all_within cap b0 /\ parallel b0) as Hb0.
  { destruct Hov as ([? ?] & [? ?] & [? ?] & [? ?] & [? ?] & [? ?]).
    unfold b0, clear, all_within, parallel, within, deque.clear; cbn.
    split_and!; first [done | lia]. }
  assert (all_within cap (push_all s1 b0)) as Hb1
    by (apply push_all_within; [lia | done]).
  destruct (push_all_latest cap s1 b0 Hcap (proj1 Hb0)) as (P1 & P2 & P3 & P4 & P5 & P6).
  destruct (push_all_latest cap s2 _ Hcap Hb1) as (Q1 & Q2 & Q3 & Q4 & Q5 & Q6).
  destruct (zip3_samples 1 _ _ _ A1 A2) as (Z1 & Z2 & Z3 & Z4 & Z5).
  destruct (zip3_samples 2 _ _ _ A3 A4) as (Y1 & Y2 & Y3 & Y4 & Y5).
  cbn zeta in *. fold s1 in Z1, Z2, Z3, Z4, Z5. fold s2 in Y1, Y2, Y3, Y4, Y5.
  cbn [Z.eqb Pos.eqb] in Z4, Z5, Y4, Y5.
  rewrite Q1, Q2, Q3, Q4, Q5, Q6, P1, P2, P3, P4, P5, P6.
  rewrite Z4, Z5, Y4, Y5, Z1, Z2, Z3, Y1, Y2, Y3. cbn [map]. rewrite !app_nil_r.
  rewrite !latest_app by lia. unfold b0, clear, deque.clear.
  cbn [t1 T1 H1 t2 T2 H2 deque.items app]. by rewrite !latest_idem by lia.
Qed.

Lemma static_import_fills_buffers_witness :
  let fieldnames := [ts_col; inlet_T_col; inlet_H_col; outlet_T_col; outlet_H_col] in
  let rows : list row :=
    [ (fun c => match c with
                | ts_col => Some (lit "00:01.500")
                | inlet_T_col => Some (lit "25.0") | inlet_H_col => Some (lit "40")
                | outlet_T_col => Some (lit "") | outlet_H_col => None
                end);
      (fun c => match c with
                | ts_col => Some (lit "soon")
                | inlet_T_col => Some (lit "26.5") | inlet_H_col => Some (lit "41")
                | outlet_T_col => Some (lit "30") | outlet_H_col => Some (lit " 50 ")
                end) ] in
  let l := mk_loaded [Fin (3 # 2); Fin (1 # 4)] [Fin 25; Fin (53 # 2)]
                     [Fin 40; Fin 41] [Fin (1 # 4)] [Fin 30] [Fin 50] in
  let b := OverlayItem.buffers (static_loaded l (OverlayItem.init 1)) in
  _load_static_csv_worker fieldnames rows = Ok l /\
  deque.items (t1 b) = [Fin (1 # 4)] /\ deque.items (T1 b) = [Fin (53 # 2)] /\
  deque.items (t2 b) = [Fin (1 # 4)] /\ deque.items (T2 b) = [Fin 30].
Proof.
  intros fieldnames rows l b.
  assert (_load_static_csv_worker fieldnames rows = Ok l) as Hl
    by (vm_compute; reflexivity).
  assert (0 < 1) as Hcap by lia.
  assert (all_within 1 (OverlayItem.buffers (OverlayItem.init 1))) as Hov
    by (apply init_within; lia).
  destruct (static_import_fills_buffers fieldnames rows l 1 (OverlayItem.init 1)
              Hl Hcap Hov) as (_ & E1 & E2 & _ & E4 & E5 & _).
  split; [exact Hl|]. split; [exact E1|]. split; [exact E2|].
  split; [exact E4 | exact E5].
Defined.

End StaticImport.
(** ** Recovery from a truncation *)

Section Recovery.

Import DataMonitor LivePlotterApp.

Lemma parse_read_of ref s : preserves (read_of ref) (parse_log_line_abs_seconds s).
Proof.
  intros self (Hok & Hm & Ho & He).
  split; [by apply parse_caches_ok|].
  destruct (parse_line s) as (k & Hk & Hs). rewrite Hs by done.
  destruct k as [t_abs sid temp hum| |]; [|done..]. cbn [run_line].
  destruct (caches_ok_lookup self sid Hok Hk) as (lt & lh & Ht & Hh & _).
  rewrite (validate_run _ _ _ _ _ _ _ Ht Hh). by destruct (_ && _).
Qed.

Lemma read_of_same ref self self' :
  _last_good_temp self' = _last_good_temp self ->
  _last_good_hum self' = _last_good_hum self ->
  main self' = main self -> overlays self' = overlays self ->
  event_q self' = event_q self ->
  read_of ref self -> read_of ref self'.
Proof.
  intros Et Eh Em Eo Ee (Hok & Hm & Ho & He).
  split; [by apply (caches_ok_same self)|]. by rewrite Em, Eo, Ee.
Qed.

Lemma process_chunk_read_of ref chunk : preserves (read_of ref) (process_chunk chunk).
Proof.
  unfold process_chunk. destruct chunk; [apply preserves_ret|].
  apply preserves_bind; [apply preserves_get|]. intros self'.
  destruct (take_lines _ _) as [lines carry].
  apply preserves_bind;
    [apply preserves_modify; intros s; by apply read_of_same|]. intros _.
  apply preserves_for_each. intros ln.
  apply preserves_bind; [apply parse_read_of|]. intros [p|];
    [|apply preserves_ret].
  apply preserves_modify; intros s; by apply read_of_same.
Qed.

Lemma read_main_read_of ref content : preserves (read_of ref) (read_main content).
Proof.
  unfold read_main.
  apply preserves_bind; [apply preserves_or_raise|]. intros c.
  apply preserves_bind; [apply preserves_get|]. intros self.
  destruct (read_from (file_pos self) c) as [chunk pos].
  apply preserves_bind;
    [apply preserves_modify; intros s; by apply read_of_same|]. intros _.
  apply process_chunk_read_of.
Qed.

(** [reset_main] forgets what the reading of a chunk assigns *)
Lemma reset_main_read_of ref self :
  main self = main ref -> overlays self = overlays ref ->
  set_event_q [] (reset_main self) = set_event_q [] (reset_main ref).
Proof. intros Hm Ho. unfold reset_main, set_event_q. cbn. by rewrite Hm, Ho. Qed.

Lemma reset_main_idem m : reset_main (reset_main m) = reset_main m.
Proof. by destruct m. Qed.

(** the events handled one by one: nothing happened, or a reset did *)
Lemma handle_events_fold evs : forall m,
  let m' := fold_left (fun m ev => match ev with
                                   | RESET _ => reset_main m
                                   | ERROR => m
                                   end) evs m in
  (m' = m /\ Forall (fun ev => ev = ERROR) evs)
  \/ (m' = reset_main m /\ Exists (fun ev => ev <> ERROR) evs).
Proof.
  induction evs as [|ev evs IH]; intros m; [by left|]. cbn [fold_left].
  destruct ev as [msg|].
  - right. split; [|by left].
    destruct (IH (reset_main m)) as [[-> _]|[-> _]]; [done|].
    apply reset_main_idem.
  - destruct (IH m) as [[E Hall]|[E Hex]]; [left|right]; cbn zeta in *.
    + split; [done | by constructor].
    + split; [done | by right].
Qed.

Lemma handle_events_reset m :
  Exists (fun ev => ev <> ERROR) (event_q m) ->
  _handle_events m = set_event_q [] (reset_main m).
Proof.
  intros Hex. unfold _handle_events.
  destruct (handle_events_fold (event_q m) (set_event_q [] m)) as [[_ Hall]|[-> _]].
  - apply Exists_exists in Hex as (ev & Hin & Hev).
    rewrite Forall_forall in Hall. by specialize (Hall ev Hin).
  - by destruct m.
Qed.



End Recovery.
(** ** The time axis *)

Section View.

Local Open Scope Q_scope.

Lemma leb_trans a b c : leb a b = true -> leb b c = true -> leb a c = true.
Proof.
  destruct a as [x| | |], b as [y| | |], c as [z| | |]; try done.
  cbn. rewrite !Qle_bool_iff. apply Qle_trans.
Qed.

Lemma ltb_leb a b : ltb a b = true -> leb a b = true.
Proof.
  destruct a as [x| | |], b as [y| | |]; try done.
  intros H. apply ltb_Fin in H. apply leb_Fin. lra.
Qed.

Lemma leb_refl a : a <> NaN -> leb a a = true.
Proof. destruct a as [x| | |]; try done. intros _. apply leb_Fin. lra. Qed.

Lemma max2_left a b : a <> NaN -> leb a (max2 a b) = true.
Proof.
  intros Ha. unfold max2, gtb. destruct (ltb a b) eqn:E;
    [by apply ltb_leb | by apply leb_refl].
Qed.

Lemma max2_right a b : a <> NaN -> b <> NaN -> leb b (max2 a b) = true.
Proof.
  intros Ha Hb. unfold max2, gtb. destruct (ltb a b) eqn:E;
    [by apply leb_refl|].
  destruct a as [x| | |], b as [y| | |]; try done.
  apply ltb_Fin_false in E. by apply leb_Fin.
Qed.

Lemma leb_not_nan a b : leb a b = true -> a <> NaN /\ b <> NaN.
Proof. by destruct a, b. Qed.

Lemma get_latest_time_fold monitor :
  _get_latest_time monitor = fold_left latest_of (time_sequences monitor) (Fin 0).
Proof.
  unfold _get_latest_time, time_sequences. cbn [app fold_left].
  generalize (latest_of (latest_of (Fin 0)
                (StreamBuffers.t1 (DataMonitor.main monitor)))
                (StreamBuffers.t2 (DataMonitor.main monitor))).
  induction (DataMonitor.overlays monitor) as [|ov ovs IH]; intros tmax; [done|].
  cbn [fold_left flat_map app]. apply IH.
Qed.

Lemma latest_of_above tmax d :
  leb (Fin 0) tmax = true ->
  leb (Fin 0) (latest_of tmax d) = true /\ leb tmax (latest_of tmax d) = true
  /\ forall x, last (deque.items d) = Some x -> x <> NaN ->
               leb x (latest_of tmax d) = true.
Proof.
  intros H0. destruct (leb_not_nan _ _ H0) as [_ Hn]. unfold latest_of.
  destruct (last (deque.items d)) as [x|].
  - split_and!.
    + eapply leb_trans; [exact H0 | by apply max2_left].
    + by apply max2_left.
    + intros ? [= <-] Hx. by apply max2_right.
  - split_and!; [done | by apply leb_refl | done].
Qed.

Lemma latest_fold_above ds : forall tmax,
  leb (Fin 0) tmax = true ->
  let r := fold_left latest_of ds tmax in
  leb (Fin 0) r = true /\ leb tmax r = true /\
  forall d x, In d ds -> last (deque.items d) = Some x -> x <> NaN ->
              leb x r = true.
Proof.
  induction ds as [|d ds IH]; intros tmax H0; cbn [fold_left].
  - split_and!; [done| |done].
    apply leb_refl. by destruct (leb_not_nan _ _ H0).
  - destruct (latest_of_above tmax d H0) as (L0 & L1 & L2).
    destruct (IH _ L0) as (I0 & I1 & I2). cbn zeta in *.
    split_and!; [done | by eapply leb_trans |].
    intros d' x [<-|Hin] Hx Hn; [|by eapply I2].
    eapply leb_trans; [by apply L2 | done].
Qed.

Lemma max2_zero_same t :
  leb (Fin 0) t = true ->
  leb (max2 (Fin 0) t) t = true /\ leb t (max2 (Fin 0) t) = true.
Proof.
  intros H0. destruct (leb_not_nan _ _ H0) as [_ Hn].
  split; [|by apply max2_right].
  unfold max2, gtb. destruct (ltb (Fin 0) t); [by apply leb_refl | done].
Qed.

Lemma rolling_window x1 :
  leb (Fin 0) x1 = true ->
  let x0 := max2 (Fin 0) (sub x1 VIEW_WINDOW_SEC) in
  leb (Fin 0) x0 = true /\ leb x0 x1 = true /\
  forall q1, x1 = Fin q1 -> exists q0, x0 = Fin q0 /\ q1 - q0 <= 180.
Proof.
  intros H0. cbn zeta. split; [by apply max2_left|].
  destruct x1 as [q1| | |]; try done.
  apply leb_Fin in H0. unfold VIEW_WINDOW_SEC, sub, max2.
  destruct (gtb (Fin (Qred (q1 - 180))) (Fin 0)) eqn:E.
  - apply gtb_Fin in E. rewrite Qred_correct in E. split.
    + apply leb_Fin. rewrite Qred_correct. lra.
    + intros ? [= <-]. eexists; split; [done|]. rewrite Qred_correct. lra.
  - apply gtb_Fin_false in E. rewrite Qred_correct in E. split.
    + by apply leb_Fin.
    + intros ? [= <-]. eexists; split; [done|]. lra.
Qed.



End View.
(** ** The rows of the export *)

Section ExportRows.

Local Open Scope Q_scope.



End ExportRows.
(** ** The tick labels of the time axis *)

Section TickLabels.

Local Open Scope Q_scope.

Lemma Qfloor_unique (y : Q) (k : Z) :
  inject_Z k <= y -> y < inject_Z (k + 1) -> Qfloor y = k.
Proof.
  intros Hlo Hhi.
  pose proof (Qfloor_le y) as Hf. pose proof (Qlt_floor y) as Hc.
  assert (inject_Z k < inject_Z (Qfloor y + 1)) as H1 by lra.
  assert (inject_Z (Qfloor y) < inject_Z (k + 1)) as H2 by lra.
  rewrite <- Zlt_Qlt in H1, H2. lia.
Qed.

Lemma Qfloor_div (x : Q) (n : Z) :
  (0 < n)%Z -> Qfloor (x / inject_Z n) = (Qfloor x / n)%Z.
Proof.
  intros Hn.
  pose proof (Qfloor_le x) as Hf. pose proof (Qlt_floor x) as Hc.
  pose proof (Z.mul_div_le (Qfloor x) n Hn) as Hlo.
  pose proof (Z.mul_succ_div_gt (Qfloor x) n Hn) as Hhi.
  assert (0 < inject_Z n) as Hn' by (rewrite <- (Zlt_Qlt 0); lia).
  set (k := (Qfloor x / n)%Z) in *.
  assert (inject_Z (n * k) <= inject_Z (Qfloor x)) as Hlo'
    by (rewrite <- Zle_Qle; lia).
  assert (inject_Z (Qfloor x + 1) <= inject_Z (n * (k + 1))) as Hhi'
    by (rewrite <- Zle_Qle; lia).
  rewrite inject_Z_mult in Hlo', Hhi'. rewrite inject_Z_plus in Hhi'.
  apply Qfloor_unique.
  - apply Qle_shift_div_l; [done|]. lra.
  - apply Qlt_shift_div_r; [done|]. rewrite inject_Z_plus in *. lra.
Qed.

Lemma Qfloor_sub (x : Q) (n : Z) :
  Qfloor (x - inject_Z n) = (Qfloor x - n)%Z.
Proof.
  pose proof (Qfloor_le x) as Hf. pose proof (Qlt_floor x) as Hc.
  rewrite inject_Z_plus in Hc.
  apply Qfloor_unique.
  - unfold Z.sub. rewrite inject_Z_plus, inject_Z_opp. lra.
  - replace (Qfloor x - n + 1)%Z with (Qfloor x + 1 + - n)%Z by lia.
    rewrite !inject_Z_plus, inject_Z_opp. lra.
Qed.

Lemma int_of_float_nonneg (v : Q) :
  0 <= v -> int_of_float (Fin v) = Some (Qfloor v).
Proof.
  intros H. unfold int_of_float.
  by rewrite (proj2 (Qle_bool_iff 0 v) H).
Qed.

Lemma fmt_mmss_finite (q : Q) :
  0 <= q ->
  int_of_float (floordiv (Fin q) 60) = Some (Qfloor q / 60)%Z /\
  int_of_float (fmod (Fin q) 60) = Some (Qfloor q mod 60)%Z.
Proof.
  intros Hq. unfold floordiv, fmod.
  pose proof (Qfloor_div q 60 eq_refl) as Hdiv.
  change (inject_Z 60) with 60 in Hdiv. rewrite Hdiv.
  pose proof (Qfloor_le q) as Hf. pose proof (Qlt_floor q) as Hc.
  assert (0 <= Qfloor q)%Z as Hf0.
  { assert (inject_Z 0 < inject_Z (Qfloor q + 1)) as H by (change (inject_Z 0) with 0; lra).
    rewrite <- Zlt_Qlt in H. lia. }
  set (k := (Qfloor q / 60)%Z).
  assert (0 <= k)%Z as Hk by (apply Z.div_pos; lia).
  pose proof (Z.mul_div_le (Qfloor q) 60 eq_refl) as Hlo. fold k in Hlo.
  assert (inject_Z (60 * k) <= inject_Z (Qfloor q)) as Hlo'
    by (rewrite <- Zle_Qle; lia).
  rewrite inject_Z_mult in Hlo'. change (inject_Z 60) with 60 in Hlo'.
  split.
  - rewrite int_of_float_nonneg by (rewrite <- (Zle_Qle 0); lia).
    by rewrite Qfloor_Z.
  - rewrite int_of_float_nonneg by (rewrite Qred_correct; lra).
    f_equal. rewrite (Qfloor_comp _ (q - inject_Z (k * 60))).
    + rewrite Qfloor_sub. unfold k. rewrite Z.mod_eq by lia. lia.
    + rewrite Qred_correct, inject_Z_mult. reflexivity.
Qed.



End TickLabels.
(** ** Timestamps written and read back *)

Section Timestamps.

Lemma digit_char_val d :
  0 <= d < 10 ->
  isdigit (ascii_of_N (Z.to_N (48 + d))) = true
  /\ digit_val (ascii_of_N (Z.to_N (48 + d))) = d.
Proof.
  intros H.
  assert (d = 0 \/ d = 1 \/ d = 2 \/ d = 3 \/ d = 4 \/ d = 5 \/ d = 6 \/ d = 7
          \/ d = 8 \/ d = 9) as Hd by lia.
  repeat (destruct Hd as [->|Hd]; [done|]). by subst.
Qed.

Lemma digits_value_app l d :
  digits_value (l ++ [d]) = 10 * digits_value l + d.
Proof. unfold digits_value. by rewrite fold_left_app. Qed.

Lemma log2_tenth n : 10 <= n -> Z.log2 (n / 10) <= Z.log2 n - 1.
Proof.
  intros H.
  assert (0 < n / 10) by (apply Z.div_str_pos; lia).
  assert (n / 10 < 2 ^ (Z.log2 n)) as Hlt.
  { pose proof (Z.log2_spec n ltac:(lia)) as [_ Hup].
    replace (Z.succ (Z.log2 n)) with (1 + Z.log2 n) in Hup by lia.
    rewrite Z.pow_add_r in Hup by (first [lia | apply Z.log2_nonneg]).
    apply Z.div_lt_upper_bound; lia. }
  apply Z.log2_lt_pow2 in Hlt; lia.
Qed.

Lemma decimal_digits_spec fuel : forall n,
  0 <= n -> Z.log2 n <= Z.of_nat fuel ->
  digit_string (decimal_digits fuel n)
  /\ digits_value (map digit_val (decimal_digits fuel n)) = n.
Proof.
  induction fuel as [|fuel IH]; intros n Hn Hlog.
  - assert (n < 2) as Hlt.
    { destruct (Z.lt_ge_cases n 2) as [|Hge]; [done|].
      pose proof (Z.log2_le_mono 2 n Hge) as Hm. change (Z.log2 2) with 1 in Hm.
      lia. }
    cbn [decimal_digits]. rewrite Z.mod_small by lia.
    destruct (digit_char_val n ltac:(lia)) as [Hd Hv].
    split; [split; [done | by repeat constructor]|].
    cbn. rewrite Hv. lia.
  - cbn [decimal_digits]. destruct (Z.ltb_spec n 10) as [Hlt|Hge].
    + rewrite Z.mod_small by lia.
      destruct (digit_char_val n ltac:(lia)) as [Hd Hv].
      split; [split; [done | by repeat constructor]|].
      cbn. rewrite Hv. lia.
    + pose proof (log2_tenth n Hge) as Hl.
      destruct (IH (n / 10)) as ([Hne Hall] & Hval);
        [apply Z.div_pos; lia | lia |].
      destruct (digit_char_val (n mod 10)) as [Hd Hv];
        [apply Z.mod_pos_bound; lia|].
      split; [split|].
      * by destruct (decimal_digits fuel (n / 10)).
      * apply Forall_app_2; [done | by repeat constructor].
      * rewrite map_app. cbn [map]. rewrite digits_value_app, Hval, Hv.
        pose proof (Z.div_mod n 10). lia.
Qed.

Lemma digits_value_zeros k ds :
  digits_value (map digit_val (replicate k "0"%char ++ ds))
  = digits_value (map digit_val ds).
Proof.
  unfold digits_value. induction k as [|k IH]; [done|]. cbn. exact IH.
Qed.

(** [f"{n:0{width}d}"] of a natural number is read back by [int] *)
Lemma format_0d_int width n :
  0 <= n -> digit_string (format_0d width n) /\ int (format_0d width n) = Some n.
Proof.
  intros Hn. unfold format_0d. destruct (Z.ltb_spec n 0); [lia|].
  rewrite Z.abs_eq by done.
  destruct (decimal_digits_spec (Z.to_nat (Z.log2 n)) n Hn) as ([Hne Hall] & Hval).
  { rewrite Z2Nat.id; [lia | apply Z.log2_nonneg]. }
  assert (digit_string (replicate (width - length (decimal_digits (Z.to_nat (Z.log2 n)) n))
                          "0"%char ++ decimal_digits (Z.to_nat (Z.log2 n)) n)) as Hds.
  { split.
    - intros E. apply app_eq_nil in E as [_ E]. done.
    - apply Forall_app_2; [|done]. by apply Forall_replicate. }
  split; [done|]. rewrite int_digit_string by done.
  by rewrite digits_value_zeros, Hval.
Qed.

(** *** The matcher on a digit run *)

Lemma exec_star_greedy p w rest g k m :
  Forall (fun c => p c = true) w ->
  (rest = [] \/ exists c r, rest = c :: r /\ p c = false) ->
  k rest g = Some m ->
  exec (Star p) (w ++ rest) g k = Some m.
Proof.
  intros Hw Hrest Hk. induction Hw as [|c w Hc Hw IH]; cbn [app].
  - destruct Hrest as [->|(c & r & -> & Hc)]; [done|].
    by rewrite exec_star_cons, Hc.
  - by rewrite exec_star_cons, Hc, IH.
Qed.

Lemma exec_star_none p s g k :
  (s = [] \/ exists c r, s = c :: r /\ p c = false) ->
  exec (Star p) s g k = k s g.
Proof.
  intros [->|(c & r & -> & Hc)]; [done|]. by rewrite exec_star_cons, Hc.
Qed.

Lemma exec_seq a b s g k :
  exec (Seq a b) s g k = exec a s g (fun s' g' => exec b s' g' k).
Proof. reflexivity. Qed.

Lemma exec_grp name a s g k :
  exec (Grp name a) s g k
  = exec a s g (fun s' g' => k s' ((name, take (length s - length s')%nat s) :: g')).
Proof. reflexivity. Qed.

Lemma exec_cls p c s g k :
  exec (Cls p) (c :: s) g k = if p c then k s g else None.
Proof. reflexivity. Qed.

Lemma exec_chr c s g k : exec (Chr c) (c :: s) g k = k s g.
Proof. unfold Chr. by rewrite exec_cls, Ascii.eqb_refl. Qed.

Lemma exec_grp_digits name w rest g k m :
  digit_string w ->
  (rest = [] \/ exists c r, rest = c :: r /\ isdigit c = false) ->
  k rest ((name, w) :: g) = Some m ->
  exec (Grp name digits) (w ++ rest) g k = Some m.
Proof.
  intros Hw Hrest Hk.
  destruct (digit_string_head w Hw) as (c & w' & -> & Hc & Hw').
  unfold digits, Plus. rewrite exec_grp, exec_seq. cbn [app].
  rewrite exec_cls, Hc.
  apply exec_star_greedy; [done | done |].
  replace (take _ _) with (c :: w'); [done|].
  change (c :: w' ++ rest) with ((c :: w') ++ rest).
  rewrite length_app.
  replace (length (c :: w') + length rest - length rest)%nat
    with (length (c :: w')) by lia.
  by rewrite take_app_length.
Qed.

Lemma TS_RE_match f1 f2 f3 :
  digit_string f1 -> digit_string f2 -> digit_string f3 ->
  rmatch TS_RE (f1 ++ ":"%char :: f2 ++ "."%char :: f3)
  = Some [("3"%string, f3); ("2"%string, f2); ("1"%string, f1)].
Proof.
  intros H1 H2 H3. unfold rmatch, TS_RE, seqs. cbn [foldr].
  destruct (digit_string_head f1 H1) as (c & f1' & E1 & Hc & _).
  rewrite exec_seq. unfold ws at 1. rewrite (exec_star_none isspace).
  2:{ right. exists c, (f1' ++ ":"%char :: f2 ++ "."%char :: f3).
      split; [by rewrite E1 | by apply isdigit_not_space]. }
  rewrite exec_seq.
  apply exec_grp_digits; [done | right; by eexists _, _|].
  rewrite exec_seq, exec_chr, exec_seq.
  apply exec_grp_digits; [done | right; by eexists _, _|].
  rewrite exec_seq, exec_chr, exec_seq.
  rewrite <- (app_nil_r f3) at 1.
  apply exec_grp_digits; [done | by left|]. done.
Qed.

End Timestamps.

Section TimestampRoundTrip.

Local Open Scope Q_scope.

Lemma digit_string_trimmed_ends (a b rest : pystr) :
  digit_string a -> digit_string b -> trimmed (a ++ rest ++ b).
Proof.
  intros Ha Hb.
  destruct (digit_string_head a Ha) as (c & a' & -> & Hc & _).
  destruct (digit_string_last b Hb) as (d & b' & Eb & Hd).
  exists c, d, (a' ++ rest ++ b), (b' ++ rev rest ++ rev (c :: a')).
  split_and!; [done | | by apply isdigit_not_space | by apply isdigit_not_space].
  by rewrite !rev_app_distr, Eb, <- !app_assoc.
Qed.

Lemma strip_of_trimmed x : trimmed x -> strip x = x.
Proof.
  intros H. pose proof (strip_padded [] x [] (List.Forall_nil _) (List.Forall_nil _) H) as E.
  by rewrite app_nil_r in E.
Qed.



End TimestampRoundTrip.
(** ** The cells of a static import *)

Section Cells.

Lemma lstrip_spec s :
  exists sp, s = sp ++ lstrip s /\ spaces sp
             /\ (lstrip s = [] \/ exists c r, lstrip s = c :: r /\ isspace c = false).
Proof.
  induction s as [|c s (sp & E & Hsp & Hhead)].
  - exists []. split_and!; [done | by constructor | by left].
  - cbn [lstrip]. destruct (isspace c) eqn:Hc.
    + exists (c :: sp). split_and!; [by rewrite E at 1 | by constructor | done].
    + exists []. split_and!; [done | by constructor |]. right. by exists c, s.
Qed.

Lemma lstrip_fixed s :
  (s = [] \/ exists c r, s = c :: r /\ isspace c = false) -> lstrip s = s.
Proof. intros [->|(c & r & -> & Hc)]; [done|]. cbn. by rewrite Hc. Qed.

(** [strip] leaves nothing to strip *)
Lemma strip_trimmed_or_empty s : strip s = [] \/ trimmed (strip s).
Proof.
  unfold strip.
  destruct (lstrip_spec s) as (sp1 & E1 & _ & H1).
  destruct (lstrip_spec (rev (lstrip s))) as (sp2 & E2 & Hsp2 & H2).
  set (a := lstrip s) in *. set (b := lstrip (rev a)) in *.
  destruct H2 as [->|(d & r & Eb & Hd)]; [by left|]. right.
  assert (a = rev b ++ rev sp2) as Ea.
  { rewrite <- (rev_involutive a), E2. by rewrite rev_app_distr. }
  destruct H1 as [Hnil|(c & r1 & Ec & Hc)].
  { rewrite Hnil in E2. cbn in E2. destruct sp2; [by rewrite Eb in E2 | done]. }
  rewrite Eb in *. cbn [rev] in Ea.
  exists (hd c (rev r ++ [d])), d, (tl (rev r ++ [d])), r.
  split_and!; [| by apply rev_involutive | | done].
  - cbn [rev]. by destruct (rev r).
  - rewrite Ec in Ea. destruct (rev r) as [|c' r']; cbn in *.
    + by injection Ea as -> _.
    + by injection Ea as -> _.
Qed.

Lemma strip_idem s : strip (strip s) = strip s.
Proof.
  destruct (strip_trimmed_or_empty s) as [->|H]; [done|].
  pose proof (strip_padded [] (strip s) [] (List.Forall_nil _) (List.Forall_nil _) H) as E.
  by rewrite app_nil_r in E.
Qed.

End Cells.

Section Cells2.

Lemma lower_char_sign c :
  (lower_char c = "-"%char -> c = "-"%char) /\ (lower_char c = "+"%char -> c = "+"%char).
Proof. by destruct c as [[] [] [] [] [] [] [] []]. Qed.

Lemma float_not_signed c r :
  strip (c :: r) = c :: r ->
  Ascii.eqb c "-" = false -> Ascii.eqb c "+" = false ->
  float (c :: r)
  = let low := lower (c :: r) in
    if Str.eqb low (lit "inf") || Str.eqb low (lit "infinity") then Some PInf
    else if Str.eqb low (lit "nan") then Some NaN
    else match floatnumber (c :: r) with
         | Some q => Some (Fin q)
         | None => None
         end.
Proof. intros Hs Hm Hp. unfold float. by rewrite Hs, Hm, Hp. Qed.

Lemma float_signed (negative : bool) r :
  let c := if negative then "-"%char else "+"%char in
  strip (c :: r) = c :: r ->
  float (c :: r)
  = let low := lower r in
    if Str.eqb low (lit "inf") || Str.eqb low (lit "infinity")
    then Some (if negative then NInf else PInf)
    else if Str.eqb low (lit "nan") then Some NaN
    else match floatnumber r with
         | Some q => Some (if negative then neg (Fin q) else Fin q)
         | None => None
         end.
Proof. intros c Hs. unfold float. rewrite Hs. by destruct negative. Qed.



End Cells2.
(** ** The static import on any file *)

Section StaticImportTotal.

Lemma TS_RE_groups s m :
  rmatch TS_RE s = Some m ->
  exists f1 f2 f3,
    m = [("3"%string, f3); ("2"%string, f2); ("1"%string, f1)]
    /\ digit_string f1 /\ digit_string f2 /\ digit_string f3.
Proof.
  unfold rmatch. intros H. apply exec_matches in H as (s' & g' & H & E).
  injection E as ->.
  unfold TS_RE, seqs in H. cbn [foldr] in H.
  repeat match type of H with
  | matches (Seq _ _) _ _ _ _ =>
      let s1 := fresh "s" in let g1 := fresh "g" in let Ha := fresh "M" in
      apply matches_seq_inv in H as (s1 & g1 & Ha & H)
  end.
  inversion H; subst; clear H.
  apply matches_ws in M0 as [-> _].
  apply matches_grp_digits in M1 as (f1 & H1 & _ & ->).
  apply matches_chr in M2 as [_ ->].
  apply matches_grp_digits in M3 as (f2 & H2 & _ & ->).
  apply matches_chr in M4 as [_ ->].
  apply matches_grp_digits in M5 as (f3 & H3 & _ & ->).
  apply matches_ws in M6 as [-> _].
  apply matches_eos in M7 as (-> & _).
  by exists f1, f2, f3.
Qed.

(** [parse_ts_mmss_mmm] returns on every cell *)
Lemma parse_ts_mmss_mmm_total s : parse_ts_mmss_mmm s <> Raise.
Proof.
  unfold parse_ts_mmss_mmm. destruct s as [s|]; [|done].
  destruct (rmatch TS_RE (strip s)) as [m|] eqn:E; [|done].
  apply TS_RE_groups in E as (f1 & f2 & f3 & -> & H1 & H2 & H3).
  cbn [group String.eqb Ascii.eqb Bool.eqb]. unfold to_seconds.
  by rewrite !int_digit_string.
Qed.

Lemma load_row_total has_ts l idx rw :
  exists l', load_row has_ts (Ok (l, idx)) rw = Ok (l', idx + 1)
             /\ (length (l_t1 l') <= S (length (l_t1 l)))%nat
             /\ (length (l_t2 l') <= S (length (l_t2 l)))%nat.
Proof.
  unfold load_row.
  assert (exists t, (if has_ts
                     then match parse_ts_mmss_mmm (rw ts_col) with
                          | Ok (Some t) => Ok t
                          | Ok None => Ok (mul (Fin (inject_Z idx)) STATIC_DT_SEC)
                          | Raise => Raise
                          end
                     else Ok (mul (Fin (inject_Z idx)) STATIC_DT_SEC)) = Ok t)
    as (t & ->).
  { destruct has_ts; [|by eexists].
    pose proof (parse_ts_mmss_mmm_total (rw ts_col)) as Hnr.
    destruct (parse_ts_mmss_mmm (rw ts_col)) as [[t|]|]; [by eexists..|done]. }
  eexists. split; [reflexivity|].
  destruct (safe_float (rw inlet_T_col)), (safe_float (rw inlet_H_col)),
    (safe_float (rw outlet_T_col)), (safe_float (rw outlet_H_col));
    cbn; rewrite ?length_app; cbn; lia.
Qed.

Lemma load_rows_total has_ts rows : forall l idx,
  exists l', fold_left (load_row has_ts) rows (Ok (l, idx))
             = Ok (l', idx + Z.of_nat (length rows))
             /\ (length (l_t1 l') <= length (l_t1 l) + length rows)%nat
             /\ (length (l_t2 l') <= length (l_t2 l) + length rows)%nat.
Proof.
  induction rows as [|rw rows IH]; intros l idx.
  - exists l. rewrite Z.add_0_r. cbn. split; [done | lia].
  - destruct (load_row_total has_ts l idx rw) as (l1 & E & L1 & L2).
    destruct (IH l1 (idx + 1)) as (l' & E' & L1' & L2').
    exists l'. cbn [fold_left length]. rewrite E, E'.
    split; [f_equal; f_equal; lia | lia].
Qed.



End StaticImportTotal.
(** ** The cut between two reads *)

Section Chunks.

Lemma splitlines_from_prefix p : forall cur s,
  no_linebreak p -> splitlines_from cur (p ++ s) = splitlines_from (rev p ++ cur) s.
Proof.
  induction p as [|c p IH]; intros cur s Hnl; [done|].
  apply Forall_cons in Hnl as [Hc Hp]. cbn [app splitlines_from].
  assert (Ascii.eqb c CR = false) as ->.
  { destruct (Ascii.eqb_spec c CR) as [->|]; [by vm_compute in Hc | done]. }
  rewrite Hc, IH by done. cbn [rev]. by rewrite <- app_assoc.
Qed.

Lemma splitlines_from_nonempty s cur :
  s <> [] -> splitlines_from cur s <> [].
Proof.
  revert cur. induction s as [|c s IH]; intros cur Hne; [done|].
  cbn [splitlines_from]. destruct (Ascii.eqb c CR).
  - destruct s as [|d s']; [done|]. by destruct (Ascii.eqb d LF).
  - destruct (islinebreak c); [done|].
    destruct s as [|d s']; [by destruct cur|]. by apply IH.
Qed.

Lemma startswith_nil s : startswith s [] = true.
Proof. by destruct s. Qed.

Lemma endswith_snoc l c d : endswith (l ++ [c]) [d] = Ascii.eqb c d.
Proof.
  unfold endswith. rewrite rev_app_distr. cbn [rev app startswith].
  by rewrite startswith_nil, andb_true_r.
Qed.

Lemma continued_cons first rest y :
  rest <> [] -> continued (first :: rest) y = first :: continued rest y.
Proof.
  intros Hne. unfold continued.
  assert (last (first :: rest) = last rest) as -> by (by destruct rest).
  destruct (last rest) as [l|] eqn:El; [|by destruct rest using rev_ind;
    [|rewrite last_snoc in El]].
  assert (removelast (first :: rest) = first :: removelast rest) as ->
    by (by destruct rest).
  destruct (_ && _); [done|]. by destruct (_ || _).
Qed.

End Chunks.

Section Chunks2.

Lemma islinebreak_CR_LF : islinebreak CR = true /\ islinebreak LF = true.
Proof. done. Qed.

Lemma no_linebreak_rev p : no_linebreak p -> no_linebreak (rev p).
Proof. apply Forall_rev. Qed.

(** a line that ends at the break [c], continued *)
Lemma continued_single cur c y :
  no_linebreak cur -> islinebreak c = true -> Ascii.eqb c CR = false ->
  continued [rev (c :: cur)] y = rev (c :: cur) :: splitlines_keepends y.
Proof.
  intros Hnl Hc Hcr. unfold continued. cbn [last rev].
  rewrite !endswith_snoc, Hcr. cbn [andb].
  destruct (Ascii.eqb c LF) eqn:Elf; [done|]. cbn [orb removelast app].
  unfold splitlines_keepends. rewrite <- app_assoc.
  rewrite splitlines_from_prefix by (by apply no_linebreak_rev).
  rewrite rev_involutive, app_nil_r. cbn [app splitlines_from].
  by rewrite Hcr, Hc.
Qed.

Lemma splitlines_continued n : forall x cur y,
  (length x <= n)%nat -> no_linebreak cur ->
  splitlines_from cur (x ++ y) = continued (splitlines_from cur x) y.
Proof.
  induction n as [|n IH]; intros x cur y Hlen Hnl.
  - destruct x; [|cbn in Hlen; lia]. cbn [app splitlines_from].
    destruct cur as [|c cur']; [done|].
    unfold continued. cbn [last].
    rewrite !no_linebreak_not_terminated
      by first [by apply no_linebreak_rev | done].
    cbn [andb orb removelast app]. unfold splitlines_keepends.
    rewrite splitlines_from_prefix by (by apply no_linebreak_rev).
    by rewrite rev_involutive, app_nil_r.
  - destruct x as [|c x].
    { apply (IH [] cur y); [cbn; lia | done]. }
    cbn [length] in Hlen. cbn [app splitlines_from].
    destruct (Ascii.eqb_spec c CR) as [->|Hcr].
    + destruct x as [|d x'].
      * (* the text ends with CR *)
        cbn [app]. unfold continued. cbn [last rev].
        rewrite !endswith_snoc. cbn [Ascii.eqb Bool.eqb andb orb].
        destruct y as [|d y']; [done|]. cbn [startswith tail].
        rewrite startswith_nil, andb_true_r.
        destruct (Ascii.eqb d LF) eqn:Ed; [|done].
        apply Ascii.eqb_eq in Ed as ->. cbn [removelast app rev].
        by rewrite <- !app_assoc.
      * cbn [app]. destruct (Ascii.eqb d LF) eqn:Ed.
        -- rewrite (IH x' [] y) by (first [cbn in *; lia | by constructor]).
           destruct x' as [|e x'']; [|rewrite continued_cons;
             [done | by apply splitlines_from_nonempty]].
           apply Ascii.eqb_eq in Ed as ->.
           cbn [splitlines_from]. unfold continued. cbn [last rev].
           rewrite !endswith_snoc. by cbn.
        -- change (d :: x' ++ y) with ((d :: x') ++ y).
           rewrite (IH (d :: x') [] y) by (first [cbn in *; lia | by constructor]).
           rewrite continued_cons; [done | by apply splitlines_from_nonempty].
    + apply Ascii.eqb_neq in Hcr.
      destruct (islinebreak c) eqn:Hc.
      * rewrite (IH x [] y) by (first [lia | by constructor]).
        destruct x as [|e x'']; [|rewrite continued_cons;
          [done | by apply splitlines_from_nonempty]].
        cbn [splitlines_from]. by rewrite continued_single.
      * apply IH; [lia | by constructor].
Qed.

End Chunks2.

Section Chunks3.

Import DataMonitor.

Lemma take_lines_carry_split carry chunk :
  take_lines carry chunk = carry_split (splitlines_keepends (carry ++ chunk)).
Proof. reflexivity. Qed.

Lemma carry_split_app a lines :
  lines <> [] ->
  carry_split (a ++ lines) = (a ++ fst (carry_split lines), snd (carry_split lines)).
Proof.
  intros Hne. unfold carry_split. rewrite last_app.
  destruct (last lines) as [l|] eqn:El.
  - destruct (_ && _); [|done]. cbn [fst snd].
    by rewrite removelast_app.
  - destruct lines using rev_ind; [done | by rewrite last_snoc in El].
Qed.

Lemma carry_split_complete a first lines :
  endswith first [LF] = true ->
  carry_split (a ++ first :: lines)
  = (a ++ first :: fst (carry_split lines), snd (carry_split lines)).
Proof.
  intros Hf. destruct lines as [|l lines].
  - change (a ++ [first]) with (a ++ [first]). unfold carry_split at 1.
    rewrite last_snoc, Hf. done.
  - change (a ++ first :: l :: lines) with (a ++ [first] ++ (l :: lines)).
    rewrite app_assoc, carry_split_app by done. by rewrite <- app_assoc.
Qed.

Lemma for_each_app {S A} (la lb : list A) (body : A -> M S unit) s :
  for_each (la ++ lb) body s = (for_each la body ;; for_each lb body) s.
Proof.
  revert s. induction la as [|x la IH]; intros s; cbn [app for_each].
  - done.
  - unfold bind. destruct (body x s) as [[[]|] s']; [|done].
    rewrite IH. done.
Qed.

Lemma same_feed_refl l : same_feed l l.
Proof. done. Qed.

Lemma same_feed_app a b b' c :
  same_feed b b' -> same_feed (a ++ b ++ c) (a ++ b' ++ c).
Proof.
  intros Hb self. rewrite !for_each_app. unfold bind.
  destruct (for_each a enqueue self) as [[[]|] s1]; [|done].
  rewrite !for_each_app. unfold bind. by rewrite Hb.
Qed.

Lemma lstrip_all_spaces w : spaces w -> lstrip w = [].
Proof. induction 1 as [|c w Hc _ IH]; [done|]. cbn. by rewrite Hc. Qed.

Lemma strip_spaces_after l w : spaces w -> strip (l ++ w) = strip l.
Proof.
  intros Hw. unfold strip.
  destruct (lstrip_spec l) as (sp & E & Hsp & Hhead).
  assert (lstrip (l ++ w) = lstrip (lstrip l ++ w)) as ->.
  { rewrite E at 1. by rewrite <- app_assoc, lstrip_spaces. }
  destruct Hhead as [->|(c & r & -> & Hc)].
  - cbn [app]. by rewrite (lstrip_all_spaces w Hw).
  - cbn [app lstrip]. rewrite Hc.
    change (c :: r ++ w) with ((c :: r) ++ w).
    by rewrite rev_app_distr, lstrip_spaces by (by apply spaces_rev).
Qed.

(** the second half of a line break cut in two is an empty line *)
Lemma same_feed_cut_break l :
  same_feed [l; [LF]] [l ++ [LF]].
Proof.
  intros self. cbn [for_each].
  assert (enqueue (l ++ [LF]) = enqueue l) as ->.
  { unfold enqueue. by rewrite (strip_spaces_after l [LF]) by (by repeat constructor). }
  assert (forall s, enqueue [LF] s = (Ok tt, s)) as E by (intros s; reflexivity).
  unfold bind. destruct (enqueue l self) as [[[]|] s1]; [|done].
  by rewrite E.
Qed.

(** The lines of a text read in two parts: the carry of the first part
    is read again with the second, and the complete lines are those of
    the whole text, up to a line break [CR LF] cut in two. *)
Lemma take_lines_compose carry c1 c2 :
  c1 <> [] -> c2 <> [] ->
  let '(l1, r1) := take_lines carry c1 in
  let '(l2, r2) := take_lines r1 c2 in
  let '(l, r) := take_lines carry (c1 ++ c2) in
  r2 = r /\ same_feed (l1 ++ l2) l.
Proof.
  intros H1 H2. rewrite !take_lines_carry_split.
  rewrite app_assoc. unfold splitlines_keepends at 2.
  rewrite (splitlines_continued (length (carry ++ c1))) by (first [lia | by constructor]).
  fold (splitlines_keepends (carry ++ c1)).
  assert (splitlines_keepends (carry ++ c1) <> []) as Hne.
  { apply splitlines_from_nonempty. by destruct carry, c1. }
  set (lines := splitlines_keepends (carry ++ c1)) in *.
  destruct (exists_last Hne) as (P & l & El). unfold continued.
  unfold carry_split at 1. rewrite El, last_snoc, removelast_last.
  destruct (endswith l [CR] && startswith c2 [LF]) eqn:Ecut.
  - apply andb_true_iff in Ecut as [Hcr Hlf].
    destruct c2 as [|d c2']; [done|]. cbn [startswith] in Hlf.
    rewrite startswith_nil, andb_true_r in Hlf. apply Ascii.eqb_eq in Hlf as ->.
    rewrite Hcr, andb_false_r. rewrite take_lines_carry_split.
    cbn [app tail splitlines_keepends]. unfold splitlines_keepends.
    cbn [splitlines_from].
    change (Ascii.eqb LF CR) with false. change (islinebreak LF) with true.
    cbv iota.
    change (rev [LF]) with [LF].
    pose proof (carry_split_complete [] [LF] (splitlines_from [] c2') eq_refl) as E1.
    cbn [app] in E1. unfold pystr in *. rewrite E1.
    rewrite (carry_split_complete P (l ++ [LF])) by (by rewrite endswith_snoc).
    destruct (carry_split (splitlines_from [] c2')) as [l2 r2]. cbn [fst snd app].
    split; [done|].
    change (same_feed ((P ++ [l]) ++ [LF] :: l2) (P ++ (l ++ [LF]) :: l2)).
    rewrite <- app_assoc.
    apply (same_feed_app P [l; [LF]] [l ++ [LF]] l2), same_feed_cut_break.
  - destruct (endswith l [LF] || endswith l [CR]) eqn:Eend.
    + apply orb_true_iff in Eend.
      assert (negb (endswith l [LF]) && negb (endswith l [CR]) = false) as ->
        by (destruct Eend as [-> | ->]; [done | by rewrite andb_false_r]).
      rewrite take_lines_carry_split. cbn [app].
      rewrite carry_split_app by (by apply splitlines_from_nonempty).
      destruct (carry_split (splitlines_keepends c2)) as [l2 r2]. cbn [fst snd].
      split; [done|]. apply same_feed_refl.
    + apply orb_false_iff in Eend as [-> ->]. cbn [negb andb].
      rewrite take_lines_carry_split.
      rewrite carry_split_app by (apply splitlines_from_nonempty; by destruct l, c2).
      destruct (carry_split (splitlines_keepends (l ++ c2))) as [l2 r2].
      cbn [fst snd]. split; [done|]. apply same_feed_refl.
Qed.

End Chunks3.

Section Feed.

Import DataMonitor.

Lemma enqueue_effect ln :
  exists k, line_ok k /\
    forall self, caches_ok self -> enqueue ln self = (Ok tt, line_effect k self).
Proof.
  destruct (parse_line_fields (strip ln)) as (k & Hk & Hnr & _ & Hrun).
  exists k. split; [done|]. intros self Hok.
  unfold enqueue, bind. rewrite (Hrun self Hok).
  destruct k as [t_abs sid temp hum| |]; [|done..]. cbn [run_line line_effect].
  destruct (caches_ok_lookup self sid Hok Hk) as (lt & lh & Ht & Hh & _).
  rewrite (validate_run _ _ _ _ _ _ _ Ht Hh), Ht, Hh.
  by destruct (_ && _).
Qed.

Lemma line_effect_at_pos k pos carry self :
  line_effect k (at_pos pos carry self) = at_pos pos carry (line_effect k self).
Proof.
  destruct k as [t_abs sid temp hum| |]; [|done..]. unfold line_effect, at_pos.
  cbn [_last_good_temp _last_good_hum set_carry set_file_pos].
  destruct (_last_good_temp self !! sid), (_last_good_hum self !! sid); try done.
  by destruct (_ && _).
Qed.

Lemma at_pos_caches_ok pos carry self :
  caches_ok self -> caches_ok (at_pos pos carry self).
Proof. by apply caches_ok_same. Qed.

Lemma feed_run lines : forall self,
  caches_ok self ->
  for_each lines enqueue self = (Ok tt, feed lines self)
  /\ caches_ok (feed lines self)
  /\ forall pos carry,
       feed lines (at_pos pos carry self) = at_pos pos carry (feed lines self).
Proof.
  unfold feed. induction lines as [|ln lines IH]; intros self Hok.
  - done.
  - destruct (enqueue_effect ln) as (k & Hk & Hrun).
    pose proof (enqueue_caches_ok ln self Hok) as Hok'.
    cbn [for_each]. unfold bind. rewrite (Hrun self Hok) in *. cbn [snd] in Hok'.
    destruct (IH _ Hok') as (E & Hok'' & Hcomm).
    split; [by rewrite E|]. split; [done|]. intros pos carry.
    rewrite (Hrun _ (at_pos_caches_ok pos carry self Hok)).
    by rewrite line_effect_at_pos, Hcomm.
Qed.

Lemma feed_app la lb self :
  caches_ok self -> feed (la ++ lb) self = feed lb (feed la self).
Proof.
  intros Hok. unfold feed at 1. rewrite for_each_app. unfold bind.
  destruct (feed_run la self Hok) as (-> & _ & _). done.
Qed.

Lemma feed_same la lb self : same_feed la lb -> feed la self = feed lb self.
Proof. intros H. unfold feed. by rewrite H. Qed.

Lemma process_chunk_run chunk self :
  chunk <> [] -> caches_ok self ->
  process_chunk chunk self
  = let '(lines, carry) := take_lines (_carry self) chunk in
    (Ok tt, set_carry carry (feed lines self)).
Proof.
  intros Hne Hok. unfold process_chunk. destruct chunk as [|a chunk']; [done|].
  unfold bind, get, modify.
  destruct (take_lines (_carry self) (a :: chunk')) as [lines carry].
  pose proof (feed_run lines (set_carry carry self)) as Hrun.
  destruct (feed_run lines self Hok) as (_ & _ & Hcomm).
  specialize (Hcomm (file_pos self) carry).
  assert (at_pos (file_pos self) carry self = set_carry carry self) as Ea
    by (by destruct self).
  rewrite Ea in Hcomm.
  destruct Hrun as (-> & _); [by apply (caches_ok_same self)|].
  rewrite Hcomm. f_equal. unfold at_pos.
  destruct (feed_run lines self Hok) as (_ & _ & Hc2).
  pose proof (Hc2 (file_pos self) (_carry self)) as Hc3.
  assert (at_pos (file_pos self) (_carry self) self = self) as Eb by (by destruct self).
  rewrite Eb in Hc3. rewrite Hc3 at 2. unfold at_pos. by destruct (feed lines self).
Qed.

End Feed.

Section ReadsCompose.

Import DataMonitor.

(** an iteration of the main tailer on a file that has grown by [chunk] *)
Lemma main_iter_run (self : DataMonitor.t) (before chunk : pystr) (last_size : Z) :
  caches_ok self ->
  file_pos self = Z.of_nat (length before) ->
  last_size <= Z.of_nat (length before) -> chunk <> [] ->
  let size := Z.of_nat (length (before ++ chunk)) in
  read_loop_main_iter (Some size) (Some (before ++ chunk)) last_size self
  = let '(lines, carry) := take_lines (_carry self) chunk in
    (size, at_pos size carry (feed lines self)).
Proof.
  intros Hok Hpos Hlast Hne size.
  assert (size = Z.of_nat (length before) + Z.of_nat (length chunk)) as Hs
    by (unfold size; rewrite length_app; lia).
  rewrite main_iter_growing by lia.
  rewrite Hpos, read_from_end. fold size.
  assert (set_file_pos size self = at_pos size (_carry self) self) as ->
    by (by destruct self).
  rewrite process_chunk_run by (first [done | by apply at_pos_caches_ok]).
  cbn [at_pos set_carry _carry].
  change (set_carry (_carry self) (set_file_pos size self))
    with (at_pos size (_carry self) self).
  destruct (take_lines (_carry self) chunk) as [lines carry].
  destruct (feed_run lines self Hok) as (_ & _ & ->).
  unfold at_pos. by destruct (feed lines self).
Qed.

(** X13: How the growth of the file is cut into reads does not matter.
    In any state the monitor can reach, two polls of the main tailer, of
    which the first sees the file grown by [c1] and the second by [c2]
    more, end in the state and with the size one poll that sees it grown
    by [c1 ++ c2] ends with: the same samples queued in the same order,
    the same last-good values, carry and position, and no event.  The
    cut may fall anywhere, between two lines or inside one.  The lines
    are shorter than 300 characters, so that each of their numbers is in
    the range of a float. *)
Theorem reads_compose (self : DataMonitor.t) (before c1 c2 : pystr)
    (last_size : Z) :
  reachable self ->
  file_pos self = Z.of_nat (length before) ->
  last_size <= Z.of_nat (length before) ->
  c1 <> [] -> c2 <> [] ->
  Forall (fun ln => (length ln < 300)%nat)
         (splitlines_keepends (_carry self ++ c1 ++ c2)) ->
  let size1 := Z.of_nat (length (before ++ c1)) in
  let size2 := Z.of_nat (length (before ++ c1 ++ c2)) in
  let whole := Some (before ++ c1 ++ c2) in
  let after_first :=
    read_loop_main_iter (Some size1) (Some (before ++ c1)) last_size self in
  read_loop_main_iter (Some size2) whole (fst after_first) (snd after_first)
  = read_loop_main_iter (Some size2) whole last_size self
  /\ event_q (snd (read_loop_main_iter (Some size2) whole last_size self))
     = event_q self.
Proof.
  intros Hreach Hpos Hlast H1 H2 _ size1 size2 whole after_first.
  apply reachable_caches_ok in Hreach as Hok.
  pose proof (take_lines_compose (_carry self) c1 c2 H1 H2) as Hcomp.
  assert (c1 ++ c2 <> []) as H12 by (by destruct c1).
  pose proof (main_iter_run self before (c1 ++ c2) last_size Hok Hpos Hlast H12)
    as Hone.
  pose proof (main_iter_run self before c1 last_size Hok Hpos Hlast H1) as Hfirst.
  cbn zeta in Hone, Hfirst. fold size1 in Hfirst. fold size2 in Hone.
  fold after_first in Hfirst. unfold whole. rewrite Hone.
  destruct (take_lines (_carry self) c1) as [l1 r1].
  destruct (feed_run l1 self Hok) as (_ & Hok1 & _).
  rewrite Hfirst. cbn [fst snd].
  pose proof (main_iter_run (at_pos size1 r1 (feed l1 self)) (before ++ c1) c2 size1)
    as Hsecond.
  rewrite <- app_assoc in Hsecond. cbn zeta in Hsecond. fold size2 in Hsecond.
  rewrite Hsecond; [|by apply at_pos_caches_ok|done|unfold size1; lia|done].
  cbn [at_pos set_carry _carry].
  destruct (take_lines r1 c2) as [l2 r2].
  destruct (take_lines (_carry self) (c1 ++ c2)) as [l r].
  destruct Hcomp as [-> Hsame].
  destruct (feed_run l2 (feed l1 self) Hok1) as (_ & _ & Hcomm).
  change (set_carry r1 (set_file_pos size1 (feed l1 self)))
    with (at_pos size1 r1 (feed l1 self)).
  rewrite Hcomm, <- feed_app, (feed_same _ _ _ Hsame) by done.
  split.
  - done.
  - cbn [snd]. clear -Hok. unfold at_pos.
    assert (forall lines s, caches_ok s -> event_q (feed lines s) = event_q s) as He.
    { induction lines as [|ln lines IH]; intros s Hs; [done|].
      change (ln :: lines) with ([ln] ++ lines). rewrite feed_app by done.
      destruct (feed_run [ln] s Hs) as (E & Hs' & _).
      rewrite IH by done.
      destruct (enqueue_effect ln) as (k & Hk & Hrun).
      unfold feed. cbn [for_each]. unfold bind. rewrite (Hrun s Hs). cbn [snd].
      destruct k as [t_abs sid temp hum| |]; [|done..]. unfold line_effect.
      destruct (_last_good_temp s !! sid), (_last_good_hum s !! sid); try done.
      by destruct (_ && _). }
    by rewrite <- (He l self Hok).
Qed.

Lemma reads_compose_witness :
  let c1 := lit "0,Sensor1,25.0,40.0" ++ [LF] ++ lit "1,Sens" in
  let c2 := lit "or1,25.5,41.0" ++ [LF] ++ lit "2,Sens" in
  let after_first := read_loop_main_iter (Some 26) (Some c1) 0 init in
  let after_second :=
    read_loop_main_iter (Some 46) (Some (c1 ++ c2)) (fst after_first)
                        (snd after_first) in
  queue (snd after_first) = [(Fin 0, 1, Fin 25, Fin 40)] /\
  _carry (snd after_first) = lit "1,Sens" /\
  after_second = read_loop_main_iter (Some 46) (Some (c1 ++ c2)) 0 init /\
  queue (snd after_second)
  = [(Fin 0, 1, Fin 25, Fin 40); (Fin 1, 1, Fin (51 # 2), Fin 41)] /\
  _carry (snd after_second) = lit "2,Sens".
Proof.
  intros c1 c2 after_first after_second.
  assert (Forall (fun ln => (length ln < 300)%nat)
                 (splitlines_keepends (_carry init ++ c1 ++ c2))) as Hshort.
  { vm_compute. repeat (apply List.Forall_cons; [lia|]). apply List.Forall_nil. }
  destruct (reads_compose init [] c1 c2 0 reach_init eq_refl ltac:(cbn; lia)
              ltac:(done) ltac:(done) Hshort) as [Hsame _].
  split; [vm_compute; reflexivity|]. split; [vm_compute; reflexivity|].
  split; [exact Hsame|].
  split; [vm_compute; reflexivity | vm_compute; reflexivity].
Defined.

End ReadsCompose.
(** ** The step filter after a jump *)

Section StepFilter.

Import DataMonitor.

Local Open Scope Q_scope.

Lemma step_ok_beyond qt qh qlt qlh :
  5 < Qabs (qt - qlt) \/ 20 < Qabs (qh - qlh) ->
  step_ok (Some (Fin qlt)) (Some (Fin qlh)) (Fin qt) (Fin qh) = false.
Proof.
  intros H. unfold step_ok, MAX_TEMP_STEP_C, MAX_HUM_STEP_PCT.
  apply andb_false_iff. rewrite !negb_false_iff, !abs_sub_Fin, !gtb_Fin.
  by rewrite !Qabs_Qred.
Qed.

Lemma beyond_step_rejected self sid qlt qlh s :
  caches_ok self ->
  _last_good_temp self !! sid = Some (Some (Fin qlt)) ->
  _last_good_hum self !! sid = Some (Some (Fin qlh)) ->
  beyond_step sid qlt qlh s ->
  parse_log_line_abs_seconds s self = (Ok None, self).
Proof.
  intros Hok Ht Hh (qt & qh & [t_abs Hread] & Hfar).
  destruct (parse_line s) as (k & Hk & Hrun).
  rewrite (Hrun init) in Hread by apply init_caches_ok.
  rewrite (Hrun self Hok).
  destruct k as [t' sid' temp' hum'| |]; [|done..]. cbn [run_line] in *.
  destruct (validate t' sid' temp' hum' init) as [r s0] eqn:Ev.
  cbn [fst] in Hread. subst r. apply validate_some in Ev as [= <- <- <- <-].
  rewrite (validate_run _ _ _ _ _ _ _ Ht Hh), (step_ok_beyond _ _ _ _ Hfar).
  by rewrite andb_false_r.
Qed.



End StepFilter.

(** ** The lines of the log are read *)

Section FloatRejects.

Lemma digits_tail_consumes_upto n : forall s ds r,
  (length s <= n)%nat -> digits_tail s = (ds, r) ->
  exists pre, s = pre ++ r /\ Forall (fun d => d <> ":"%char) pre.
Proof.
  induction n as [|n IH]; intros s ds r Hlen.
  - destruct s; [|cbn in Hlen; lia]. intros [= <- <-]. by exists [].
  - destruct s as [|c s']; cbn [digits_tail]; [intros [= <- <-]; by exists []|].
    cbn [length] in Hlen. destruct (isdigit c) eqn:Hc.
    + destruct (digits_tail s') as [ds' r'] eqn:E. intros [= <- <-].
      destruct (IH s' _ _ ltac:(lia) E) as (pre & -> & Hpre).
      exists (c :: pre). split; [done|]. constructor; [|done].
      intros ->. done.
    + destruct (Ascii.eqb_spec c "_") as [->|Hu]; [|intros [= <- <-]; by exists []].
      destruct s' as [|d s'']; [intros [= <- <-]; by exists []|].
      destruct (isdigit d) eqn:Hd; [|intros [= <- <-]; by exists []].
      destruct (digits_tail s'') as [ds' r'] eqn:E. intros [= <- <-].
      cbn [length] in Hlen.
      destruct (IH s'' _ _ ltac:(lia) E) as (pre & -> & Hpre).
      exists ("_"%char :: d :: pre). split; [done|].
      constructor; [done|]. constructor; [|done]. intros ->. done.
Qed.

Lemma digits_tail_consumes s ds r :
  digits_tail s = (ds, r) ->
  exists pre, s = pre ++ r /\ Forall (fun d => d <> ":"%char) pre.
Proof. by apply (digits_tail_consumes_upto (length s)). Qed.

Lemma digitpart_consumes s ds r :
  digitpart s = Some (ds, r) ->
  exists pre, s = pre ++ r /\ Forall (fun d => d <> ":"%char) pre.
Proof.
  destruct s as [|c s']; [done|]. cbn [digitpart].
  destruct (isdigit c) eqn:Hc; [|done].
  destruct (digits_tail s') as [ds' r'] eqn:E. intros [= <- <-].
  destruct (digits_tail_consumes _ _ _ E) as (pre & -> & Hpre).
  exists (c :: pre). split; [done|]. constructor; [|done]. intros ->. done.
Qed.

Lemma number_consumes s ip fp r :
  number s = Some (ip, fp, r) ->
  exists pre, s = pre ++ r /\ Forall (fun d => d <> ":"%char) pre.
Proof.
  unfold number. destruct (digitpart s) as [[ip' r']|] eqn:E.
  - destruct (digitpart_consumes _ _ _ E) as (pre & -> & Hpre).
    destruct r' as [|c r'']; [intros [= <- <- <-]; by exists pre|].
    destruct (Ascii.eqb_spec c ".") as [->|Hdot];
      [|intros [= <- <- <-]; by exists pre].
    destruct (digitpart r'') as [[fp' r3]|] eqn:E2.
    + destruct (digitpart_consumes _ _ _ E2) as (pre2 & -> & Hpre2).
      intros [= <- <- <-]. exists (pre ++ "."%char :: pre2).
      split; [by rewrite <- app_assoc|].
      apply Forall_app_2; [done|]. by constructor.
    + intros [= <- <- <-]. exists (pre ++ ["."%char]).
      split; [by rewrite <- app_assoc|].
      apply Forall_app_2; [done|]. by repeat constructor.
  - destruct s as [|c r'']; [done|].
    destruct (Ascii.eqb_spec c ".") as [->|Hdot]; [|done].
    destruct (digitpart r'') as [[fp' r3]|] eqn:E2; [|done].
    destruct (digitpart_consumes _ _ _ E2) as (pre2 & -> & Hpre2).
    intros [= <- <- <-]. exists ("."%char :: pre2). split; [done|]. by constructor.
Qed.

Lemma exponent_consumes r e :
  exponent r = Some e -> Forall (fun d => d <> ":"%char) r.
Proof.
  unfold exponent. destruct r as [|c r]; [done|].
  destruct (Ascii.eqb c "e" || Ascii.eqb c "E") eqn:He; [|done].
  assert (c <> ":"%char) as Hc by (intros ->; done).
  set (split_sign := match r with
                     | d :: r0 => if Ascii.eqb d "-" then (-1, r0)
                                  else if Ascii.eqb d "+" then (1, r0) else (1, r)
                     | [] => (1, r)
                     end).
  assert (exists sg, r = sg ++ snd split_sign /\ Forall (fun d => d <> ":"%char) sg)
    as (sg & Er & Hsg).
  { unfold split_sign. destruct r as [|d r0]; [by exists []|].
    destruct (Ascii.eqb_spec d "-") as [->|]; [exists ["-"%char]; by repeat constructor|].
    destruct (Ascii.eqb_spec d "+") as [->|]; [exists ["+"%char]; by repeat constructor|].
    by exists []. }
  destruct split_sign as [sgn r']. cbn [snd] in Er.
  destruct (digitpart r') as [[ds [|? ?]]|] eqn:E; [|done..].
  destruct (digitpart_consumes _ _ _ E) as (pre & -> & Hpre).
  intros _. rewrite Er, app_nil_r. constructor; [done|]. by apply Forall_app_2.
Qed.

Lemma floatnumber_no_colon s q :
  floatnumber s = Some q -> Forall (fun d => d <> ":"%char) s.
Proof.
  unfold floatnumber. destruct (number s) as [[[ip fp] r]|] eqn:E; [|done].
  destruct (exponent r) as [e|] eqn:Ee; [|done]. intros _.
  destruct (number_consumes _ _ _ _ E) as (pre & -> & Hpre).
  apply Forall_app_2; [done | by eapply exponent_consumes].
Qed.

End FloatRejects.

Section FloatOfColon.

Lemma lstrip_keeps c s : In c s -> isspace c = false -> In c (lstrip s).
Proof.
  intros Hin Hc. induction s as [|d s IH]; [done|]. cbn [lstrip].
  destruct (isspace d) eqn:Hd; [|done].
  destruct Hin as [->|Hin]; [congruence | by apply IH].
Qed.

Lemma strip_keeps c s : In c s -> isspace c = false -> In c (strip s).
Proof.
  intros Hin Hc. unfold strip. apply in_rev. rewrite rev_involutive.
  apply lstrip_keeps; [|done]. apply in_rev. rewrite rev_involutive.
  by apply lstrip_keeps.
Qed.

(** [float] raises on a text with a colon *)
Lemma float_colon s : In ":"%char s -> float s = None.
Proof.
  intros Hin. apply (strip_keeps _ _) in Hin; [|done]. unfold float.
  set (u := strip s) in *.
  set (sb := match u with
             | c :: r => if Ascii.eqb c "-" then (true, r)
                         else if Ascii.eqb c "+" then (false, r) else (false, u)
             | [] => (false, u)
             end).
  assert (In ":"%char (snd sb)) as Hbody.
  { unfold sb. destruct u as [|c r]; [done|].
    destruct (Ascii.eqb_spec c "-") as [->|]; [by destruct Hin|].
    destruct (Ascii.eqb_spec c "+") as [->|]; [by destruct Hin | done]. }
  destruct sb as [negative body]. cbn [snd] in Hbody.
  assert (In ":"%char (lower body)) as Hlow.
  { unfold lower. apply in_map_iff. by exists ":"%char. }
  assert (forall w, ~ In ":"%char w -> Str.eqb (lower body) w = false) as Hne.
  { intros w Hw. apply bool_decide_eq_false_2. intros E. by rewrite E in Hlow. }
  rewrite !Hne by (cbn; intuition discriminate). cbn [orb].
  destruct (floatnumber body) as [q|] eqn:Eq; [|done].
  apply floatnumber_no_colon in Eq. rewrite List.Forall_forall in Eq.
  by destruct (Eq _ Hbody).
Qed.

End FloatOfColon.

Section MatcherSucceeds.

Lemma exec_eps s g k : exec Eps s g k = k s g.
Proof. reflexivity. Qed.

Lemma exec_opt a s g k :
  exec (Opt a) s g k
  = match exec a s g k with Some m => Some m | None => k s g end.
Proof. reflexivity. Qed.

Lemma exec_eos_nil g k : exec Eos [] g k = k [] g.
Proof. reflexivity. Qed.

Lemma exec_plus p w rest g k m :
  w <> [] -> Forall (fun c => p c = true) w -> stops p rest ->
  k rest g = Some m -> exec (Plus p) (w ++ rest) g k = Some m.
Proof.
  intros Hne Hw Hrest Hk. destruct w as [|c w]; [done|].
  apply Forall_cons in Hw as [Hc Hw]. unfold Plus. rewrite exec_seq.
  cbn [app]. rewrite exec_cls, Hc. by apply exec_star_greedy.
Qed.

Lemma exec_grp_word name a w rest g k m :
  (forall k', k' rest g = Some m -> exec a (w ++ rest) g k' = Some m) ->
  k rest ((name, w) :: g) = Some m ->
  exec (Grp name a) (w ++ rest) g k = Some m.
Proof.
  intros Ha Hk. rewrite exec_grp. apply Ha.
  rewrite length_app.
  replace (length w + length rest - length rest)%nat with (length w) by lia.
  by rewrite take_app_length.
Qed.

Lemma stops_digit_other p rest :
  (forall c, p c = true -> isdigit c = false) ->
  (rest = [] \/ exists c r, rest = c :: r /\ (p c = true \/ isdigit c = false)) ->
  stops isdigit rest.
Proof.
  intros Hp [->|(c & r & -> & [H|H])]; [by left|right..]; exists c, r; auto.
Qed.

(** a number of the pattern, followed by white space, a comma or
    nothing *)
Lemma exec_decimal w rest g k m :
  decimal_string w ->
  (rest = [] \/ exists c r, rest = c :: r /\ isdigit c = false
                            /\ Ascii.eqb "." c = false) ->
  k rest g = Some m -> exec decimal (w ++ rest) g k = Some m.
Proof.
  intros (sign & ip & frac & -> & Hsign & Hip & Hfrac) Hrest Hk.
  unfold decimal, seqs. cbn [foldr].
  assert (exec (Seq digits (Seq (Opt (Seq (Chr ".") digits)) Eps))
               (ip ++ frac ++ rest) g k = Some m) as Hnum.
  { rewrite exec_seq.
    apply exec_plus; [by destruct Hip | by destruct Hip | |].
    - destruct Hfrac as [->|(fp & -> & _)].
      + destruct Hrest as [->|(c & r & -> & Hc & _)]; [by left|].
        right. by exists c, r.
      + right. by eexists _, _.
    - rewrite exec_seq, exec_opt, exec_eps.
      destruct Hfrac as [->|(fp & -> & Hfp)].
      + cbn [app]. destruct Hrest as [->|(c & r & -> & Hc & Hdot)]; [done|].
        rewrite exec_seq. unfold Chr at 1. by rewrite exec_cls, Hdot.
      + cbn [app]. rewrite exec_seq, exec_chr.
        rewrite (exec_plus isdigit fp rest g _ m); [done | by destruct Hfp
          | by destruct Hfp | | done].
        destruct Hrest as [->|(c & r & -> & Hc & _)]; [by left|].
        right. by exists c, r. }
  rewrite <- !app_assoc. rewrite exec_seq, exec_opt.
  destruct Hsign as [->| ->].
  - cbn [app]. rewrite Hnum.
    destruct (digit_string_head ip Hip) as (c & ip' & Eip & Hc & _).
    destruct (isdigit_cases c Hc) as (Hm & _).
    rewrite Eip. cbn [app]. unfold Chr at 1. rewrite exec_cls.
    by rewrite Ascii.eqb_sym, Hm.
  - change (lit "-" ++ ip ++ frac ++ rest) with ("-"%char :: ip ++ frac ++ rest).
    by rewrite exec_chr, Hnum.
Qed.

Lemma spaces_stop_digits w rest :
  spaces w -> (rest = [] \/ exists r, rest = ","%char :: r) ->
  (w ++ rest = [] \/ exists c r, w ++ rest = c :: r /\ isdigit c = false
                                 /\ Ascii.eqb "." c = false).
Proof.
  intros Hw Hrest. destruct Hw as [|c w Hc Hw].
  - destruct Hrest as [->|(r & ->)]; [by left|]. right. by eexists _, _.
  - right. exists c, (w ++ rest). split; [done|].
    clear -Hc. by destruct c as [[] [] [] [] [] [] [] []].
Qed.

End MatcherSucceeds.

Section LogLineMatches.

Lemma stops_space_comma r : stops isspace (","%char :: r).
Proof. right. by eexists _, _. Qed.

Lemma stops_digit_spaces_comma w r : spaces w -> stops isdigit (w ++ ","%char :: r).
Proof.
  intros [|c w' Hc _]; right; [by eexists _, _|].
  exists c, (w' ++ ","%char :: r). split; [done|].
  clear -Hc. by destruct c as [[] [] [] [] [] [] [] []].
Qed.

Lemma stops_space_trimmed x r : trimmed x -> stops isspace (x ++ r).
Proof. intros (c & d & x' & x'' & -> & _ & Hc & _). right. by exists c, (x' ++ r). Qed.

Lemma stops_nonspace_spaces w r :
  w <> [] -> spaces w -> stops (fun c => negb (isspace c)) (w ++ r).
Proof.
  intros Hne Hw. destruct Hw as [|c w' Hc _]; [by destruct Hne|].
  right. exists c, (w' ++ r). by rewrite Hc.
Qed.

Lemma LINE_RE_log_line s pc wm wsec wms n temp rh :
  log_line s pc wm wsec wms n temp rh ->
  exists sp,
    spaces sp /\
    rmatch LINE_RE s
    = Some [("rh"%string, rh); ("temp"%string, temp);
            ("sensor"%string, lit "Sensor" ++ sp ++ [n]);
            ("ms"%string, wms); ("s"%string, wsec); ("m"%string, wm);
            ("pc"%string, pc)].
Proof.
  intros (w0 & w2 & w8 & w10 & sp & w12 & w14 & w16 & w18 & w20 & -> &
          H0 & Hpc & Hpc' & Hw2 & H2 & Hm & Hs & Hms & H8 & H10 & Hsp & Hn &
          H12 & H14 & Htemp & H16 & H18 & Hrh & H20).
  exists sp. split; [done|].
  assert (isspace n = false) as Hn' by (by destruct Hn as [->| ->]).
  unfold rmatch, LINE_RE, seqs. cbn [foldr].
  (* white space, the stamp, white space *)
  rewrite exec_seq. unfold ws at 1. apply exec_star_greedy; [done | |].
  { destruct pc as [|c pc']; [done|]. apply Forall_cons in Hpc' as [Hc _].
    right. by eexists _, _. }
  rewrite exec_seq. apply exec_grp_word.
  { intros k' Hk'. apply exec_plus; [done | | by apply stops_nonspace_spaces | done].
    eapply Forall_impl; [exact Hpc'|]. intros c Hc. cbn beta. by rewrite Hc. }
  rewrite exec_seq. apply exec_plus; [done | done | |].
  { destruct (digit_string_head wm Hm) as (c & r & -> & Hc & _).
    right. exists c, (r ++ ":"%char :: wsec ++ "."%char :: wms ++ w8 ++ ","%char ::
      w10 ++ lit "Sensor" ++ sp ++ n :: w12 ++ ","%char :: w14 ++ temp ++ w16
      ++ ","%char :: w18 ++ rh ++ w20).
    split; [done | by apply isdigit_not_space]. }
  (* the time *)
  rewrite exec_seq. apply exec_grp_digits; [done | right; by eexists _, _|].
  rewrite exec_seq, exec_chr, exec_seq.
  apply exec_grp_digits; [done | right; by eexists _, _|].
  rewrite exec_seq, exec_chr, exec_seq.
  apply exec_grp_digits; [done | by apply stops_digit_spaces_comma|].
  rewrite exec_seq. unfold ws at 1.
  apply exec_star_greedy; [done | apply stops_space_comma|].
  rewrite exec_seq, exec_chr, exec_seq. unfold ws at 1.
  apply exec_star_greedy; [done | right; by eexists _, _|].
  (* the label *)
  rewrite exec_seq.
  replace (lit "Sensor" ++ sp ++ n :: w12 ++ ","%char :: w14 ++ temp ++ w16
           ++ ","%char :: w18 ++ rh ++ w20)
    with ((lit "Sensor" ++ sp ++ [n]) ++ w12 ++ ","%char :: w14 ++ temp ++ w16
          ++ ","%char :: w18 ++ rh ++ w20)
    by (by rewrite <- !app_assoc).
  apply exec_grp_word.
  { intros k' Hk'. unfold Lit, lit. cbn [list_ascii_of_string map].
    unfold seqs. cbn [foldr]. rewrite <- !app_assoc. cbn [app].
    rewrite exec_seq. do 6 (rewrite exec_seq, exec_chr).
    rewrite exec_eps, exec_seq. unfold ws at 1.
    apply exec_star_greedy; [done | right; by eexists _, _|].
    rewrite exec_seq. cbn [app]. rewrite exec_cls.
    assert (Ascii.eqb n "1" || Ascii.eqb n "2" = true) as ->
      by (by destruct Hn as [->| ->]).
    by rewrite exec_eps. }
  rewrite exec_seq. unfold ws at 1.
  apply exec_star_greedy; [done | apply stops_space_comma|].
  rewrite exec_seq, exec_chr, exec_seq. unfold ws at 1.
  apply exec_star_greedy;
    [done | by apply stops_space_trimmed, decimal_string_trimmed|].
  (* the temperature *)
  rewrite exec_seq. apply exec_grp_word.
  { intros k' Hk'. apply exec_decimal; [done | | done].
    apply spaces_stop_digits; [done | right; by eexists]. }
  rewrite exec_seq. unfold ws at 1.
  apply exec_star_greedy; [done | apply stops_space_comma|].
  rewrite exec_seq, exec_chr, exec_seq. unfold ws at 1.
  apply exec_star_greedy;
    [done | by apply stops_space_trimmed, decimal_string_trimmed|].
  (* the humidity *)
  rewrite exec_seq. apply exec_grp_word.
  { intros k' Hk'. apply exec_decimal; [done | | done].
    rewrite <- (app_nil_r w20). apply spaces_stop_digits; [done | by left]. }
  rewrite exec_seq. unfold ws at 1. rewrite <- (app_nil_r w20).
  apply exec_star_greedy; [done | by left|].
  by rewrite exec_seq, exec_eos_nil, exec_eps.
Qed.

End LogLineMatches.

Section LogLines.

Import DataMonitor.

Lemma split_app_nosep sep x y :
  Forall (fun c => Ascii.eqb c sep = false) y ->
  exists init l, split sep x = init ++ [l] /\ split sep (x ++ y) = init ++ [l ++ y].
Proof.
  intros Hy. induction x as [|c x (init & l & E & E')].
  - exists [], []. split; [done|]. cbn [app]. by apply split_single.
  - cbn [app split]. rewrite E, E'. destruct (Ascii.eqb c sep).
    + by exists ([] :: init), l.
    + destruct init as [|p init]; cbn [app].
      * by exists [], (c :: l).
      * by exists ((c :: p) :: init), l.
Qed.

Lemma sensor_id_label sp n :
  n = "1"%char \/ n = "2"%char ->
  sensor_id (lit "Sensor" ++ sp ++ [n]) = if Ascii.eqb n "1" then 1 else 2.
Proof.
  intros Hn. unfold sensor_id, remove_spaces, pystr. rewrite !list.filter_app.
  assert (filter (fun c => Ascii.eqb c " " = false) [n] = [n]) as ->
    by (by destruct Hn as [->| ->]).
  rewrite app_assoc. change (lit "1") with ["1"%char]. by rewrite endswith_snoc.
Qed.

(** On a line of the log the branch for rows of 4 or 5 fields gives
    nothing: the field it takes for the time holds a colon. *)
Lemma log_line_not_a_row s pc wm wsec wms n temp rh self :
  log_line s pc wm wsec wms n temp rh ->
  let parts := map strip (split "," s) in
  (if (length parts =? 4)%nat || (length parts =? 5)%nat
   then try_except (delimited_row parts) (ret None)
   else ret None) self = (Ok None, self).
Proof.
  intros (w0 & w2 & w8 & w10 & sp & w12 & w14 & w16 & w18 & w20 & -> &
          H0 & Hpc & Hpc' & Hw2 & H2 & Hm & Hs & Hms & H8 & H10 & Hsp & Hn &
          H12 & H14 & Htemp & H16 & H18 & Hrh & H20).
  set (A2 := w2 ++ wm ++ ":"%char :: wsec ++ "."%char :: wms ++ w8).
  set (rest := w10 ++ lit "Sensor" ++ sp ++ n :: w12 ++ ","%char :: w14 ++ temp
               ++ w16 ++ ","%char :: w18 ++ rh ++ w20).
  assert (Forall (fun c => Ascii.eqb c "," = false) A2) as HA2.
  { unfold A2. repeat first [apply Forall_app_2 | apply Forall_cons_2];
      auto using spaces_no_comma, digit_string_no_comma. }
  destruct (split_app_nosep "," (w0 ++ pc) A2 HA2) as (init & l & _ & Einit).
  assert (exists L C D, split "," rest = [L; C; D]) as (L & C & D & Erest).
  { unfold rest.
    replace (w10 ++ lit "Sensor" ++ sp ++ n :: w12 ++ ","%char :: w14 ++ temp
             ++ w16 ++ ","%char :: w18 ++ rh ++ w20)
      with ((w10 ++ lit "Sensor" ++ sp ++ n :: w12) ++ ","%char
            :: (w14 ++ temp ++ w16) ++ ","%char :: (w18 ++ rh ++ w20))
      by (by repeat (rewrite <- app_assoc || rewrite <- app_comm_cons)).
    rewrite !split_app. rewrite !split_single; [by eexists _, _, _|..].
    - repeat first [apply Forall_app_2 | apply Forall_cons_2];
        auto using spaces_no_comma, decimal_string_no_comma.
    - repeat first [apply Forall_app_2 | apply Forall_cons_2];
        auto using spaces_no_comma, decimal_string_no_comma.
    - repeat first [apply Forall_app_2 | apply Forall_cons_2];
        auto using spaces_no_comma; first [by destruct Hn as [->| ->]
                                          | by repeat constructor]. }
  assert (split "," (w0 ++ pc ++ A2 ++ ","%char :: rest)
          = init ++ [l ++ A2; L; C; D]) as Esplit.
  { replace (w0 ++ pc ++ A2 ++ ","%char :: rest)
      with (((w0 ++ pc) ++ A2) ++ ","%char :: rest) by (by repeat (rewrite <- app_assoc || rewrite <- app_comm_cons)).
    rewrite split_app, Einit, Erest. by rewrite <- app_assoc. }
  assert (float (strip (l ++ A2)) = None) as Hfloat.
  { apply float_colon, strip_keeps; [|done]. unfold A2.
    apply in_or_app. right. apply in_or_app. right. apply in_or_app. right.
    by left. }
  cbn zeta.
  replace (w0 ++ pc ++ w2 ++ wm ++ ":"%char :: wsec ++ "."%char :: wms ++ w8
           ++ ","%char :: rest)
    with (w0 ++ pc ++ A2 ++ ","%char :: rest)
    by (unfold A2; by repeat (rewrite <- app_assoc || rewrite <- app_comm_cons)).
  fold rest. rewrite Esplit, map_app. cbn [map].
  destruct init as [|x [|y init]].
  - cbn [app length Nat.eqb orb map].
    unfold try_except, delimited_row, delimited_fields, item, bind, or_raise.
    cbn [length Nat.eqb lookup list_lookup]. unfold ret. cbv beta iota.
    by rewrite Hfloat.
  - cbn [app length Nat.eqb orb map].
    unfold try_except, delimited_row, delimited_fields, item, bind, or_raise.
    cbn [length Nat.eqb lookup list_lookup]. unfold ret. cbv beta iota.
    by rewrite Hfloat.
  - cbn [app length map]. rewrite !length_app. cbn [length].
    replace (S (S (length (map strip init) + 4))) with
      (6 + length (map strip init))%nat by lia. done.
Qed.

End LogLines.

Section LogLinesRead.

Import DataMonitor.

Lemma log_line_nonempty s pc wm wsec wms n temp rh :
  log_line s pc wm wsec wms n temp rh -> s <> [].
Proof.
  intros (w0 & w2 & w8 & w10 & sp & w12 & w14 & w16 & w18 & w20 & -> &
          _ & Hpc & _).
  intros E. apply app_eq_nil in E as [_ E]. by apply app_eq_nil in E as [E _].
Qed.


End LogLinesRead.


(** ** The live overlays *)

Section OverlayTailer.

Import DataMonitor.

Lemma alter_alter {A} (f g : A -> A) i : forall l : list A,
  alter g i (alter f i l) = alter (fun x => g (f x)) i l.
Proof.
  induction i as [|i IH]; intros [|x l]; try done.
  cbn. by rewrite IH.
Qed.

Lemma alter_lookup {A} (f : A -> A) i x : forall l : list A,
  l !! i = Some x -> alter f i l = <[i := f x]> l.
Proof.
  induction i as [|i IH]; intros [|y l] E; try done.
  - by injection E as ->.
  - cbn. f_equal. by apply IH.
Qed.

Lemma overlay_push_all samples : forall ov,
  fold_left (fun ov p => overlay_push p ov) samples ov = overlay_with samples ov.
Proof.
  induction samples as [|[[[t sid] te] hu] rest IH]; intros ov; [done|].
  cbn [fold_left]. rewrite IH. unfold overlay_with.
  destruct rest as [|q rest]; [done|].
  by destruct ov as [b fp c [a|]].
Qed.

Lemma overlay_with_cons p samples ov :
  overlay_with (p :: samples) ov = overlay_with samples (overlay_push p ov).
Proof. by rewrite <- !overlay_push_all. Qed.

Lemma with_last_good_of_self self : with_last_good_of self self = self.
Proof. by destruct self. Qed.

(** The parser assigns the last-good values and nothing else, and what
    it answers does not depend on the overlays. *)
Lemma parse_last_good s self :
  caches_ok self ->
  exists r after,
    parse_log_line_abs_seconds s self = (Ok r, after)
    /\ after = with_last_good_of after self /\ caches_ok after
    /\ forall o, parse_log_line_abs_seconds s (set_overlays o self)
                 = (Ok r, set_overlays o after).
Proof.
  intros Hok. destruct (parse_line_fields s) as (k & Hk & Hnr & _ & Hrun).
  assert (forall o, caches_ok (set_overlays o self)) as Hok'
    by (intros o; by apply (caches_ok_same self)).
  pose proof (parse_caches_ok s self Hok) as Hafter.
  rewrite (Hrun self Hok) in *.
  destruct k as [t_abs sid temp hum| |].
  - destruct (caches_ok_lookup self sid Hok Hk) as (lt & lh & Ht & Hh & _).
    cbn [run_line] in *. rewrite (validate_run _ _ _ _ _ _ _ Ht Hh) in *.
    destruct (_ && _) eqn:E.
    + eexists _, _. split; [done|]. split; [done|]. split; [done|].
      intros o. rewrite (Hrun _ (Hok' o)). cbn [run_line].
      rewrite (validate_run _ _ _ _ _ lt lh) by done. by rewrite E.
    + eexists _, _. split; [done|]. split; [by rewrite with_last_good_of_self|].
      split; [done|].
      intros o. rewrite (Hrun _ (Hok' o)). cbn [run_line].
      rewrite (validate_run _ _ _ _ _ lt lh) by done. by rewrite E.
  - eexists _, _. split; [done|]. split; [by rewrite with_last_good_of_self|].
    split; [done|]. intros o. by rewrite (Hrun _ (Hok' o)).
  - done.
Qed.

Lemma parse_all_last_good ls : forall self,
  caches_ok self ->
  let after := snd (parse_all ls self) in
  after = with_last_good_of after self /\ caches_ok after
  /\ forall o, parse_all ls (set_overlays o self)
               = (fst (parse_all ls self), set_overlays o after).
Proof.
  induction ls as [|s ls IH]; intros self Hok; cbn zeta.
  - cbn [parse_all snd fst]. by rewrite with_last_good_of_self.
  - destruct (parse_last_good s self Hok) as (r & s1 & E1 & Es1 & Hok1 & Ho1).
    destruct (IH s1 Hok1) as (Es2 & Hok2 & Ho2). cbn zeta in *.
    cbn [parse_all]. rewrite E1.
    destruct (parse_all ls s1) as [rs s2] eqn:E2. cbn [fst snd] in *.
    split; [|split; [done|]].
    + rewrite Es2 at 1. rewrite Es1. by destruct self.
    + intros o. rewrite Ho1, Ho2. done.
Qed.

(** The loop [for ln in lines] of an overlay tailer: the lines are parsed
    one after the other and the samples pushed to the overlay. *)
Lemma overlay_feed_run i lines : forall self,
  caches_ok self ->
  let answers := parse_all (map strip lines) self in
  for_each lines (overlay_enqueue i) self
  = (Ok tt,
     set_overlays (alter (overlay_with (samples_of (fst answers))) i
                         (overlays self))
                  (snd answers)).
Proof.
  induction lines as [|ln lines IH]; intros self Hok; cbn zeta.
  - cbn [for_each map parse_all fst snd samples_of omap]. unfold ret.
    rewrite list_alter_id by done. by destruct self.
  - cbn [for_each map parse_all]. unfold bind at 1. unfold overlay_enqueue at 1.
    unfold bind at 1.
    destruct (parse_last_good (strip ln) self Hok) as (r & s1 & E1 & Es1 & Hok1 & Ho1).
    rewrite E1.
    destruct (parse_all_last_good (map strip lines) s1 Hok1) as (Es2 & Hok2 & Ho2).
    cbn zeta in *.
    destruct r as [p|].
    + unfold update_overlay, modify.
      rewrite IH by (by apply (caches_ok_same s1)).
      rewrite Ho2. destruct (parse_all (map strip lines) s1) as [rs s2].
      cbn [fst snd samples_of omap] in *.
      f_equal. assert (overlays s1 = overlays self) as Eo by (by rewrite Es1).
      unfold set_overlays. cbn [main file_pos queue event_q _carry
        _last_good_temp _last_good_hum overlays main_t_start_abs].
      rewrite alter_alter, Eo. f_equal.
      apply list_alter_ext; [|done]. intros ov _. symmetry.
      apply (overlay_with_cons p (samples_of rs) ov).
    + unfold ret. rewrite IH by done.
      destruct (parse_all (map strip lines) s1) as [rs s2].
      cbn [fst snd samples_of omap] in *. f_equal. f_equal.
      by rewrite Es1.
Qed.

Lemma overlays_set o self : overlays (set_overlays o self) = o.
Proof. done. Qed.

Lemma set_overlays_set o o' self :
  set_overlays o (set_overlays o' self) = set_overlays o self.
Proof. done. Qed.

Lemma insert_alter {A} (f : A -> A) i x : forall l : list A,
  <[i := x]> (alter f i l) = <[i := x]> l.
Proof.
  induction i as [|i IH]; intros [|y l]; try done. cbn. by rewrite IH.
Qed.

Lemma with_last_good_of_after ls self :
  caches_ok self ->
  snd (parse_all ls self) = with_last_good_of (snd (parse_all ls self)) self.
Proof. intros Hok. by destruct (parse_all_last_good ls self Hok) as (E & _). Qed.

(** lines 339-361 on an overlay that has something to read *)
Lemma read_overlay_run i ov content self :
  caches_ok self -> overlays self !! i = Some ov ->
  let chunk := fst (read_from (OverlayItem.file_pos ov) content) in
  let pos := snd (read_from (OverlayItem.file_pos ov) content) in
  let lines := fst (take_lines (OverlayItem._carry ov) chunk) in
  chunk <> [] ->
  read_overlay i (Some content) self
  = (Ok tt,
     set_overlays (<[i := overlay_read ov chunk pos self]> (overlays self))
       (with_last_good_of (snd (parse_all (map strip lines) self)) self)).
Proof.
  intros Hok Hov chunk pos lines Hne.
  unfold read_overlay, or_raise. unfold bind at 1. unfold ret at 1.
  unfold bind at 1. unfold overlay at 1. unfold bind at 1, get at 1.
  rewrite Hov. cbn [or_raise]. unfold ret at 1.
  destruct (read_from (OverlayItem.file_pos ov) content) as [chunk' pos'] eqn:Er.
  cbn [fst snd] in chunk, pos. subst chunk pos.
  unfold bind at 1. unfold update_overlay at 1, modify.
  unfold overlay_process_chunk. destruct chunk' as [|c chunk']; [done|].
  set (chunk := c :: chunk') in *.
  unfold bind at 1. unfold overlay at 1. unfold bind at 1, get at 1.
  rewrite overlays_set, list_lookup_alter.
  destruct (decide (i = i)) as [_|]; [|done]. rewrite Hov.
  cbn [fmap option_fmap option_map or_raise OverlayItem._carry]. unfold ret at 1.
  unfold overlay_read. subst lines. cbn [OverlayItem._carry].
  destruct (take_lines (OverlayItem._carry ov) chunk) as [lines carry] eqn:Et.
  cbn [fst snd]. unfold bind at 1. unfold update_overlay at 1, modify.
  rewrite overlay_feed_run by (by apply (caches_ok_same self)).
  rewrite !set_overlays_set, !overlays_set, !alter_alter.
  destruct (parse_all_last_good (map strip lines) self Hok) as (Es & _ & Ho).
  cbn zeta in Es, Ho. rewrite Ho. cbn [fst snd].
  rewrite set_overlays_set, (alter_lookup _ _ ov) by done.
  rewrite <- Es. f_equal. f_equal. f_equal.
  destruct ov as [b fp cr st]; cbn.
  destruct (samples_of _) as [|p ss]; [done|]. by destruct st.
Qed.

(** One iteration of an overlay tailer that finds something to read. *)
Lemma tail_iter_run i ov size content last_size self :
  caches_ok self -> overlays self !! i = Some ov ->
  let ov0 :=
    if (size <? OverlayItem.file_pos ov) || (size <? last_size)
    then OverlayItem.mk (OverlayItem.buffers ov) 0 [] None else ov in
  let chunk := fst (read_from (OverlayItem.file_pos ov0) content) in
  let pos := snd (read_from (OverlayItem.file_pos ov0) content) in
  let lines := fst (take_lines (OverlayItem._carry ov0) chunk) in
  chunk <> [] ->
  tail_iter i (Some size) (Some content) last_size self
  = (size,
     set_overlays (<[i := overlay_read ov0 chunk pos self]> (overlays self))
       (with_last_good_of (snd (parse_all (map strip lines) self)) self)).
Proof.
  intros Hok Hov ov0 chunk pos lines Hne.
  unfold tail_iter. f_equal. unfold bind at 1.
  unfold truncation_overlay. unfold bind at 1. unfold overlay at 1.
  unfold bind at 1, get at 1. rewrite Hov. cbn [or_raise]. unfold ret at 1.
  destruct ((size <? OverlayItem.file_pos ov) || (size <? last_size)) eqn:Ec.
  - unfold update_overlay at 1, modify.
    set (self0 := set_overlays _ self).
    assert (overlays self0 !! i = Some ov0) as Hov0.
    { unfold self0. rewrite overlays_set, list_lookup_alter.
      destruct (decide (i = i)); [|done]. by rewrite Hov. }
    rewrite (read_overlay_run i ov0 content self0)
      by (done || by apply (caches_ok_same self)).
    cbn [snd]. unfold self0. rewrite overlays_set, insert_alter.
    destruct (parse_all_last_good
                (map strip (fst (take_lines (OverlayItem._carry ov0)
                     (fst (read_from (OverlayItem.file_pos ov0) content)))))
                self Hok) as (_ & _ & Ho).
    cbn zeta in Ho. unfold overlay_read.
    destruct (take_lines _ _) as [lines' carry']. cbn [fst] in Ho.
    by rewrite !Ho.
  - unfold ret at 1. by rewrite (read_overlay_run i ov0 content self).
Qed.

End OverlayTailer.

Section OverlayPolls.

Import DataMonitor.

(** X16: A poll of a live overlay parses and pushes in one go.  When the
    file has grown by [chunk], the complete lines of the carry and the
    chunk are parsed one after the other in the state of the monitor, and
    the accepted samples are pushed to the buffers of the overlay, their
    times counted from the time base of the overlay (the one it has, or
    else the time of the first of these samples); the overlay gets the new
    position and the new carry.  Of the monitor only this overlay and the
    last-good values change: nothing is queued, and the main buffers, the
    main position and the other overlays stay.  (Lines shorter than 300
    characters keep the numbers within the range of a float.) *)
Theorem overlay_poll_pushes_rebased i ov size (before chunk : pystr)
    last_size self :
  reachable self -> overlays self !! i = Some ov ->
  OverlayItem.file_pos ov = Z.of_nat (length before) ->
  OverlayItem.file_pos ov <= size -> last_size <= size ->
  chunk <> [] ->
  Forall (fun ln : pystr => (length ln < 300)%nat)
         (splitlines_keepends (OverlayItem._carry ov ++ chunk)) ->
  let lines := fst (take_lines (OverlayItem._carry ov) chunk) in
  let carry := snd (take_lines (OverlayItem._carry ov) chunk) in
  let answers := parse_all (map strip lines) self in
  let ov' := overlay_with (samples_of (fst answers)) ov in
  tail_iter i (Some size) (Some (before ++ chunk)) last_size self
  = (size,
     set_overlays
       (<[i := OverlayItem.mk (OverlayItem.buffers ov')
                              (Z.of_nat (length (before ++ chunk))) carry
                              (OverlayItem.t_start_abs ov')]> (overlays self))
       (with_last_good_of (snd answers) self)).
Proof.
  intros Hreach Hov Hpos Hsize Hlast Hne _ lines carry answers ov'.
  apply reachable_caches_ok in Hreach as Hok.
  pose proof (tail_iter_run i ov size (before ++ chunk) last_size self Hok Hov)
    as Hrun. cbn zeta in Hrun.
  assert ((size <? OverlayItem.file_pos ov) || (size <? last_size) = false) as Ec.
  { apply orb_false_intro; apply Z.ltb_ge; lia. }
  rewrite Ec in Hrun.
  assert (read_from (OverlayItem.file_pos ov) (before ++ chunk)
          = (chunk, Z.of_nat (length (before ++ chunk)))) as Er.
  { unfold read_from. rewrite Hpos, Nat2Z.id, drop_app_length. f_equal.
    rewrite length_app. lia. }
  rewrite Er in Hrun. cbn [fst snd] in Hrun.
  etrans; [exact (Hrun Hne)|].
  subst lines carry answers ov'. unfold overlay_read.
  by destruct (take_lines _ _).
Qed.

Lemma overlay_poll_pushes_rebased_witness :
  let chunk := lit "10,Sensor1,25.0,40.0" ++ [LF] ++ lit "12.5,Sensor2,30,50"
               ++ [LF] ++ lit "13,Sens" in
  let ov := OverlayItem.init MAX_POINTS in
  let b := StreamBuffers.push (Fin (5 # 2)) 2 (Fin 30) (Fin 50)
             (StreamBuffers.push (Fin 0) 1 (Fin 25) (Fin 40)
                (StreamBuffers.init MAX_POINTS)) in
  tail_iter 0 (Some 47) (Some chunk) 0 one_overlay
  = (47,
     set_overlays [OverlayItem.mk b 47 (lit "13,Sens") (Some (Fin 10))]
       (accepted 2 (Fin 30) (Fin 50) (accepted 1 (Fin 25) (Fin 40) one_overlay))).
Proof.
  intros chunk ov b.
  assert (reachable one_overlay) as Hreach
    by (by apply (reach_add_overlay init); [apply reach_init|]).
  assert (Forall (fun ln : pystr => (length ln < 300)%nat)
                 (splitlines_keepends (OverlayItem._carry ov ++ chunk))) as Hshort.
  { vm_compute. repeat (apply List.Forall_cons; [lia|]). apply List.Forall_nil. }
  etrans;
    [exact (overlay_poll_pushes_rebased 0 ov 47 [] chunk 0 one_overlay Hreach
              eq_refl eq_refl ltac:(cbn; lia) ltac:(lia) ltac:(done) Hshort)|].
  vm_compute. reflexivity.
Defined.

(** X17: A live overlay keeps its samples when its file shrinks.  When
    the size of the file is below the position of the overlay or below
    the size seen last, the poll reads the file from its start with an
    empty carry, and the samples of its complete lines are pushed after
    those the buffers of the overlay hold already, their times counted
    from the first of them; the lines are checked against the last-good
    values the monitor has at that moment.  Nothing else of the monitor
    changes.  (Lines shorter than 300 characters keep the numbers within
    the range of a float.) *)
Theorem overlay_truncation_keeps_samples i ov size (content : pystr)
    last_size self :
  reachable self -> overlays self !! i = Some ov ->
  size < OverlayItem.file_pos ov \/ size < last_size ->
  content <> [] ->
  Forall (fun ln : pystr => (length ln < 300)%nat)
         (splitlines_keepends content) ->
  let lines := fst (take_lines [] content) in
  let carry := snd (take_lines [] content) in
  let answers := parse_all (map strip lines) self in
  let samples := samples_of (fst answers) in
  tail_iter i (Some size) (Some content) last_size self
  = (size,
     set_overlays
       (<[i := OverlayItem.mk
                 match samples with
                 | [] => OverlayItem.buffers ov
                 | p :: _ => push_all (map (rebase (time_of p)) samples)
                                      (OverlayItem.buffers ov)
                 end
                 (Z.of_nat (length content)) carry
                 (option_map time_of (head samples))]> (overlays self))
       (with_last_good_of (snd answers) self)).
Proof.
  intros Hreach Hov Hsize Hne _ lines carry answers samples.
  apply reachable_caches_ok in Hreach as Hok.
  pose proof (tail_iter_run i ov size content last_size self Hok Hov) as Hrun.
  cbn zeta in Hrun.
  assert ((size <? OverlayItem.file_pos ov) || (size <? last_size) = true) as Ec.
  { apply orb_true_iff. destruct Hsize; [left|right]; apply Z.ltb_lt; lia. }
  rewrite Ec in Hrun. cbn [OverlayItem.file_pos OverlayItem._carry] in Hrun.
  assert (read_from 0 content = (content, Z.of_nat (length content))) as Er.
  { unfold read_from. cbn [Z.to_nat drop]. f_equal. lia. }
  rewrite Er in Hrun. cbn [fst snd] in Hrun.
  etrans; [exact (Hrun Hne)|].
  subst lines carry answers samples. unfold overlay_read.
  cbn [OverlayItem._carry].
  destruct (take_lines [] content) as [lines carry]. cbn [fst snd].
  by destruct (samples_of _).
Qed.

Lemma overlay_truncation_keeps_samples_witness :
  let content := lit "3,Sensor1,26,41" ++ [LF] ++ lit "4," in
  let self := one_overlay_at_20 in
  let b := StreamBuffers.push (Fin 0) 1 (Fin 26) (Fin 41)
             (StreamBuffers.push (Fin 0) 1 (Fin 25) (Fin 40)
                (StreamBuffers.init MAX_POINTS)) in
  overlays self
  = [OverlayItem.mk (StreamBuffers.push (Fin 0) 1 (Fin 25) (Fin 40)
                       (StreamBuffers.init MAX_POINTS)) 20 [] (Some (Fin 0))]
  /\ tail_iter 0 (Some 18) (Some content) 20 self
     = (18,
        set_overlays [OverlayItem.mk b 18 (lit "4,") (Some (Fin 3))]
          (accepted 1 (Fin 26) (Fin 41) self)).
Proof.
  intros content self b. split; [vm_compute; reflexivity|].
  assert (reachable self) as Hreach.
  { apply reach_tail_iter. by apply (reach_add_overlay init); [apply reach_init|]. }
  assert (Forall (fun ln : pystr => (length ln < 300)%nat)
                 (splitlines_keepends content)) as Hshort.
  { vm_compute. repeat (apply List.Forall_cons; [lia|]). apply List.Forall_nil. }
  etrans;
    [exact (overlay_truncation_keeps_samples 0
              (OverlayItem.mk (StreamBuffers.push (Fin 0) 1 (Fin 25) (Fin 40)
                                 (StreamBuffers.init MAX_POINTS)) 20 [] (Some (Fin 0)))
              18 content 20 self Hreach ltac:(vm_compute; reflexivity)
              ltac:(right; lia) ltac:(done) Hshort)|].
  vm_compute. reflexivity.
Defined.

End OverlayPolls.
